(** * nunuStudio: editor loaders, GUI elements and binary utilities

    A shallow embedding of the parts of nunuStudio that carry behaviour of
    their own: the [ArraybufferUtils] converters, [Font.fileIsFont] and
    [Font.generateShapes], the [Element] positioning code, the
    [LoadingModal] counter, [CodeEditor.setFontSize] and the resource
    loaders of [Loaders.js].

    JavaScript strings that are read through [charCodeAt]/[charAt] are
    lists of UTF-16 code units ([list Z]); file names are [string]s.
    Typed arrays are lists updated with stdpp's [<[i:=v]>], which, like a
    typed array, ignores a write past the end. *)

From Stdlib Require Import ZArith QArith Qminmax Lia Ascii.
From stdpp Require Import base tactics option list strings gmap pretty.

Local Open Scope Z_scope.

(** ** Values shared by the modules *)

(** The arithmetic of JavaScript numbers that the layout and font code
    relies on, kept abstract: every statement below holds whatever the
    operations compute, IEEE doubles included. [toNumber] is the
    conversion applied by [*] to an array element ([None] is
    [undefined]); [toString] the one applied by [+ "px"]. [isFinite]
    is [Number.isFinite] and [negative n] is [n < 0]: they tell which
    numbers, followed by "px", the style of a DOM element takes for a
    length. *)
Class JSNumber (num : Type) := {
  num_of_Z : Z → num;
  nadd : num → num → num;
  nsub : num → num → num;
  nmul : num → num → num;
  ndiv : num → num → num;
  toNumber : option string → num;
  toString : num → string;
  isFinite : num → bool;
  negative : num → bool;
}.

(** A [File] as the loaders read it: a name, and a path on the desktop. *)
Record File := { name : string; path : option string }.

(** How a call ends: with a value, or with a thrown exception. *)
Inductive completion (A : Type) : Type :=
  | Normal (a : A)
  | Throw (e : string).
Arguments Normal {A} a.
Arguments Throw {A} e.

(** [s.endsWith(suffix)]: some tail of [s] is [suffix]. *)
Fixpoint endsWith (s suffix : string) : bool :=
  if String.eqb s suffix then true
  else match s with
       | EmptyString => false
       | String _ s' => endsWith s' suffix
       end.

(** ** ArraybufferUtils (BinaryUtils module) *)

Module ArraybufferUtils.

(** UTF-16 code units of a literal. *)
Definition codes (s : string) : list Z :=
  (λ a, Z.of_nat (Ascii.nat_of_ascii a)) <$> String.list_ascii_of_string s.

(** Conversion applied by a [Uint8Array] store. *)
Definition ToUint8 (v : Z) : Z := v mod 256.

(** [new Uint8Array(new ArrayBuffer(length))]: zero filled. *)
Definition Uint8Array_new (length : nat) : list Z := replicate length 0.

(** [view[i] = v]. *)
Definition view_set (view : list Z) (i : nat) (v : Z) : list Z :=
  <[i := ToUint8 v]> view.

(** [str.charCodeAt(i)]; [NaN] past the end, which a store turns into 0. *)
Definition charCodeAt (str : list Z) (i : nat) : Z := default 0 (str !! i).

(** [str.charAt(j)]: a one unit string, or the empty string past the end. *)
Definition charAt (str : list Z) (j : nat) : option Z := str !! j.

Fixpoint indexOf_from (s : list Z) (c : Z) (k : Z) : Z :=
  match s with
  | [] => -1
  | e :: s' => if decide (e = c) then k else indexOf_from s' c (k + 1)
  end.

(** [s.indexOf(x)] for [x] the result of a [charAt]: the empty string is
    found at index 0, a character at its first occurrence or at -1. *)
Definition indexOf (s : list Z) (x : option Z) : Z :=
  match x with
  | None => 0
  | Some c => indexOf_from s c 0
  end.

(** The [for] loop of [fromBinaryString]; it runs [length] times, so
    [length] units of fuel are all it needs. *)
Fixpoint fromBinaryString_loop (fuel : nat) (str : list Z) (length i : nat)
    (view : list Z) : list Z :=
  match fuel with
  | O => view
  | S fuel' =>
      if decide (i < length)%nat
      then fromBinaryString_loop fuel' str length (S i)
             (view_set view i (charCodeAt str i))
      else view
  end.

Definition fromBinaryString (str : list Z) : list Z :=
  let length := length str in
  fromBinaryString_loop length str length 0 (Uint8Array_new length).

Definition encoding : list Z :=
  codes "ABCDEFGHIJKLMNOPQRSTUVWXYZabcdefghijklmnopqrstuvwxyz0123456789+/".

(** One turn of the loop body of [fromBase64] at indices [i] and [j]. *)
Definition fromBase64_body (str : list Z) (i j : nat) (view : list Z) : list Z :=
  let a := indexOf encoding (charAt str j) in
  let b := indexOf encoding (charAt str (j + 1)) in
  let c := indexOf encoding (charAt str (j + 2)) in
  let d := indexOf encoding (charAt str (j + 3)) in
  let view := view_set view i (Z.lor (Z.shiftl a 2) (Z.shiftr b 4)) in
  let view :=
    if decide (c ≠ 64)
    then view_set view (i + 1) (Z.lor (Z.shiftl (Z.land b 15) 4) (Z.shiftr c 2))
    else view in
  if decide (d ≠ 64)
  then view_set view (i + 2) (Z.lor (Z.shiftl (Z.land c 3) 6) d)
  else view.

(** The loop of [fromBase64]. [length] is the number [str.length / 4 * 3],
    which need not be whole: [i < length] is [4 * i < 3 * str.length]. *)
Fixpoint fromBase64_loop (fuel : nat) (str : list Z) (i j : nat)
    (view : list Z) : list Z :=
  match fuel with
  | O => view
  | S fuel' =>
      if decide (4 * i < 3 * length str)%nat
      then fromBase64_loop fuel' str (i + 3) (j + 4) (fromBase64_body str i j view)
      else view
  end.

(** [new ArrayBuffer(length)] truncates [length] to a whole number. Every
    turn of the loop moves [i] by 3, so [str.length] turns are enough. *)
Definition fromBase64 (str : list Z) : list Z :=
  let size := (3 * length str / 4)%nat in
  fromBase64_loop (length str) str 0 0 (Uint8Array_new size).

(** The Base64 encoding of RFC 4648 with [=] padding, the reference the
    decoder is compared with. *)
Definition b64char (k : Z) : Z := default 0 (encoding !! Z.to_nat k).

Definition pad : Z := 61.

(** The four sextets a group of three bytes is cut into. *)
Definition sextet0 (x : Z) : Z := Z.shiftr x 2.
Definition sextet1 (x y : Z) : Z := Z.lor (Z.shiftl (Z.land x 3) 4) (Z.shiftr y 4).
Definition sextet2 (y z : Z) : Z := Z.lor (Z.shiftl (Z.land y 15) 2) (Z.shiftr z 6).
Definition sextet3 (z : Z) : Z := Z.land z 63.

Fixpoint base64_encode (bytes : list Z) : list Z :=
  match bytes with
  | [] => []
  | [x] => [b64char (sextet0 x); b64char (sextet1 x 0); pad; pad]
  | [x; y] =>
      [b64char (sextet0 x); b64char (sextet1 x y); b64char (sextet2 y 0); pad]
  | x :: y :: z :: rest =>
      b64char (sextet0 x) :: b64char (sextet1 x y) :: b64char (sextet2 y z)
      :: b64char (sextet3 z) :: base64_encode rest
  end.

Definition is_byte (x : Z) : Prop := 0 <= x < 256.

(** Lists made of whole groups of three bytes: the inputs whose encoding
    carries no padding. *)
Inductive whole_groups : list Z → Prop :=
  | groups_nil : whole_groups []
  | groups_cons x y z rest :
      is_byte x → is_byte y → is_byte z → whole_groups rest →
      whole_groups (x :: y :: z :: rest).

(** The loop of [fromBuffer] over a Node.js [Buffer], read as the list of
    its elements; [buffer[i]] past the end is [undefined], stored as 0.
    [buffer.length] turns are all it takes. *)
Fixpoint fromBuffer_loop (fuel : nat) (buffer : list Z) (i : nat)
    (view : list Z) : list Z :=
  match fuel with
  | O => view
  | S fuel' =>
      if decide (i < length buffer)%nat
      then fromBuffer_loop fuel' buffer (S i) (view_set view i (default 0 (buffer !! i)))
      else view
  end.

Definition fromBuffer (buffer : list Z) : list Z :=
  fromBuffer_loop (length buffer) buffer 0 (Uint8Array_new (length buffer)).

(** What [=] padding turns into: the bytes a group that is one or two
    bytes short is filled up with. *)
Definition padded (tail : list Z) : list Z :=
  match tail with
  | [x] => [x; 255; 255]
  | [x; y] => [x; y; 255]
  | _ => tail
  end.

(** A last group, whole or short. *)
Inductive last_group : list Z → Prop :=
  | last_none : last_group []
  | last_one x : is_byte x → last_group [x]
  | last_two x y : is_byte x → is_byte y → last_group [x; y].

End ArraybufferUtils.

(** ** Font (Resources module) *)

Module Font.

Section FileIsFont.
(** [String.prototype.toLocaleLowerCase] follows the host's locale. *)
Variable toLocaleLowerCase : string → string.

Definition fileIsFont (file : option File) : bool :=
  match file with
  | Some file =>
      let file := toLocaleLowerCase (name file) in
      endsWith file "ttf" || endsWith file "otf" || endsWith file "ttc"
      || endsWith file "otc" || endsWith file "json"
  | None => false
  end.
End FileIsFont.

(** The suffixes [fileIsFont] lists as supported font formats. *)
Definition font_suffixes : list string := ["ttf"; "otf"; "ttc"; "otc"; "json"].

(** A text as JavaScript has it: its UTF-16 code units. A character
    outside the basic plane is two of them. *)
Abbreviation units := (list Z).

Section GenerateShapes.
Context {num : Type} `{JSNumber num}.

(** The glyphs of a font are looked up by the name of a property, a
    string of code units. *)
Record Glyph := { ha : num; o : option string }.
Record BoundingBox := { yMax : num; yMin : num }.
Record FontData := {
  resolution : num;
  boundingBox : BoundingBox;
  glyphs : gmap units Glyph;
}.

(** The calls a [THREE.ShapePath] receives, in order. *)
Inductive PathAction :=
  | moveTo (x y : num)
  | lineTo (x y : num)
  | quadraticCurveTo (aCPx aCPy aX aY : num)
  | bezierCurveTo (aCP1x aCP1y aCP2x aCP2y aX aY : num).

Definition ShapePath := list PathAction.

(** [s.split(sep)] for a one character separator. *)
Fixpoint split_aux (sep : Ascii.ascii) (s cur : string) : list string :=
  match s with
  | EmptyString => [cur]
  | String c s' =>
      if Ascii.eqb c sep then cur :: split_aux sep s' ""
      else split_aux sep s' (cur +:+ String c "")
  end.
Definition split (sep : Ascii.ascii) (s : string) : list string :=
  split_aux sep s "".

(** [String(text).split("")]: the code units, each a string of its
    own; a surrogate pair comes out as two strings. *)
Definition chars_of (text : units) : list units := (λ u, [u]) <$> text.

(** The line break and the question mark, each a string of one unit. *)
Definition newline : units := [10].
Definition question_mark : units := [63].

(** [outline[i] * scale + offset]. *)
Definition coord (outline : list string) (i : nat) (scale offset : num) : num :=
  nadd (nmul (toNumber (outline !! i)) scale) offset.

(** One turn of the [for] loop over the outline, from index [i]: the
    action is read, then its operands. [pts] stays empty throughout
    [createPath], so [laste] is [undefined] and the loops that sample
    the curves [divisions] times never run. *)
Definition outline_step (outline : list string) (scale offsetX offsetY : num)
    (i : nat) (path : ShapePath) : nat * ShapePath :=
  let action := outline !! i in
  let i := S i in
  let '(i, path) :=
    if decide (action = Some "m")
    then (i + 2, path ++ [moveTo (coord outline i scale offsetX)
                                 (coord outline (i + 1) scale offsetY)])%nat
    else (i, path) in
  if decide (action = Some "l")
  then (i + 2, path ++ [lineTo (coord outline i scale offsetX)
                               (coord outline (i + 1) scale offsetY)])%nat
  else if decide (action = Some "q")
  then
    let cpx := coord outline i scale offsetX in
    let cpy := coord outline (i + 1) scale offsetY in
    let cpx1 := coord outline (i + 2) scale offsetX in
    let cpy1 := coord outline (i + 3) scale offsetY in
    (i + 4, path ++ [quadraticCurveTo cpx1 cpy1 cpx cpy])%nat
  else if decide (action = Some "b")
  then
    let cpx := coord outline i scale offsetX in
    let cpy := coord outline (i + 1) scale offsetY in
    let cpx1 := coord outline (i + 2) scale offsetX in
    let cpy1 := coord outline (i + 3) scale offsetY in
    let cpx2 := coord outline (i + 4) scale offsetX in
    let cpy2 := coord outline (i + 5) scale offsetY in
    (i + 6, path ++ [bezierCurveTo cpx1 cpy1 cpx2 cpy2 cpx cpy])%nat
  else (i, path).

(** The loop itself; [i] grows at every turn, so the length of the
    outline is enough fuel. *)
Fixpoint outline_loop (fuel : nat) (outline : list string)
    (scale offsetX offsetY : num) (i : nat) (path : ShapePath) : ShapePath :=
  match fuel with
  | O => path
  | S fuel' =>
      if decide (i < length outline)%nat
      then let '(i, path) := outline_step outline scale offsetX offsetY i path in
           outline_loop fuel' outline scale offsetX offsetY i path
      else path
  end.

(** [data.glyphs[c] || data.glyphs["?"]]. *)
Definition find_glyph (data : FontData) (c : units) : option Glyph :=
  match glyphs data !! c with
  | Some g => Some g
  | None => glyphs data !! question_mark
  end.

(** [createPath]: [None] is the bare [return] taken when the font has
    no glyph for the character; otherwise the width and the path. An
    outline that is absent or the empty string is skipped. The glyph
    keeps the split outline in [_cachedOutline], which changes nothing
    to what is read here. *)
Definition createPath (data : FontData) (c : units)
    (scale offsetX offsetY : num) : option (num * ShapePath) :=
  match find_glyph data c with
  | None => None
  | Some glyph =>
      let path :=
        match o glyph with
        | Some s =>
            if decide (s = "") then []
            else let outline := split (Ascii.ascii_of_nat 32) s in
                 outline_loop (length outline) outline scale offsetX offsetY 0 []
        | None => []
        end in
      Some (nmul (ha glyph) scale, path)
  end.

(** The variables of [createPaths]. *)
Record PathsState := {
  offsetX : num;
  offsetY : num;
  paths : list ShapePath;
}.

Definition scale_of (data : FontData) (size : num) : num :=
  ndiv size (resolution data).

Definition lineHeight_of (data : FontData) (size : num) : num :=
  nmul (nsub (yMax (boundingBox data)) (yMin (boundingBox data)))
       (scale_of data size).

(** The body of the loop of [createPaths] for one character. Reading
    [ret.width] when [createPath] returned nothing throws. *)
Definition createPaths_body (data : FontData) (size : num) (st : PathsState)
    (char : units) : completion PathsState :=
  if decide (char = newline)
  then Normal {| offsetX := num_of_Z 0;
                 offsetY := nsub (offsetY st) (lineHeight_of data size);
                 paths := paths st |}
  else match createPath data char (scale_of data size) (offsetX st) (offsetY st) with
       | None => Throw "TypeError: Cannot read property 'width' of undefined"
       | Some (width, path) =>
           Normal {| offsetX := nadd (offsetX st) width;
                     offsetY := offsetY st;
                     paths := paths st ++ [path] |}
       end.

Fixpoint createPaths_loop (data : FontData) (size : num) (chars : list units)
    (st : PathsState) : completion PathsState :=
  match chars with
  | [] => Normal st
  | char :: chars' =>
      match createPaths_body data size st char with
      | Normal st' => createPaths_loop data size chars' st'
      | Throw e => Throw e
      end
  end.

Definition createPaths_init : PathsState :=
  {| offsetX := num_of_Z 0; offsetY := num_of_Z 0; paths := [] |}.

Definition createPaths (data : FontData) (size : num) (text : units)
    : completion PathsState :=
  createPaths_loop data size (chars_of text) createPaths_init.


(** The commands of an outline with their operands as written, the
    tokens of a command in the outline, and the call that the loop of
    [createPath] makes for it. *)
Inductive Command :=
  | Move (x y : string)
  | Line (x y : string)
  | Quadratic (a b c d : string)
  | Bezier (a b c d e f : string).

Definition tokens (command : Command) : list string :=
  match command with
  | Move x y => ["m"; x; y]
  | Line x y => ["l"; x; y]
  | Quadratic a b c d => ["q"; a; b; c; d]
  | Bezier a b c d e f => ["b"; a; b; c; d; e; f]
  end.

Definition action_of (scale offsetX offsetY : num) (command : Command) : PathAction :=
  let X s := nadd (nmul (toNumber (Some s)) scale) offsetX in
  let Y s := nadd (nmul (toNumber (Some s)) scale) offsetY in
  match command with
  | Move x y => moveTo (X x) (Y y)
  | Line x y => lineTo (X x) (Y y)
  | Quadratic a b c d => quadraticCurveTo (X c) (Y d) (X a) (Y b)
  | Bezier a b c d e f => bezierCurveTo (X c) (Y d) (X e) (Y f) (X a) (Y b)
  end.

Section Shapes.
(** [THREE.ShapePath.prototype.toShapes], from the engine. *)
Variable Shape : Type.
Variable toShapes : ShapePath → list Shape.

(** [size] and [divisions] are [None] when the caller leaves them out. *)
Definition effective_size (size : option num) : num :=
  match size with None => num_of_Z 100 | Some s => s end.
Definition effective_divisions (divisions : option num) : num :=
  match divisions with None => num_of_Z 10 | Some d => d end.

Definition generateShapes (data : FontData) (text : units)
    (size divisions : option num) : completion (list Shape) :=
  let size := effective_size size in
  let divisions := effective_divisions divisions in
  match createPaths data size text with
  | Normal st => Normal (concat (toShapes <$> paths st))
  | Throw e => Throw e
  end.
End Shapes.
End GenerateShapes.

Section ToJSON.
(** What [Resource.prototype.toJSON] hands back, and a font parsed into
    an object. *)
Context {ResourceJSON OpenType : Type}.

(** The [data] of a font: an [ArrayBuffer], a string (as its code
    units) or an object. *)
Inductive Data :=
  | Binary (bytes : list Z)
  | Characters (str : list Z)
  | Parsed (font : OpenType).

Record t := {
  uuid : string;
  encoding : string;
  reversed : bool;
  format : string;
  data : Data;
}.

Record FontJSON := {
  resource : ResourceJSON;
  json_encoding : string;
  json_reversed : bool;
  json_data : Data;
  json_format : string;
}.

(** [Resource.prototype.toJSON] is not among the sources: it is taken
    to build its object from the resource and to leave [meta.fonts]
    alone. *)
Variable Resource_toJSON : t → ResourceJSON.
(** [ArraybufferUtils.fromBase64] applied to what is no string. *)
Variable fromBase64_other : Data → completion (list Z).

(** [toJSON(meta)], on [meta.fonts]. *)
Definition toJSON (font : t) (fonts : gmap string FontJSON)
    : completion FontJSON * gmap string FontJSON :=
  match fonts !! uuid font with
  | Some stored => (Normal stored, fonts)
  | None =>
      let store data format :=
        let json := {| resource := Resource_toJSON font;
                       json_encoding := encoding font;
                       json_reversed := reversed font;
                       json_data := data;
                       json_format := format |} in
        (Normal json, <[uuid font := json]> fonts) in
      if decide (format font = "arraybuffer") then store (data font) (format font)
      else if decide (format font = "base64") then
        match data font with
        | Characters str => store (Binary (ArraybufferUtils.fromBase64 str)) "arraybuffer"
        | other =>
            match fromBase64_other other with
            | Normal bytes => store (Binary bytes) "arraybuffer"
            | Throw e => (Throw e, fonts)
            end
        end
      else store (data font) (format font)
  end.

End ToJSON.

End Font.

(** ** Calls that change an object and may throw *)

(** A method acting on a state [S]: it leaves a new state and either a
    value or an exception. A [try]/[catch] only sees what is thrown
    inside it. *)
Definition M (S A : Type) : Type := S → completion A * S.

Definition ret {S A} (a : A) : M S A := λ s, (Normal a, s).

Definition bind {S A B} (m : M S A) (k : A → M S B) : M S B :=
  λ s, match m s with
       | (Normal a, s') => k a s'
       | (Throw e, s') => (Throw e, s')
       end.

Definition throw {S A} (e : string) : M S A := λ s, (Throw e, s).

Definition modify {S} (f : S → S) : M S unit := λ s, (Normal tt, f s).

(** A call that returns or throws and leaves the state alone. *)
Definition lift {S A} (c : completion A) : M S A := λ s, (c, s).

Definition gets {S A} (f : S → A) : M S A := λ s, (Normal (f s), s).

Definition try_catch {S A} (body : M S A) (handler : string → M S A) : M S A :=
  λ s, match body s with
       | (Normal a, s') => (Normal a, s')
       | (Throw e, s') => handler e s'
       end.

Notation "'do' x <- m ; k" := (bind m (λ x, k))
  (at level 10, x name, m at level 100, k at level 200,
   format "'[v' 'do'  x  <-  m ;  '/' k ']'").
Notation "m ;; k" := (bind m (λ _, k))
  (at level 100, k at level 200, right associativity).

(** [for] over the elements of an array that the body leaves alone. *)
Fixpoint for_each {S A} (l : list A) (body : A → M S unit) : M S unit :=
  match l with
  | [] => ret tt
  | a :: l' => body a ;; for_each l' body
  end.

(** ** Element (GUI module) *)

Module Element.

Definition TOP_LEFT : Z := 0.
Definition TOP_RIGHT : Z := 1.
Definition BOTTOM_LEFT : Z := 2.
Definition BOTTOM_RIGHT : Z := 3.

Section Element.
Context {num : Type} `{JSNumber num}.

Record Vector2 := { x : num; y : num }.

(** What an element reads of its parent. *)
Record Parent := { parent_size : Vector2 }.

(** The fields of an [Element]; [style] is the inline style of its DOM
    element: for each property the text it was last given and took, a
    property missing from the map being unset. An element with a parent
    sits in the parent's DOM element. *)
Record t := {
  style : gmap string string;
  parent : option Parent;
  visible : bool;
  size : Vector2;
  position : Vector2;
  _mode : Z;
}.

Definition with_style (f : gmap string string → gmap string string) (e : t) : t :=
  {| style := f (style e); parent := parent e; visible := visible e;
     size := size e; position := position e; _mode := _mode e |}.

Definition with_parent (p : option Parent) (e : t) : t :=
  {| style := style e; parent := p; visible := visible e;
     size := size e; position := position e; _mode := _mode e |}.

Definition with_visible (v : bool) (e : t) : t :=
  {| style := style e; parent := parent e; visible := v;
     size := size e; position := position e; _mode := _mode e |}.

Definition with_size (v : Vector2) (e : t) : t :=
  {| style := style e; parent := parent e; visible := visible e;
     size := v; position := position e; _mode := _mode e |}.

Definition with_mode (m : Z) (e : t) : t :=
  {| style := style e; parent := parent e; visible := visible e;
     size := size e; position := position e; _mode := m |}.

Definition px (n : num) : string := toString n +:+ "px".

(** [new Element(parent, type)]. *)
Definition new (parent : option Parent) : t :=
  {| style := <["overflow" := "hidden"]> (<["position" := "absolute"]> ∅);
     parent := parent;
     visible := true;
     size := {| x := num_of_Z 0; y := num_of_Z 0 |};
     position := {| x := num_of_Z 0; y := num_of_Z 0 |};
     _mode := TOP_LEFT |}.

(** [element.style[attribute] = value] for a value that the property
    takes, such as the keywords the code writes out. *)
Definition declare (attribute value : string) (e : t) : t :=
  with_style (insert attribute value) e.

(** [element.style[attribute] = n + "px"] for [top], [bottom], [left]
    and [right]: a length of any sign. The style ignores what is no
    length, "NaNpx" and "Infinitypx", and keeps what it had. *)
Definition set_offset (attribute : string) (n : num) (e : t) : t :=
  if isFinite n then declare attribute (px n) e else e.

(** The same for [width] and [height], which take no negative length
    either. *)
Definition set_extent (attribute : string) (n : num) (e : t) : t :=
  if isFinite n && negb (negative n) then declare attribute (px n) e else e.

(** [destroy]: the element leaves the DOM element of its parent. *)
Definition destroy (e : t) : t :=
  match parent e with
  | Some _ => with_parent None e
  | None => e
  end.

(** [setMode]: assigning [null] to a style property unsets it. *)
Definition setMode (mode : Z) (e : t) : t :=
  with_style (λ s, delete "left" (delete "right" (delete "top" (delete "bottom" s))))
    (with_mode mode e).

Definition updateVisibility (e : t) : t :=
  declare "display" (if visible e then "block" else "none") e.

Definition setVisibility (visible : bool) (e : t) : t :=
  updateVisibility (with_visible visible e).

(** [updatePosition(mode)]; [mode] is [None] when left out. *)
Definition updatePosition (mode : option Z) (e : t) : t :=
  let e := match mode with
           | Some mode => with_mode mode e
           | None => e
           end in
  let e :=
    if decide (_mode e = TOP_LEFT ∨ _mode e = TOP_RIGHT)
    then set_offset "top" (y (position e)) e
    else set_offset "bottom" (y (position e)) e in
  if decide (_mode e = TOP_LEFT ∨ _mode e = BOTTOM_LEFT)
  then set_offset "left" (x (position e)) e
  else set_offset "right" (x (position e)) e.

Definition updateSize (e : t) : t :=
  set_extent "height" (y (size e)) (set_extent "width" (x (size e)) e).

(** [updateInterface] of a plain element: the visibility first, then,
    for a visible element only, the size and the position. *)
Definition updateInterface (e : t) : t :=
  let e := updateVisibility e in
  if visible e then updatePosition None (updateSize e) else e.
End Element.

End Element.

(** ** LoadingModal *)

Module LoadingModal.

Section LoadingModal.
Context {num : Type} `{JSNumber num}.

(** A [LoadingModal] is an [Element] with a counter, a timer that
    spins the icon and the manager of its resize listener. The text,
    message and icon children belong to classes outside this
    development and keep to themselves. *)
Record t := {
  element : Element.t (num := num);
  counter : Z;
  timer : bool;
  manager : bool;
}.

Definition with_element (f : Element.t → Element.t) (m : t) : t :=
  {| element := f (element m); counter := counter m;
     timer := timer m; manager := manager m |}.

Definition with_counter (c : Z) (m : t) : t :=
  {| element := element m; counter := c; timer := timer m; manager := manager m |}.

Definition with_timer (b : bool) (m : t) : t :=
  {| element := element m; counter := counter m; timer := b; manager := manager m |}.

Definition with_manager (b : bool) (m : t) : t :=
  {| element := element m; counter := counter m; timer := timer m; manager := b |}.

(** [new LoadingModal(parent)]. *)
Definition new (parent : option Element.Parent) : t :=
  {| element :=
       Element.declare "zIndex" "200"
         (Element.declare "backgroundColor" "rgba(0.0, 0.0, 0.0, 0.3)"
            (Element.new parent));
     counter := 0;
     timer := false;
     manager := false |}.

(** [updateSize]: the size is copied from the parent, which throws when
    there is none, then written to the style. *)
Definition updateSize : M t unit :=
  do p <- gets (λ m, Element.parent (element m));
  match p with
  | None => throw "TypeError: Cannot read property 'size' of null"
  | Some p =>
      modify (with_element (Element.with_size (Element.parent_size p))) ;;
      modify (with_element Element.updateSize)
  end.

(** [updateInterface], inherited, with the modal's own [updateSize]. *)
Definition updateInterface : M t unit :=
  modify (with_element Element.updateVisibility) ;;
  do v <- gets (λ m, Element.visible (element m));
  if (v : bool)
  then updateSize ;; modify (with_element (Element.updatePosition None))
  else ret tt.

Definition show : M t unit :=
  modify (λ m, with_counter (counter m + 1) m) ;;
  do c <- gets counter;
  if decide (c = 1)
  then modify (with_timer true) ;;
       modify (with_manager true) ;;
       modify (with_element (Element.with_visible true)) ;;
       updateInterface
  else ret tt.

(** [hide(force)]; [force] is [None] when left out, and only the
    boolean [true] passes [force === true]. *)
Definition hide (force : option bool) : M t unit :=
  modify (λ m, with_counter (counter m - 1) m) ;;
  do c <- gets counter;
  if decide (c < 1 ∨ force = Some true)
  then modify (with_counter 0) ;;
       modify (with_timer false) ;;
       modify (with_manager false) ;;
       modify (with_element (Element.setVisibility false))
  else ret tt.

Definition destroy : M t unit :=
  modify (with_element Element.destroy) ;;
  modify (with_counter 0) ;;
  modify (with_timer false) ;;
  modify (with_manager false).

(** The modal is on screen: in the document and not hidden. *)
Definition shown (m : t) : bool :=
  bool_decide (is_Some (Element.parent (element m)))
  && Element.visible (element m).

(** The calls a client can make between construction and destruction. *)
Inductive call := CallShow | CallHide (force : option bool).

Definition run_call (c : call) : M t unit :=
  match c with
  | CallShow => show
  | CallHide force => hide force
  end.

(** A sequence of calls, each made whatever became of the one before:
    they come from separate requests. *)
Fixpoint run_calls (calls : list call) (m : t) : t :=
  match calls with
  | [] => m
  | c :: calls' => run_calls calls' (run_call c m).2
  end.

(** The [display] the modal's element was last given. *)
Definition display (m : t) : option string := Element.style (element m) !! "display".
End LoadingModal.

End LoadingModal.

(** ** CodeEditor *)

Module CodeEditor.

(** The values of a JavaScript number, as far as comparing goes. *)
Inductive number := NaN | NegInfinity | Finite (q : Q) | PosInfinity.

(** [a < b]. *)
Definition lt (a b : number) : bool :=
  match a, b with
  | NaN, _ | _, NaN => false
  | _, NegInfinity => false
  | NegInfinity, _ => true
  | PosInfinity, _ => false
  | Finite _, PosInfinity => true
  | Finite p, Finite q => negb (Qle_bool q p)
  end.

(** [Math.max(a, b)], the maximum the font size is compared with. *)
Definition max (a b : number) : number :=
  match a, b with
  | NaN, _ | _, NaN => NaN
  | PosInfinity, _ | _, PosInfinity => PosInfinity
  | NegInfinity, b => b
  | a, NegInfinity => a
  | Finite p, Finite q => Finite (Qmax p q)
  end.



(** [Editor.settings.code.fontSize] and the font size of the wrapper of
    the CodeMirror display. *)
Record t := {
  settings_code_fontSize : number;
  wrapper_style_fontSize : string;
}.

Section SetFontSize.
Variable toString : number → string.




(** Subtraction and division of numbers are left open: what is proved
    of the listener holds whatever they compute. *)
Variable minus : number → number → number.
Variable divide : number → number → number.



End SetFontSize.

End CodeEditor.

(** ** Editor: the resource loaders of Loaders.js *)

Module Editor.

(** The model formats, one per branch of [Editor.loadModel]. *)
Inductive Format :=
  | GCode | OBJ | AWD | AMF | Assimp | AssimpJSON | Babylon | Blend | TDS
  | Collada | Draco | GLTF | PLY | VTK | PRWM | VRML | FBX | X | PCD | SVG
  | STL | JSON.

#[global] Instance Format_eq_dec : EqDecision Format.
Proof. solve_decision. Defined.

Definition all_formats : list Format :=
  [GCode; OBJ; AWD; AMF; Assimp; AssimpJSON; Babylon; Blend; TDS; Collada;
   Draco; GLTF; PLY; VTK; PRWM; VRML; FBX; X; PCD; SVG; STL; JSON].

Inductive ReadMode := AsText | AsArrayBuffer.

(** The parser each branch hands the file's contents to. *)
Definition loader_of (f : Format) : string :=
  match f with
  | GCode => "THREE.GCodeLoader"
  | OBJ => "THREE.OBJLoader"
  | AWD => "THREE.AWDLoader"
  | AMF => "THREE.AMFLoader"
  | Assimp => "THREE.AssimpLoader"
  | AssimpJSON => "THREE.AssimpJSONLoader"
  | Babylon => "THREE.BabylonLoader"
  | Blend => "JSBLEND"
  | TDS => "THREE.TDSLoader"
  | Collada => "THREE.ColladaLoader"
  | Draco => "THREE.DRACOLoader"
  | GLTF => "THREE.GLTFLoader"
  | PLY => "THREE.PLYLoader"
  | VTK => "THREE.VTKLoader"
  | PRWM => "THREE.PRWMLoader"
  | VRML => "THREE.VRMLLoader"
  | FBX => "THREE.FBXLoader"
  | X => "THREE.XLoader"
  | PCD => "THREE.PCDLoader"
  | SVG => "THREE.SVGLoader"
  | STL => "THREE.STLLoader"
  | JSON => "THREE.JSONLoader"
  end.

(** How each branch reads the file. *)
Definition read_mode (f : Format) : ReadMode :=
  match f with
  | GCode | OBJ | AssimpJSON | Babylon | Collada | PLY | VRML | SVG | JSON => AsText
  | AWD | AMF | Assimp | Blend | TDS | Draco | GLTF | VTK | PRWM | FBX | X
  | PCD | STL => AsArrayBuffer
  end.

(** Whether the [onload] handler of the branch wraps its body in a
    [try]; the G-code one alone does not. *)
Definition guarded (f : Format) : bool :=
  match f with
  | GCode => false
  | _ => true
  end.

(** The branches that run the text of the file through [JSON.parse]
    and hand the parser what comes out. *)
Definition parses_json (f : Format) : bool :=
  match f with
  | AssimpJSON | Babylon | JSON => true
  | _ => false
  end.

(** The branches whose parser does not return its result but is handed
    a function to call with it: [JSBLEND] through the promise it
    returns, the Draco, glTF and X parsers as an argument. *)
Definition deferred (f : Format) : bool :=
  match f with
  | Blend | Draco | GLTF | X => true
  | _ => false
  end.

(** The [if]/[else if] chain of [loadModel], in the order of the source:
    [name.endsWith(".assimp.json")] comes after the test for "assimp". *)
Definition dispatch (name extension : string) : option Format :=
  if decide (extension = "gcode") then Some GCode
  else if decide (extension = "obj") then Some OBJ
  else if decide (extension = "awd") then Some AWD
  else if decide (extension = "amf") then Some AMF
  else if decide (extension = "assimp") then Some Assimp
  else if endsWith name ".assimp.json" then Some AssimpJSON
  else if decide (extension = "babylon") then Some Babylon
  else if decide (extension = "blend") then Some Blend
  else if decide (extension = "3ds") then Some TDS
  else if decide (extension = "dae") then Some Collada
  else if decide (extension = "drc") then Some Draco
  else if decide (extension = "gltf" ∨ extension = "glb") then Some GLTF
  else if decide (extension = "ply") then Some PLY
  else if decide (extension = "vtk" ∨ extension = "vtp") then Some VTK
  else if decide (extension = "prwm") then Some PRWM
  else if decide (extension = "wrl" ∨ extension = "vrml") then Some VRML
  else if decide (extension = "fbx") then Some FBX
  else if decide (extension = "x") then Some X
  else if decide (extension = "pcd") then Some PCD
  else if decide (extension = "svg") then Some SVG
  else if decide (extension = "stl") then Some STL
  else if decide (extension = "json") then Some JSON
  else None.

(** The extensions each format goes by, as the documentation of the
    loader lists them. *)
Definition extensions (f : Format) : list string :=
  match f with
  | GCode => ["gcode"]
  | OBJ => ["obj"]
  | AWD => ["awd"]
  | AMF => ["amf"]
  | Assimp => ["assimp"]
  | AssimpJSON => ["assimp.json"]
  | Babylon => ["babylon"]
  | Blend => ["blend"]
  | TDS => ["3ds"]
  | Collada => ["dae"]
  | Draco => ["drc"]
  | GLTF => ["gltf"; "glb"]
  | PLY => ["ply"]
  | VTK => ["vtk"; "vtp"]
  | PRWM => ["prwm"]
  | VRML => ["wrl"; "vrml"]
  | FBX => ["fbx"]
  | X => ["x"]
  | PCD => ["pcd"]
  | SVG => ["svg"]
  | STL => ["stl"]
  | JSON => ["json"]
  end.

(** The supported formats, by extension. *)
Definition supported : list string :=
  ["gcode"; "obj"; "awd"; "amf"; "assimp"; "assimp.json"; "babylon"; "blend";
   "3ds"; "dae"; "drc"; "gltf"; "glb"; "ply"; "vtk"; "vtp"; "prwm"; "wrl";
   "vrml"; "fbx"; "x"; "pcd"; "svg"; "stl"; "json"].

(** A file is of a format when its extension is one of the format's. The
    double extension of Assimp JSON is read off the name, which has to
    end with ".assimp.json". *)
Definition has_format (name extension : string) (f : Format) : Prop :=
  match f with
  | AssimpJSON => ∃ pre, name = pre +:+ ".assimp.json"
  | _ => extension ∈ extensions f
  end.

(** The resources the loaders create, and the list of the program each
    is filed under. *)
Inductive ResourceKind :=
  | CompressedTexture | Image | Texture | Video | VideoTexture | Audio
  | Font | TextFile.

Definition category_of (k : ResourceKind) : string :=
  match k with
  | CompressedTexture | Texture | VideoTexture => "textures"
  | Image => "images"
  | Video => "videos"
  | Audio => "audio"
  | Font => "fonts"
  | TextFile => "resources"
  end.

(** Resources and scene objects are told apart by identity. *)
Inductive Action :=
  | AddResourceAction (resource : nat) (category : string)
  | AddAction (object : nat) (parent : option nat).

(** A callback handed in by the caller: all that matters here is
    whether it returns or throws. *)
Definition Callback := completion unit.

(** The functions the loaders leave behind for later: the [onload]
    handler of a [FileReader], with the variables it closes over, and
    the function handed to a parser that answers later, with the result
    it is called with when it is called. *)
Inductive Task :=
  | TextureOnload (name extension : string) (onLoad : option Callback)
  | VideoTextureOnload (name extension : string) (onLoad : option Callback)
  | AudioOnload (name : string) (onLoad : option Callback)
  | FontOnload (name extension : string) (onLoad : option Callback)
  | TextOnload (name : string)
  | ModelOnload (format : Format) (parent : option nat) (materials : option nat)
  | ModelCallback (format : Format) (parent : option nat) (root : nat)
      (children : list nat).

Inductive Event :=
  | CreateResource (id : nat) (kind : ResourceKind)
  | SetName (id : nat) (name : string)
  | Parse (loader : string)
  | AddActionEv (a : Action)
  | Alert (message : string)
  | Console (level message : string)
  | OnLoad (arg : option nat)
  | ReadAs (mode : ReadMode) (task : Task)
  | Awaits (task : Task).

(** What a parser does with the contents it is given: its call throws,
    or it has a result to hand back, which the parsers of the deferred
    branches hand to their callback if they ever call it. [root] is the
    object the branch builds from the result (scene, group, mesh or
    container); [children] are [scene.children] for VRML and
    [object.FrameInfo] for X. *)
Inductive Outcome :=
  | Fails (e : string)
  | Delivers (root : nat) (children : list nat).

(** The strings of [Locale] the loaders show. *)
Record Locale := {
  errorLoadingFile : string;
  unknownFileFormat : string;
}.

Section Editor.
Context {num : Type} `{JSNumber num}.

(** [FileSystem], [Nunu], [Locale] and [DocumentBody] are defined
    outside this development; the loaders are read against any. *)
Record Env := {
  getFileExtension : string → string;
  getFileName : string → string;
  getFileNameWithExtension : string → string;
  runningOnDesktop : bool;
  getNameWithoutExtension : option string → completion string;
  fileExists : string → completion bool;
  model_readFile : string → completion string;
  MTLLoader_parse : string → completion nat;
  locale : Locale;
  DocumentBody : Element.Parent (num := num);
}.

(** The editor as the loaders change it: the loading modal of the
    running [loadModel], the next unused identity, and what happened,
    oldest first. *)
Record World := {
  modal : option (LoadingModal.t (num := num));
  next : nat;
  events : list Event;
}.

Definition initial : World := {| modal := None; next := 0; events := [] |}.

Definition emit (ev : Event) : M World unit :=
  modify (λ w, {| modal := modal w; next := next w; events := events w ++ [ev] |}).

Definition fresh : M World nat :=
  λ w, (Normal (next w),
        {| modal := modal w; next := S (next w); events := events w |}).

Definition set_modal (m : LoadingModal.t) : M World unit :=
  modify (λ w, {| modal := Some m; next := next w; events := events w |}).

(** A method of the modal, called on the one [loadModel] made. *)
Definition on_modal {A} (m : M LoadingModal.t A) : M World A :=
  λ w, match modal w with
       | Some md =>
           let '(r, md') := m md in
           (r, {| modal := Some md'; next := next w; events := events w |})
       | None => (Throw "ReferenceError: modal is not defined", w)
       end.

Definition new_resource (kind : ResourceKind) : M World nat :=
  do id <- fresh;
  emit (CreateResource id kind) ;;
  ret id.

Definition set_name (id : nat) (name : string) : M World unit :=
  emit (SetName id name).

Definition addAction (a : Action) : M World unit := emit (AddActionEv a).

(** Modelled from the spec: [Editor.addObject] is not among the sources;
    the spec has the loaders wire their results "into the editable
    scene graph via an undo/redo action system", so adding an object
    submits an action through [Editor.addAction]. *)
Definition addObject (object : nat) (parent : option nat) : M World unit :=
  addAction (AddAction object parent).

Definition alert (message : string) : M World unit := emit (Alert message).

Definition console (level message : string) : M World unit :=
  emit (Console level message).

(** [reader.onload = ...; reader.readAsText(file)] and the like. *)
Definition read (mode : ReadMode) (task : Task) : M World unit :=
  emit (ReadAs mode task).

(** [if(onLoad !== undefined) onLoad(arg)]. *)
Definition call (onLoad : option Callback) (arg : option nat) : M World unit :=
  match onLoad with
  | None => ret tt
  | Some result =>
      emit (OnLoad arg) ;;
      match result with
      | Normal _ => ret tt
      | Throw e => throw e
      end
  end.

(** A call into a parser whose result is only needed to go on. *)
Definition parse (loader : string) (decoded : completion unit) : M World unit :=
  emit (Parse loader) ;;
  match decoded with
  | Normal _ => ret tt
  | Throw e => throw e
  end.

Variable env : Env.

Definition error_message (e : string) : string :=
  errorLoadingFile (locale env) +:+ String (Ascii.ascii_of_nat 10) "(" +:+ e +:+ ")".

(** *** loadTexture *)

Definition compressed (loader name : string) (decoded : completion unit)
    : M World (option nat) :=
  parse loader decoded ;;
  do texture <- new_resource CompressedTexture;
  set_name texture name ;;
  addAction (AddResourceAction texture "textures") ;;
  ret (Some texture).

(** The [onload] handler of [loadTexture]. In the "basis" branch the
    texture arrives through a promise: [onLoad] is called first, with
    the [texture] of the handler still [undefined], and the promise
    settles afterwards whatever [onLoad] did. *)
Definition loadTexture_onload (name extension : string)
    (onLoad : option Callback) (decoded : completion unit) : M World unit :=
  if decide (extension = "basis")
  then
    emit (Parse "THREE.BasisTextureLoader") ;;
    λ w,
      let '(r, w) := call onLoad None w in
      let '(_, w) :=
        match decoded with
        | Normal _ =>
            (do texture <- new_resource CompressedTexture;
             set_name texture name ;;
             addAction (AddResourceAction texture "textures")) w
        | Throw _ =>
            (alert "Error decoding basis texture." ;;
             console "error" "nunuStudio: Error decoding basis texture.") w
        end in
      (r, w)
  else
    do texture <-
      (if decide (extension = "dds") then compressed "THREE.DDSLoader" name decoded
       else if decide (extension = "pvr") then compressed "THREE.PVRLoader" name decoded
       else if decide (extension = "ktx") then compressed "THREE.KTXLoader" name decoded
       else if decide (extension = "tga") then
         parse "THREE.TGALoader" decoded ;;
         do image <- new_resource Image;
         addAction (AddResourceAction image "images") ;;
         do texture <- new_resource Texture;
         set_name texture name ;;
         addAction (AddResourceAction texture "textures") ;;
         ret (Some texture)
       else
         do image <- new_resource Image;
         do texture <- new_resource Texture;
         set_name texture name ;;
         addAction (AddResourceAction image "images") ;;
         addAction (AddResourceAction texture "textures") ;;
         ret (Some texture));
    call onLoad texture.

Definition loadTexture (file : File) (onLoad : option Callback) : M World unit :=
  let name' := getFileName env (name file) in
  let extension := getFileExtension env (name file) in
  read AsArrayBuffer (TextureOnload name' extension onLoad).

(** *** loadVideoTexture *)

Definition loadVideoTexture_onload (name : string) (onLoad : option Callback)
    : M World unit :=
  do video <- new_resource Video;
  set_name video name ;;
  do texture <- new_resource VideoTexture;
  set_name texture name ;;
  addAction (AddResourceAction video "videos") ;;
  addAction (AddResourceAction texture "textures") ;;
  call onLoad (Some texture).

Definition loadVideoTexture (file : File) (onLoad : option Callback) : M World unit :=
  let name' := getFileName env (name file) in
  let extension := getFileExtension env (name file) in
  read AsArrayBuffer (VideoTextureOnload name' extension onLoad).

(** *** loadAudio *)

Definition loadAudio_onload (name : string) (onLoad : option Callback)
    : M World unit :=
  do audio <- new_resource Audio;
  set_name audio name ;;
  call onLoad (Some audio) ;;
  addAction (AddResourceAction audio "audio").

Definition loadAudio (file : File) (onLoad : option Callback) : M World unit :=
  let name' := getFileName env (name file) in
  read AsArrayBuffer (AudioOnload name' onLoad).

(** *** loadFont *)

(** [new Font(...)] parses what it is given: [JSON.parse] for a json
    font, the TTF loader for the others. *)
Definition loadFont_onload (name extension : string) (onLoad : option Callback)
    (decoded : completion unit) : M World unit :=
  do font <-
    (if decide (extension = "json")
     then parse "JSON" decoded ;; new_resource Font
     else parse "THREE.TTFLoader" decoded ;; new_resource Font);
  set_name font name ;;
  call onLoad (Some font) ;;
  addAction (AddResourceAction font "fonts").

Definition loadFont (file : File) (onLoad : option Callback) : M World unit :=
  let name' := getFileName env (name file) in
  let extension := getFileExtension env (name file) in
  if decide (extension = "json")
  then read AsText (FontOnload name' extension onLoad)
  else read AsArrayBuffer (FontOnload name' extension onLoad).

(** *** loadText *)

Definition loadText_onload (name : string) : M World unit :=
  do resource <- new_resource TextFile;
  set_name resource name ;;
  addAction (AddResourceAction resource "resources").

Definition loadText (file : File) : M World unit :=
  let name' := getFileNameWithExtension env (name file) in
  read AsText (TextOnload name').

(** *** loadModel *)

(** The objects a branch adds: the children of the VRML scene and the
    frames of an X file one by one, the root everywhere else. *)
Definition added (f : Format) (root : nat) (children : list nat) : list nat :=
  match f with
  | VRML | X => children
  | _ => [root]
  end.

(** What a branch does with the result of its parser: add what came
    out, take the modal down. *)
Definition model_result (f : Format) (parent : option nat) (root : nat)
    (children : list nat) : M World unit :=
  for_each (added f root children) (λ object, addObject object parent) ;;
  on_modal LoadingModal.destroy.

(** What every [onload] handler of [loadModel] does with the contents:
    [JSON.parse] first where the parser wants an object, then the
    parser; its result is dealt with there and then, or by the function
    the parser was handed. *)
Definition model_body (f : Format) (parent : option nat)
    (decoded : completion unit) (outcome : Outcome) : M World unit :=
  (if parses_json f then parse "JSON" decoded else ret tt) ;;
  emit (Parse (loader_of f)) ;;
  match outcome with
  | Fails e => throw e
  | Delivers root children =>
      if deferred f
      then emit (Awaits (ModelCallback f parent root children))
      else model_result f parent root children
  end.

(** The handler: the body, inside [try]/[catch] where the source has
    one. The [catch] alerts and logs, and nothing more. *)
Definition loadModel_onload (f : Format) (parent : option nat)
    (decoded : completion unit) (outcome : Outcome) : M World unit :=
  if guarded f
  then try_catch (model_body f parent decoded outcome)
         (λ e, alert (error_message e) ;;
               console "error" "nunuStudio: Error loading file")
  else model_body f parent decoded outcome.

(** The search for materials that opens the OBJ branch: the file of the
    same name ending in ".mtl", read and parsed if it is there. *)
Definition obj_materials (file : File) : M World (option nat) :=
  if runningOnDesktop env
  then try_catch
         (do base <- lift (getNameWithoutExtension env (path file));
          let mtl := base +:+ ".mtl" in
          do found <- lift (fileExists env mtl);
          if found : bool
          then
            console "log" "nunuStudio: MTL file found." ;;
            do text <- lift (model_readFile env mtl);
            emit (Parse "THREE.MTLLoader") ;;
            do materials <- lift (MTLLoader_parse env text);
            ret (Some materials)
          else ret None)
         (λ f, alert (error_message f) ;;
               console "error" "nunuStudio: Error loading file" ;;
               ret None)
  else ret None.

(** [path], worked out first from [file.path], is only handed on to
    the parsers. *)
Definition loadModel (file : File) (parent : option nat) : M World unit :=
  let name' := name file in
  let extension := getFileExtension env name' in
  set_modal (LoadingModal.new (Some (DocumentBody env))) ;;
  on_modal LoadingModal.show ;;
  try_catch
    (match dispatch name' extension with
     | Some OBJ =>
         do materials <- obj_materials file;
         read (read_mode OBJ) (ModelOnload OBJ parent materials)
     | Some f => read (read_mode f) (ModelOnload f parent None)
     | None =>
         on_modal LoadingModal.destroy ;;
         alert (unknownFileFormat (locale env)) ;;
         console "warn" "nunuStudio: Unknown file format"
     end)
    (λ e, on_modal LoadingModal.destroy ;;
          alert (error_message e) ;;
          console "error" "nunuStudio: Error loading file").

(** *** A load from the call to the end of the handler *)

(** What the outside supplies when the handler runs. *)
Record Input := {
  decoded : completion unit;
  parsed : Outcome;
}.

Definition run_task (t : Task) (i : Input) : M World unit :=
  match t with
  | TextureOnload name extension onLoad =>
      loadTexture_onload name extension onLoad (decoded i)
  | VideoTextureOnload name _ onLoad => loadVideoTexture_onload name onLoad
  | AudioOnload name onLoad => loadAudio_onload name onLoad
  | FontOnload name extension onLoad =>
      loadFont_onload name extension onLoad (decoded i)
  | TextOnload name => loadText_onload name
  | ModelOnload f parent _ => loadModel_onload f parent (decoded i) (parsed i)
  | ModelCallback f parent root children => model_result f parent root children
  end.

(** The handlers waiting on a [FileReader]. *)
Definition tasks (w : World) : list Task :=
  omap (λ ev, match ev with ReadAs _ t => Some t | _ => None end) (events w).

Inductive Request :=
  | ReqTexture (file : File) (onLoad : option Callback)
  | ReqVideoTexture (file : File) (onLoad : option Callback)
  | ReqAudio (file : File) (onLoad : option Callback)
  | ReqFont (file : File) (onLoad : option Callback)
  | ReqText (file : File)
  | ReqModel (file : File) (parent : option nat).

Definition start (r : Request) : M World unit :=
  match r with
  | ReqTexture file onLoad => loadTexture file onLoad
  | ReqVideoTexture file onLoad => loadVideoTexture file onLoad
  | ReqAudio file onLoad => loadAudio file onLoad
  | ReqFont file onLoad => loadFont file onLoad
  | ReqText file => loadText file
  | ReqModel file parent => loadModel file parent
  end.

(** The loader runs to its end; then the reader fires every handler
    that was set (there is never more than one). An exception that
    leaves a handler is nobody's to catch: it ends that handler. *)
Definition load (r : Request) (i : Input) (w : World) : completion unit * World :=
  let '(res, w1) := start r w in
  match res with
  | Throw e => (Throw e, w1)
  | Normal _ => for_each (tasks w1) (λ t, run_task t i) w1
  end.

(** The functions handed to the parsers that answer later. *)
Definition callbacks (w : World) : list Task :=
  omap (λ ev, match ev with Awaits t => Some t | _ => None end) (events w).

(** What comes after the handlers. A parser that was handed a function
    calls it with its result, or it never does: the promise of
    [JSBLEND] is rejected, the decoder fails. Nothing of [loadModel] is
    around the call any more, neither [try] nor handler. *)
Definition settle (answered : bool) (i : Input) (w : World)
    : completion unit * World :=
  if answered then for_each (callbacks w) (λ t, run_task t i) w
  else (Normal tt, w).

(** The parsers that were called. [JSON.parse] and the parser of the
    materials of an OBJ file work for a branch; the others are the
    parsers of the formats. *)
Definition parsers (w : World) : list string :=
  omap (λ ev, match ev with Parse l => Some l | _ => None end) (events w).

Definition format_parsers (w : World) : list string :=
  filter (λ l, l ≠ "JSON" ∧ l ≠ "THREE.MTLLoader") (parsers w).

(** What the search for materials may leave in the log. *)
Definition about_materials (ev : Event) : bool :=
  match ev with
  | Console _ _ | Alert _ => true
  | Parse l => bool_decide (l = "THREE.MTLLoader")
  | _ => false
  end.

(** Every resource created has been handed to [Editor.addAction] in an
    [AddResourceAction], under the list of its kind. *)
Definition registers (w : World) : Prop :=
  ∀ id kind, CreateResource id kind ∈ events w →
    AddActionEv (AddResourceAction id (category_of kind)) ∈ events w.

(** The objects handed to the action system to be added, each with the
    parent it was added to, in order. *)
Definition objects_added (w : World) : list (nat * option nat) :=
  omap (λ ev, match ev with
              | AddActionEv (AddAction o parent) => Some (o, parent)
              | _ => None
              end) (events w).

(** The loaders of resources, as against [loadModel]. *)
Definition loads_resource (r : Request) : bool :=
  match r with
  | ReqModel _ _ => false
  | _ => true
  end.

(** Whether the modal [loadModel] made is on screen. *)
Definition modal_shown (w : World) : option bool := LoadingModal.shown <$> modal w.

Definition callback_of (r : Request) : option Callback :=
  match r with
  | ReqTexture _ onLoad | ReqVideoTexture _ onLoad | ReqAudio _ onLoad
  | ReqFont _ onLoad => onLoad
  | ReqText _ | ReqModel _ _ => None
  end.
End Editor.

(** *** [loadCompressedTexture], the helper of [Editor.loadTexture] *)

Section CompressedTextures.
(** The mipmaps, formats and dimensions handed over by the parsers. *)
Context {Mipmap PixelFormat Dimension : Type}.

Record TextureData := {
  isCubemap : bool;
  data_mipmaps : list Mipmap;
  mipmapCount : nat;
  data_format : PixelFormat;
  data_width : Dimension;
  data_height : Dimension;
}.

(** One face of a cube texture. A mipmap read past the end of
    [data.mipmaps] is [undefined], here [None]; the format and the
    dimensions are stored in the inner loop, so only when it runs. *)
Record Face := {
  face_mipmaps : list (option Mipmap);
  face_format : option PixelFormat;
  face_width : option Dimension;
  face_height : option Dimension;
}.

Inductive TextureImage :=
  | Faces (faces : list Face)
  | Plain (width height : Dimension).

Inductive Filter := LinearFilter.
Inductive Mapping := CubeReflectionMapping.

(** The texture; [None] stands for what the constructor of
    [CompressedTexture] left in a field. *)
Record CompressedTextureObject := {
  isCubeTexture : bool;
  image : TextureImage;
  mipmaps : option (list Mipmap);
  magFilter : option Filter;
  minFilter : option Filter;
  mapping : option Mapping;
  format : PixelFormat;
  needsUpdate : bool;
}.

(** The inner loop, [for(i = 0; i < data.mipmapCount; i++)], for face
    [f]. *)
Definition face (data : TextureData) (f : nat) : Face :=
  {| face_mipmaps :=
       (λ i, data_mipmaps data !! (f * mipmapCount data + i)%nat)
         <$> seq 0 (mipmapCount data);
     face_format :=
       if decide (0 < mipmapCount data)%nat then Some (data_format data) else None;
     face_width :=
       if decide (0 < mipmapCount data)%nat then Some (data_width data) else None;
     face_height :=
       if decide (0 < mipmapCount data)%nat then Some (data_height data) else None |}.

(** The outer loop, [for(f = 0; f < faces; f++)], where [faces] is the
    quotient [data.mipmaps.length / data.mipmapCount] of two whole
    numbers: [f < faces] holds exactly when
    [f * data.mipmapCount < data.mipmaps.length], also where the
    quotient is no whole number, is [Infinity] or is [NaN]. [image]
    holds the faces before [f], so [texture.image[f] = ...] appends.
    [None]: the loop is still running when the fuel is spent. *)
Fixpoint faces_loop (fuel : nat) (data : TextureData) (f : nat) (image : list Face)
    : option (list Face) :=
  match fuel with
  | O => None
  | S fuel =>
      if decide (f * mipmapCount data < length (data_mipmaps data))%nat
      then faces_loop fuel data (S f) (image ++ [face data f])
      else Some image
  end.

Definition loadCompressedTexture (fuel : nat) (data : TextureData)
    : option CompressedTextureObject :=
  let minFilter' (minFilter : option Filter) :=
    if decide (mipmapCount data = 1)%nat then Some LinearFilter else minFilter in
  if isCubemap data then
    faces ← faces_loop fuel data 0 [];
    Some {| isCubeTexture := true;
            image := Faces faces;
            mipmaps := None;
            magFilter := Some LinearFilter;
            minFilter := minFilter' (Some LinearFilter);
            mapping := Some CubeReflectionMapping;
            format := data_format data;
            needsUpdate := true |}
  else
    Some {| isCubeTexture := false;
            image := Plain (data_width data) (data_height data);
            mipmaps := Some (data_mipmaps data);
            magFilter := None;
            minFilter := minFilter' None;
            mapping := None;
            format := data_format data;
            needsUpdate := true |}.

End CompressedTextures.

(** *** [Editor.loadSpineAnimation] *)

(** The file system and the constructor of [SpineAnimation], each of
    which may throw; [file.path] is [undefined] in the browser. A
    thrown value is known by a label [e], and [thrown_text e] is what
    joining it to a string makes of it: its text, or the exception of
    the conversion, as the [TypeError] for a Symbol or whatever the
    [toString] of a thrown object throws. *)
Record SpineEnv := {
  getFilePath : option string → completion string;
  getFilesDirectory : string → completion (list string);
  readFile : option string → completion string;
  newSpineAnimation : string → string → string → completion unit;
  spine_getFileName : option string → completion string;
  failedLoadSpine : string;
  thrown_text : string → completion string;
}.

(** What [loadSpineAnimation] does to the editor, oldest first. *)
Inductive SpineEvent :=
  | SpineAlert (message : string)
  | SpineWarn (message : string)
  | SpineRead (path : option string)
  | SpineCreate (data atlas path : string)
  | SpineName (name : string)
  | SpineAddObject.

Definition spine_log (ev : SpineEvent) : M (list SpineEvent) unit :=
  modify (λ evs, evs ++ [ev]).

(** The loop looking for the atlas: the first name that ends in
    "atlas". *)
Fixpoint atlas_loop (files : list string) : option string :=
  match files with
  | [] => None
  | f :: files => if endsWith f "atlas" then Some f else atlas_loop files
  end.

(** Modelled from the spec: [Editor.addObject] is not among the sources
    (see [addObject] above); here it only leaves its mark. *)
Definition loadSpineAnimation (env : SpineEnv) (file : File) : M (list SpineEvent) unit :=
  try_catch
    (do p <- lift (getFilePath env (path file));
     do files <- lift (getFilesDirectory env p);
     match atlas_loop files with
     | None =>
         spine_log (SpineAlert (failedLoadSpine env)) ;;
         spine_log (SpineWarn "nunuStudio: No atlas file found in the directory.")
     | Some f =>
         let atlasFile := p +:+ f in
         spine_log (SpineRead (path file)) ;;
         do data <- lift (readFile env (path file));
         spine_log (SpineRead (Some atlasFile)) ;;
         do atlas <- lift (readFile env (Some atlasFile));
         lift (newSpineAnimation env data atlas p) ;;
         spine_log (SpineCreate data atlas p) ;;
         do n <- lift (spine_getFileName env (path file));
         spine_log (SpineName n) ;;
         spine_log SpineAddObject
     end)
    (λ e, do text <- lift (thrown_text env e);
          spine_log (SpineAlert (failedLoadSpine env +:+ "(" +:+ text +:+ ")"))).

Definition is_alert (ev : SpineEvent) : bool :=
  match ev with SpineAlert _ => true | _ => false end.

Definition is_addObject (ev : SpineEvent) : bool :=
  match ev with SpineAddObject => true | _ => false end.

(** *** [convertAnimation], the helper of the X branch of [loadModel] *)

Section ConvertAnimation.
(** Keys with their times, and [time > 0]. *)
Context {Key Time Label : Type}.
Variable time : Key → Time.
Variable above_zero : Time → bool.

Record Track := {
  track_name : Label;
  track_parent : Label;
  keys : list Key;
}.

Record Animation := {
  fps : Label;
  animation_name : Label;
  hierarchy : list Track;
  animation_length : option Time;
}.

(** The loop over the keys of one track, from key [m] on. [firstKey] is
    [None] for -1. *)
Fixpoint keys_loop (fuel : nat) (base : list Key) (m : nat) (firstKey : option nat)
    (frame_keys : list Key) (length' : option Time) : list Key * option Time :=
  match fuel with
  | O => (frame_keys, length')
  | S fuel =>
      match base !! m, base !! (m - 1)%nat with
      | Some key, Some before =>
          let '(firstKey, frame_keys) :=
            if above_zero (time key) then
              match firstKey with
              | None => (Some (m - 1)%nat, (frame_keys ++ [before]) ++ [key])
              | Some _ => (firstKey, frame_keys ++ [key])
              end
            else (firstKey, frame_keys) in
          if decide (length base - 1 ≤ m)%nat then (frame_keys, Some (time key))
          else keys_loop fuel base (S m) firstKey frame_keys (Some (time key))
      | _, _ => (frame_keys, length')
      end
  end.

(** What the loop keeps of the keys after [before], as long as no key
    with a time above 0 has been met: the first such key, the key
    before it, and every later key with a time above 0. *)
Fixpoint kept (before : Key) (rest : list Key) : list Key :=
  match rest with
  | [] => []
  | key :: rest =>
      if above_zero (time key)
      then before :: key :: filter (λ k, above_zero (time k) = true) rest
      else kept key rest
  end.

(** The body of the loop over the hierarchy. *)
Definition convert_track (animation : list Track * option Time) (track : Track)
    : list Track * option Time :=
  let '(frame_keys, length') :=
    keys_loop (length (keys track)) (keys track) 1 None [] animation.2 in
  (animation.1 ++ [{| track_name := track_name track;
                      track_parent := track_parent track;
                      keys := frame_keys |}],
   length').

Definition convertAnimation (baseAnime : Animation) (name : Label) : Animation :=
  let '(hierarchy', length') := foldl convert_track ([], None) (hierarchy baseAnime) in
  {| fps := fps baseAnime;
     animation_name := name;
     hierarchy := hierarchy';
     animation_length := length' |}.

End ConvertAnimation.

End Editor.

(** ** LeapMotion (gesture and pose flags) *)

Module LeapMotion.

Definition SWIPE : nat := 0.
Definition SWIPE_LEFT : nat := 1.
Definition SWIPE_RIGHT : nat := 2.
Definition SWIPE_FRONT : nat := 3.
Definition SWIPE_BACK : nat := 4.
Definition SWIPE_UP : nat := 5.
Definition SWIPE_DOWN : nat := 6.
Definition CIRCLE : nat := 7.
Definition SCREEN_TAP : nat := 8.
Definition KEY_TAP : nat := 9.

Definition CLOSED : nat := 0.
Definition OPEN : nat := 1.
Definition POINTING : nat := 2.

(** A JavaScript array of flags; [None] is a hole, read as
    [undefined]. *)
Abbreviation flags := (list (option bool)).

(** [a[i] = v]: a store past the end extends the array, leaving holes. *)
Definition array_set (a : flags) (i : nat) (v : bool) : flags :=
  if decide (i < length a)%nat then <[i := Some v]> a
  else a ++ replicate (i - length a) None ++ [Some v].

(** [a[i]] for a number [i]; [undefined] when [i] is no index of [a]. *)
Definition array_get (a : flags) (i : Z) : option bool :=
  if decide (0 <= i) then a !! Z.to_nat i ≫= id else None.

(** [for(i = 0; i < a.length; i++) a[i] = v]. *)
Definition fill (v : bool) (a : flags) : flags := (λ _, Some v) <$> a.

Section LeapMotion.
Context {num : Type} `{JSNumber num}.

(** [a < b] on numbers; [a > b] is [lt b a]. *)
Variable lt : num → num → bool.
(** The literals [0.3] and [-0.5]. *)
Variables decimal_0_3 decimal_minus_0_5 : num.
(** [THREE.Vector3.distanceTo]. *)
Variable distanceTo : num * num * num → num * num * num → num.

Record Gesture := {
  type : string;
  direction : num * num * num;
}.

Record Finger := {
  finger_direction : num * num * num;
  distal_nextJoint : num * num * num;
}.

Record Hand := {
  sphereCenter : num * num * num;
  fingers : list Finger;
  _scaleFactor : num;
}.

(** A frame of the Leap worker. *)
Record Frame := {
  valid : bool;
  gestures : list Gesture;
  hands : list Hand;
}.

Record t := {
  gesturesEnabled : bool;
  posesEnabled : bool;
  gesture : flags;
  pose : flags;
  data : option Frame;
}.

(** The constructor: ten gesture flags and three pose flags, all
    [false], and no frame yet. *)
Definition new : t :=
  {| gesturesEnabled := true;
     posesEnabled := true;
     gesture := foldl (λ a i, array_set a i false) [] (seq 0 10);
     pose := foldl (λ a i, array_set a i false) [] (seq 0 3);
     data := None |}.

(** The callback of [Leap.loop] set up by [initialize]. *)
Definition receive (frame : Frame) (l : t) : t :=
  {| gesturesEnabled := gesturesEnabled l;
     posesEnabled := posesEnabled l;
     gesture := gesture l;
     pose := pose l;
     data := Some frame |}.

Definition checkGesture (l : t) (g : Z) : bool :=
  default false (array_get (gesture l) g).

Definition checkPose (l : t) (p : Z) : bool :=
  default false (array_get (pose l) p).

Definition above_zero (n : num) : bool := lt (num_of_Z 0) n.

(** The body of the [forEach] of [updateGestures]. *)
Definition gesture_step (a : flags) (g : Gesture) : flags :=
  if decide (type g = "swipe") then
    let a := array_set a SWIPE true in
    let a := if above_zero (direction g).1.1 then array_set a SWIPE_RIGHT true
             else array_set a SWIPE_LEFT true in
    let a := if above_zero (direction g).1.2 then array_set a SWIPE_UP true
             else array_set a SWIPE_DOWN true in
    if above_zero (direction g).2 then array_set a SWIPE_FRONT true
    else array_set a SWIPE_BACK true
  else if decide (type g = "circle") then array_set a CIRCLE true
  else if decide (type g = "keyTap") then array_set a KEY_TAP true
  else if decide (type g = "screenTap") then array_set a SCREEN_TAP true
  else a.

Definition updateGestures (frame : Frame) (a : flags) : flags :=
  let a := fill false a in
  if valid frame && bool_decide (0 < length (gestures frame))%nat
  then foldl gesture_step a (gestures frame)
  else a.

(** [2 * d - 15]. *)
Definition reach (d : num) : num := nsub (nmul (num_of_Z 2) d) (num_of_Z 15).

(** The loop over the fingers of one hand, from finger [i] on.
    [distance] holds the distances of the fingers before [i], so that
    [distance[i]] is the one pushed in this turn. *)
Fixpoint fingers_loop (hand : Hand) (rest : list Finger) (i : nat)
    (distance : list num) (indicatorDistance : num) (pose : flags)
    : list num * num * flags :=
  match rest with
  | [] => (distance, indicatorDistance, pose)
  | finger :: rest =>
      let d := ndiv (distanceTo (sphereCenter hand) (distal_nextJoint finger))
                 (_scaleFactor hand) in
      let distance := distance ++ [d] in
      if decide (i ≠ 0)%nat then
        let pose := if lt (finger_direction finger).2 decimal_0_3
                    then array_set pose CLOSED false else pose in
        let pose := if lt decimal_minus_0_5 (finger_direction finger).2
                    then array_set pose OPEN false else pose in
        if decide (i = 1)%nat then fingers_loop hand rest (S i) distance d pose
        else if lt indicatorDistance (reach d)
        then fingers_loop hand rest (S i) distance indicatorDistance
               (array_set pose POINTING false)
        else fingers_loop hand rest (S i) distance indicatorDistance pose
      else fingers_loop hand rest (S i) distance indicatorDistance pose
  end.

(** The body of the loop over the hands. With no finger [distance[0]] is
    [undefined] and the last comparison, against [NaN], is false. *)
Definition hand_step (pose : flags) (hand : Hand) : flags :=
  let pose := fill true pose in
  let '(distance, indicatorDistance, pose) :=
    fingers_loop hand (fingers hand) 0 [] (num_of_Z 0) pose in
  match distance !! 0%nat with
  | Some d0 =>
      if lt indicatorDistance (reach d0) then array_set pose POINTING false else pose
  | None => pose
  end.

Definition updatePoses (frame : Frame) (pose : flags) : flags :=
  foldl hand_step (fill true pose) (hands frame).

(** [update], as far as the flags go: the debug model it may redraw
    holds none of them. *)
Definition update (l : t) : t :=
  match data l with
  | None => l
  | Some frame =>
      {| gesturesEnabled := gesturesEnabled l;
         posesEnabled := posesEnabled l;
         gesture := if gesturesEnabled l then updateGestures frame (gesture l)
                    else gesture l;
         pose := if posesEnabled l then updatePoses frame (pose l) else pose l;
         data := data l |}
  end.

(** The codes of the flags a gesture raises. *)
Definition raises (g : Gesture) (code : nat) : Prop :=
  (type g = "swipe"
   ∧ (code = SWIPE
      ∨ code = (if above_zero (direction g).1.1 then SWIPE_RIGHT else SWIPE_LEFT)
      ∨ code = (if above_zero (direction g).1.2 then SWIPE_UP else SWIPE_DOWN)
      ∨ code = (if above_zero (direction g).2 then SWIPE_FRONT else SWIPE_BACK)))
  ∨ (type g = "circle" ∧ code = CIRCLE)
  ∨ (type g = "keyTap" ∧ code = KEY_TAP)
  ∨ (type g = "screenTap" ∧ code = SCREEN_TAP).


End LeapMotion.

End LeapMotion.

(** ** TabButton (drag and drop of the tab buttons) *)

Module TabButton.

Definition NONE : Z := 0.
Definition PREVIOUS : Z := 1.
Definition NEXT : Z := 2.

Section TabButton.
Context {num : Type} `{JSNumber num}.

(** [a < b] on numbers; [a > b] is [lt b a]. *)
Variable lt : num → num → bool.
(** The literals [0.8], [0.2], [0.7] and [0.3]. *)
Variables decimal_0_8 decimal_0_2 decimal_0_7 decimal_0_3 : num.
(** [parseInt]; [None] is [NaN]. *)
Variable parseInt : string → option Z.

(** The button: the [dragState] of its handlers, the four borders of
    its style ([None] where unset), the index of its tab, whether the
    container has its buttons at the top or the bottom, and its size. *)
Record t := {
  dragState : Z;
  borderLeft : option string;
  borderRight : option string;
  borderBottom : option string;
  borderTop : option string;
  tab_index : Z;
  horizontal : bool;
  size_x : num;
  size_y : num;
}.

Definition new (index : Z) (horizontal : bool) (x y : num) : t :=
  {| dragState := NONE;
     borderLeft := None; borderRight := None; borderBottom := None; borderTop := None;
     tab_index := index; horizontal := horizontal; size_x := x; size_y := y |}.

Definition with_drag (state : Z) (left right bottom top : option string) (b : t) : t :=
  {| dragState := state;
     borderLeft := left; borderRight := right; borderBottom := bottom; borderTop := top;
     tab_index := tab_index b; horizontal := horizontal b;
     size_x := size_x b; size_y := size_y b |}.

Definition ondragstart (b : t) : t :=
  with_drag NONE (borderLeft b) (borderRight b) (borderBottom b) (borderTop b) b.

(** [index < self.tab.index], false for [NaN]. *)
Definition before (index : option Z) (b : t) : bool :=
  match index with
  | Some i => bool_decide (i < tab_index b)
  | None => false
  end.

(** [ondrop] with the data of the transfer: the button after it, and
    the arguments of the call of [moveTabIndex], if it is called. *)
Definition ondrop (data : string) (b : t) : t * option (option Z * Z) :=
  let b := with_drag (dragState b) None None None None b in
  if decide (data ≠ "") then
    let index := parseInt data in
    if decide (index ≠ Some (tab_index b)) then
      if decide (dragState b = PREVIOUS) then
        (b, Some (index, if before index b then tab_index b - 1 else tab_index b))
      else if decide (dragState b = NEXT) then
        (b, Some (index, if before index b then tab_index b else tab_index b + 1))
      else (b, None)
    else (b, None)
  else (b, None).

(** What [ondragover] reads of its event; [on_button] is
    [event.target === this]. *)
Record DragOver := {
  layerX : num;
  layerY : num;
  on_button : bool;
}.

Definition ondragover (event : DragOver) (b : t) : t :=
  if horizontal b then
    if lt (nmul (size_x b) decimal_0_8) (layerX event) || negb (on_button event) then
      if decide (dragState b ≠ NEXT)
      then with_drag NEXT None (Some "thick solid #999999") (borderBottom b) (borderTop b) b
      else b
    else if lt (layerX event) (nmul (size_x b) decimal_0_2) then
      if decide (dragState b ≠ PREVIOUS)
      then with_drag PREVIOUS (Some "thick solid #999999") None (borderBottom b) (borderTop b) b
      else b
    else
      if decide (dragState b ≠ NONE)
      then with_drag NONE None None (borderBottom b) (borderTop b) b
      else b
  else
    if lt (nmul (size_y b) decimal_0_7) (layerY event) || negb (on_button event) then
      if decide (dragState b ≠ NEXT)
      then with_drag NEXT (borderLeft b) (borderRight b) (Some "solid #999999") None b
      else b
    else if lt (layerY event) (nmul (size_y b) decimal_0_3) then
      if decide (dragState b ≠ PREVIOUS)
      then with_drag PREVIOUS (borderLeft b) (borderRight b) None (Some "solid #999999") b
      else b
    else
      if decide (dragState b ≠ NONE)
      then with_drag NONE (borderLeft b) (borderRight b) None None b
      else b.

Definition ondragend (b : t) : t := with_drag NONE None None None None b.

Definition ondragleave (b : t) : t := with_drag NONE None None None None b.

(** The events of a drag that reach the button. *)
Inductive DragEvent :=
  | Dragover (event : DragOver)
  | Dragleave
  | Dragend
  | Dropped (data : string).

Definition handle (b : t) (event : DragEvent) : t :=
  match event with
  | Dragover event => ondragover event b
  | Dragleave => ondragleave b
  | Dragend => ondragend b
  | Dropped data => (ondrop data b).1
  end.

(** The border that marks the side of the button the tab would be
    dropped on. *)
Definition marker (b : t) : option string :=
  if horizontal b then Some "thick solid #999999" else Some "solid #999999".

(** The borders say what the drag state says. *)
Definition marked (b : t) : Prop :=
  let '(previous, next, other1, other2) :=
    if horizontal b then (borderLeft b, borderRight b, borderTop b, borderBottom b)
    else (borderTop b, borderBottom b, borderLeft b, borderRight b) in
  other1 = None ∧ other2 = None
  ∧ ((dragState b = NONE ∧ previous = None ∧ next = None)
     ∨ (dragState b = PREVIOUS ∧ previous = marker b ∧ next = None)
     ∨ (dragState b = NEXT ∧ previous = None ∧ next = marker b)).

End TabButton.

End TabButton.

(** ** Sample values *)

(** A concrete arithmetic, a font and an environment to run the
    definitions on. *)
Module Sample.

Definition digit (c : Ascii.ascii) : option Z :=
  let n := Ascii.nat_of_ascii c in
  if (48 <=? n)%nat && (n <=? 57)%nat then Some (Z.of_nat (n - 48)) else None.

Fixpoint digits (s : string) (acc : Z) : option Z :=
  match s with
  | EmptyString => Some acc
  | String c s' =>
      match digit c with
      | Some d => digits s' (10 * acc + d)
      | None => None
      end
  end.

Definition parse_int (s : string) : option Z :=
  match s with
  | String "-"%char s' => Z.opp <$> digits s' 0
  | _ => digits s 0
  end.

(** Exact fractions; having no [NaN], what is not a whole number in
    decimal digits counts as 0. *)
#[global] Instance Qnumber : JSNumber Q := {|
  num_of_Z := inject_Z;
  nadd := Qplus;
  nsub := Qminus;
  nmul := Qmult;
  ndiv := Qdiv;
  toNumber o := inject_Z (default 0 (o ≫= parse_int));
  toString q :=
    if decide (Qden q = 1%positive) then pretty (Qnum q)
    else pretty (Qnum q) +:+ "/" +:+ pretty (Zpos (Qden q));
  isFinite _ := true;
  negative q := negb (Qle_bool 0 q);
|}.

(** Fractions and [NaN], written [None]: what a sum or a product makes
    of a [NaN] is a [NaN], as is a quotient by 0 and the number of a
    string that is none. *)
#[global] Instance Qnan : JSNumber (option Q) := {|
  num_of_Z z := Some (inject_Z z);
  nadd a b := match a, b with Some p, Some q => Some (p + q)%Q | _, _ => None end;
  nsub a b := match a, b with Some p, Some q => Some (p - q)%Q | _, _ => None end;
  nmul a b := match a, b with Some p, Some q => Some (p * q)%Q | _, _ => None end;
  ndiv a b :=
    match a, b with
    | Some p, Some q => if Qeq_bool q 0 then None else Some (p / q)%Q
    | _, _ => None
    end;
  toNumber o := inject_Z <$> (o ≫= parse_int);
  toString n :=
    match n with
    | Some q => toString q
    | None => "NaN"
    end;
  isFinite n := bool_decide (is_Some n);
  negative n := match n with Some q => negb (Qle_bool 0 q) | None => false end;
|}.

(** An element in the top left corner whose horizontal position is
    [NaN], the vertical one 10. *)
Definition lost : Element.t (num := option Q) :=
  {| Element.style := ∅;
     Element.parent := None;
     Element.visible := true;
     Element.size := {| Element.x := Some (inject_Z 0); Element.y := Some (inject_Z 0) |};
     Element.position := {| Element.x := None; Element.y := Some (inject_Z 10) |};
     Element._mode := Element.TOP_LEFT |}.

(** A font that only knows the letter a, a triangle 600 units wide. *)
Definition font_a : Font.FontData (num := Q) :=
  {| Font.resolution := inject_Z 1000;
     Font.boundingBox := {| Font.yMax := inject_Z 900; Font.yMin := inject_Z (-100) |};
     Font.glyphs :=
       {[ [97] := {| Font.ha := inject_Z 600;
                     Font.o := Some "m 0 0 l 500 0 l 250 700 l 0 0" |} ]} |}.

Definition lower_ascii (c : Ascii.ascii) : Ascii.ascii :=
  let n := Ascii.nat_of_ascii c in
  if (65 <=? n)%nat && (n <=? 90)%nat then Ascii.ascii_of_nat (n + 32) else c.

Fixpoint lower (s : string) : string :=
  match s with
  | EmptyString => EmptyString
  | String c s' => String (lower_ascii c) (lower s')
  end.

(** What follows the last dot of a name, if it has a dot. *)
Fixpoint after_last_dot (s : string) : option string :=
  match s with
  | EmptyString => None
  | String c s' =>
      match after_last_dot s' with
      | Some e => Some e
      | None => if Ascii.eqb c "."%char then Some s' else None
      end
  end.

Definition extension (name : string) : string :=
  lower (default name (after_last_dot name)).

(** What comes before the last dot of a name. *)
Fixpoint before_last_dot (s : string) : option string :=
  match s with
  | EmptyString => None
  | String c s' =>
      match before_last_dot s' with
      | Some b => Some (String c b)
      | None => if Ascii.eqb c "."%char then Some "" else None
      end
  end.

(** An editor in the browser: no file system to look for materials in. *)
Definition browser : Editor.Env (num := Q) :=
  {| Editor.getFileExtension := extension;
     Editor.getFileName := id;
     Editor.getFileNameWithExtension := id;
     Editor.runningOnDesktop := false;
     Editor.getNameWithoutExtension := λ _, Throw "TypeError: path is undefined";
     Editor.fileExists := λ _, Normal false;
     Editor.model_readFile := λ _, Throw "ENOENT";
     Editor.MTLLoader_parse := λ _, Normal 0%nat;
     Editor.locale :=
       {| Editor.errorLoadingFile := "Error loading file";
          Editor.unknownFileFormat := "Unknown file format" |};
     Editor.DocumentBody :=
       {| Element.parent_size :=
            {| Element.x := inject_Z 1280; Element.y := inject_Z 720 |} |} |}.

Definition body : Element.Parent (num := Q) := Editor.DocumentBody browser.

(** An editor on the desktop, in a folder where the file of the
    materials is there but cannot be read. *)
Definition desktop : Editor.Env (num := Q) :=
  {| Editor.getFileExtension := extension;
     Editor.getFileName := id;
     Editor.getFileNameWithExtension := id;
     Editor.runningOnDesktop := true;
     Editor.getNameWithoutExtension :=
       λ p, match p with
            | Some p => Normal (default p (before_last_dot p))
            | None => Throw "TypeError: path is undefined"
            end;
     Editor.fileExists := λ _, Normal true;
     Editor.model_readFile := λ _, Throw "EACCES";
     Editor.MTLLoader_parse := λ _, Normal 0%nat;
     Editor.locale := Editor.locale browser;
     Editor.DocumentBody := Editor.DocumentBody browser |}.

(** [a < b] on fractions. *)
Definition less (a b : Q) : bool := negb (Qle_bool b a).

(** A stand-in for [distanceTo] that needs no square root: the square
    of the distance. *)
Definition square_distance (p q : Q * Q * Q) : Q :=
  (p.1.1 - q.1.1) * (p.1.1 - q.1.1) + (p.1.2 - q.1.2) * (p.1.2 - q.1.2)
  + (p.2 - q.2) * (p.2 - q.2).

(** A frame with a swipe to the right and up, and one hand, its index
    stretched out along -z, the other fingers bent. *)
Definition swipe : LeapMotion.Gesture (num := Q) :=
  {| LeapMotion.type := "swipe"; LeapMotion.direction := (inject_Z 1, 1 # 2, -1 # 4) |}.

Definition finger (z : Q) (tip : Z * Z * Z) : LeapMotion.Finger (num := Q) :=
  {| LeapMotion.finger_direction := (inject_Z 0, inject_Z 0, z);
     LeapMotion.distal_nextJoint :=
       (inject_Z tip.1.1, inject_Z tip.1.2, inject_Z tip.2) |}.

Definition pointing_hand : LeapMotion.Hand (num := Q) :=
  {| LeapMotion.sphereCenter := (inject_Z 0, inject_Z 0, inject_Z 0);
     LeapMotion.fingers :=
       [finger (1 # 2) (30, 0, 0); finger (inject_Z (-1)) (0, 0, -90);
        finger (1 # 2) (0, 0, 30); finger (1 # 2) (0, 0, 30)];
     LeapMotion._scaleFactor := inject_Z 1 |}.

Definition frame : LeapMotion.Frame (num := Q) :=
  {| LeapMotion.valid := true;
     LeapMotion.gestures := [swipe];
     LeapMotion.hands := [pointing_hand] |}.

Definition empty_frame : LeapMotion.Frame (num := Q) :=
  {| LeapMotion.valid := true; LeapMotion.gestures := []; LeapMotion.hands := [] |}.

(** A cube map of six faces with two mipmaps each, numbered. *)
Definition cube : Editor.TextureData (Mipmap := nat) (PixelFormat := string) (Dimension := nat) :=
  {| Editor.isCubemap := true;
     Editor.data_mipmaps := seq 0 12;
     Editor.mipmapCount := 2;
     Editor.data_format := "RGBA";
     Editor.data_width := 64%nat;
     Editor.data_height := 64%nat |}.

(** The same with a mipmap count of 0. *)
Definition cube_without_count
    : Editor.TextureData (Mipmap := nat) (PixelFormat := string) (Dimension := nat) :=
  {| Editor.isCubemap := true;
     Editor.data_mipmaps := seq 0 12;
     Editor.mipmapCount := 0;
     Editor.data_format := "RGBA";
     Editor.data_width := 64%nat;
     Editor.data_height := 64%nat |}.

(** A folder with a skeleton and two atlases. *)
Definition spine_folder : Editor.SpineEnv :=
  {| Editor.getFilePath := λ p, match p with
                                | Some _ => Normal "/spine/"
                                | None => Throw "TypeError"
                                end;
     Editor.getFilesDirectory := λ _, Normal ["boy.json"; "boy.atlas"; "old.atlas"];
     Editor.readFile := λ p, Normal (default "" p);
     Editor.newSpineAnimation := λ _ _ _, Normal tt;
     Editor.spine_getFileName := λ _, Normal "boy";
     Editor.failedLoadSpine := "Failed to load spine animation";
     Editor.thrown_text := Normal |}.

(** An animation of two tracks, the keys given by their times. *)
Definition walk : Editor.Animation (Key := Z) (Time := Z) (Label := string) :=
  {| Editor.fps := "30";
     Editor.animation_name := "";
     Editor.hierarchy :=
       [ {| Editor.track_name := "hip"; Editor.track_parent := "";
            Editor.keys := [0; 1; 2] |};
         {| Editor.track_name := "knee"; Editor.track_parent := "hip";
            Editor.keys := [0] |} ];
     Editor.animation_length := None |}.

(** A font kept as a Base64 string. *)
Definition base64_font : Font.t (OpenType := unit) :=
  {| Font.uuid := "F1";
     Font.encoding := "ttf";
     Font.reversed := false;
     Font.format := "base64";
     Font.data := Font.Characters (ArraybufferUtils.base64_encode [77; 97; 110; 65]) |}.

End Sample.

(** * Properties *)

(** ** ArraybufferUtils *)

Section ArraybufferUtilsFacts.
Import ArraybufferUtils.

Lemma fromBinaryString_loop_spec fuel str i view :
  length view = length str →
  (i + fuel)%nat = length str →
  fromBinaryString_loop fuel str (length str) i view
  = take i view ++ (ToUint8 <$> drop i str).
Proof.
  revert i view. induction fuel as [|fuel IH]; intros i view Hlen Hi; simpl.
  - rewrite Nat.add_0_r in Hi. subst i.
    rewrite drop_all, <- Hlen, firstn_all. by rewrite app_nil_r.
  - destruct (decide (i < length str)%nat) as [Hlt|]; [|lia].
    destruct (lookup_lt_is_Some_2 str i Hlt) as [c Hc].
    rewrite IH; [|unfold view_set; rewrite length_insert; lia|lia].
    unfold view_set, charCodeAt. rewrite Hc. simpl.
    rewrite (take_S_r _ i (ToUint8 c))
      by (apply list_lookup_insert_eq; lia).
    rewrite take_insert_ge by lia.
    rewrite (drop_S str c i Hc), fmap_cons.
    by rewrite <- app_assoc.
Qed.

Lemma fromBinaryString_fmap str : fromBinaryString str = ToUint8 <$> str.
Proof.
  unfold fromBinaryString.
  rewrite fromBinaryString_loop_spec;
    [done | unfold Uint8Array_new; by rewrite length_replicate | lia].
Qed.

(** C7. For every string, [fromBinaryString] returns a buffer as long as
    the string whose i-th byte is the code of the i-th character modulo
    256 (and which has no byte where the string has no character). *)
Theorem fromBinaryString_bytes (str : list Z) :
  length (fromBinaryString str) = length str
  ∧ ∀ i : nat, fromBinaryString str !! i = (λ c, c mod 256) <$> str !! i.
Proof.
  rewrite fromBinaryString_fmap. split.
  - apply length_fmap.
  - intros i. apply list_lookup_fmap.
Qed.

(** *** Bits of a group of three bytes *)

Lemma lor_shiftl_low hi lo k :
  0 <= k → 0 <= lo < 2 ^ k → Z.lor (Z.shiftl hi k) lo = hi * 2 ^ k + lo.
Proof.
  intros Hk Hlo. rewrite Z.shiftl_mul_pow2 by done.
  symmetry. apply Z.add_nocarry_lor.
  apply Z.bits_inj'. intros n Hn.
  rewrite Z.land_spec, Z.bits_0.
  destruct (decide (n < k)) as [Hlt|Hge].
  - by rewrite Z.mul_pow2_bits_low by lia.
  - destruct (decide (lo = 0)) as [->|Hne].
    + by rewrite Z.bits_0, andb_false_r.
    + rewrite (Z.bits_above_log2 lo n); [by rewrite andb_false_r|lia|].
      apply Z.log2_lt_pow2; [lia|].
      apply Z.lt_le_trans with (2 ^ k); [lia|].
      apply Z.pow_le_mono_r; lia.
Qed.

Ltac to_div_mod :=
  repeat match goal with
  | |- context [Z.land ?a 3] =>
      change (Z.land a 3) with (Z.land a (Z.ones 2)); rewrite (Z.land_ones a 2) by lia
  | |- context [Z.land ?a 15] =>
      change (Z.land a 15) with (Z.land a (Z.ones 4)); rewrite (Z.land_ones a 4) by lia
  | |- context [Z.land ?a 63] =>
      change (Z.land a 63) with (Z.land a (Z.ones 6)); rewrite (Z.land_ones a 6) by lia
  | |- context [Z.shiftr ?a ?k] => rewrite (Z.shiftr_div_pow2 a k) by lia
  end;
  change (2 ^ 2) with 4; change (2 ^ 4) with 16; change (2 ^ 6) with 64.

Ltac div_mod_lia := Z.div_mod_to_equations; lia.

Lemma sextet1_eq x y :
  is_byte x → is_byte y → sextet1 x y = x mod 4 * 16 + y / 16.
Proof.
  intros Hx Hy. unfold sextet1, is_byte in *.
  rewrite lor_shiftl_low; to_div_mod; [done|lia|div_mod_lia].
Qed.

Lemma sextet2_eq y z :
  is_byte y → is_byte z → sextet2 y z = y mod 16 * 4 + z / 64.
Proof.
  intros Hy Hz. unfold sextet2, is_byte in *.
  rewrite lor_shiftl_low; to_div_mod; [done|lia|div_mod_lia].
Qed.

Lemma sextet_ranges x y z :
  is_byte x → is_byte y → is_byte z →
  0 <= sextet0 x < 64 ∧ 0 <= sextet1 x y < 64
  ∧ 0 <= sextet2 y z < 64 ∧ 0 <= sextet3 z < 64.
Proof.
  intros Hx Hy Hz. rewrite sextet1_eq, sextet2_eq by done.
  unfold sextet0, sextet3, is_byte in *. to_div_mod. div_mod_lia.
Qed.

Lemma decode_first x y :
  is_byte x → is_byte y →
  ToUint8 (Z.lor (Z.shiftl (sextet0 x) 2) (Z.shiftr (sextet1 x y) 4)) = x.
Proof.
  intros Hx Hy. rewrite sextet1_eq by done.
  unfold ToUint8, sextet0, is_byte in *. to_div_mod.
  rewrite lor_shiftl_low; [div_mod_lia|lia|div_mod_lia].
Qed.

Lemma decode_second x y z :
  is_byte x → is_byte y → is_byte z →
  ToUint8 (Z.lor (Z.shiftl (Z.land (sextet1 x y) 15) 4) (Z.shiftr (sextet2 y z) 2)) = y.
Proof.
  intros Hx Hy Hz. rewrite sextet1_eq, sextet2_eq by done.
  unfold ToUint8, is_byte in *. to_div_mod.
  rewrite lor_shiftl_low; [div_mod_lia|lia|div_mod_lia].
Qed.

Lemma decode_third y z :
  is_byte y → is_byte z →
  ToUint8 (Z.lor (Z.shiftl (Z.land (sextet2 y z) 3) 6) (sextet3 z)) = z.
Proof.
  intros Hy Hz. rewrite sextet2_eq by done.
  unfold ToUint8, sextet3, is_byte in *. to_div_mod.
  rewrite lor_shiftl_low; [div_mod_lia|lia|div_mod_lia].
Qed.

(** The alphabet has no repeated character: a sextet is found again at
    its own index. *)
Lemma indexOf_b64char k :
  0 <= k < 64 → indexOf encoding (Some (b64char k)) = k.
Proof.
  intros Hk. rewrite <- (Z2Nat.id k) at 2 by lia.
  assert (Hn : (Z.to_nat k < 64)%nat) by lia.
  unfold b64char. generalize dependent (Z.to_nat k). clear k Hk.
  intros n Hn.
  do 64 (destruct n as [|n]; [reflexivity|]). lia.
Qed.

Lemma lookup_app_plus (pre l : list Z) (t : nat) :
  (pre ++ l) !! (length pre + t)%nat = l !! t.
Proof. induction pre as [|? pre IH]; [done | apply IH]. Qed.

Lemma lookup_app_zero (pre l : list Z) : (pre ++ l) !! length pre = l !! 0%nat.
Proof. rewrite <- (lookup_app_plus pre l 0). by rewrite Nat.add_0_r. Qed.

Lemma take_three_inserts (view : list Z) (i : nat) a b c :
  (i + 3 ≤ length view)%nat →
  take (i + 3) (<[(i + 2)%nat := c]> (<[(i + 1)%nat := b]> (<[i := a]> view)))
  = take i view ++ [a; b; c].
Proof.
  revert view. induction i as [|i IH]; intros view Hlen.
  - destruct view as [|? [|? [|? ?]]]; simpl in *; [lia..|done].
  - destruct view as [|v view]; simpl in *; [lia|].
    f_equal. apply IH. lia.
Qed.

Lemma base64_encode_length bytes :
  whole_groups bytes → (3 * length (base64_encode bytes) = 4 * length bytes)%nat.
Proof. induction 1; simpl in *; lia. Qed.

(** One turn of the loop on a whole group writes the group back. *)
Lemma fromBase64_body_group pre x y z tail (i : nat) view :
  is_byte x → is_byte y → is_byte z →
  fromBase64_body
    (pre ++ b64char (sextet0 x) :: b64char (sextet1 x y)
         :: b64char (sextet2 y z) :: b64char (sextet3 z) :: tail)
    i (length pre) view
  = <[(i + 2)%nat := z]> (<[(i + 1)%nat := y]> (<[i := x]> view)).
Proof.
  intros Hx Hy Hz.
  destruct (sextet_ranges x y z Hx Hy Hz) as (H0 & H1 & H2 & H3).
  unfold fromBase64_body, charAt.
  rewrite (lookup_app_zero pre), !lookup_app_plus.
  cbn [lookup list_lookup].
  rewrite !indexOf_b64char by done.
  destruct (decide (sextet2 y z ≠ 64)); [|lia].
  destruct (decide (sextet3 z ≠ 64)); [|lia].
  unfold view_set.
  by rewrite decode_first, decode_second, decode_third.
Qed.

Lemma fromBase64_loop_groups rest :
  whole_groups rest →
  ∀ fuel pre done view,
    (length rest ≤ 3 * fuel)%nat →
    (4 * length done = 3 * length pre)%nat →
    length view = (length done + length rest)%nat →
    take (length done) view = done →
    fromBase64_loop fuel (pre ++ base64_encode rest) (length done) (length pre) view
    = done ++ rest.
Proof.
  induction 1 as [|x y z rest Hx Hy Hz Hrest IH];
    intros fuel pre done view Hfuel Hij Hlen Htake.
  - cbn [base64_encode]. rewrite !app_nil_r.
    simpl in Hlen. rewrite Nat.add_0_r in Hlen.
    rewrite <- Hlen, firstn_all in Htake. subst view.
    destruct fuel; cbn [fromBase64_loop]; [done|].
    destruct (decide _) as [Hlt|]; [lia|done].
  - destruct fuel as [|fuel]; [simpl in Hfuel; lia|].
    pose proof (base64_encode_length _ Hrest) as Henc.
    cbn [fromBase64_loop base64_encode].
    destruct (decide _) as [_|Hge];
      [|rewrite length_app in Hge; simpl in Hge; lia].
    rewrite fromBase64_body_group by done.
    replace (pre ++ b64char (sextet0 x) :: b64char (sextet1 x y)
                 :: b64char (sextet2 y z) :: b64char (sextet3 z)
                 :: base64_encode rest)
      with ((pre ++ [b64char (sextet0 x); b64char (sextet1 x y);
                     b64char (sextet2 y z); b64char (sextet3 z)])
            ++ base64_encode rest)
      by (by rewrite <- app_assoc).
    replace (length done + 3)%nat with (length (done ++ [x; y; z]))
      by (rewrite length_app; done).
    replace (length pre + 4)%nat
      with (length (pre ++ [b64char (sextet0 x); b64char (sextet1 x y);
                            b64char (sextet2 y z); b64char (sextet3 z)]))
      by (rewrite length_app; done).
    rewrite IH.
    + by rewrite <- app_assoc.
    + simpl in Hfuel. lia.
    + rewrite !length_app. simpl. lia.
    + rewrite !length_insert, length_app. simpl in *. lia.
    + rewrite length_app. simpl length.
      rewrite take_three_inserts by (simpl in Hlen; lia).
      by rewrite Htake.
Qed.

(** Where the encoding carries no padding, that is for any whole number
    of groups of three bytes, [fromBase64] decodes it back. *)
Lemma fromBase64_encode_whole_groups bytes :
  whole_groups bytes → fromBase64 (base64_encode bytes) = bytes.
Proof.
  intros Hb. pose proof (base64_encode_length _ Hb) as Henc.
  unfold fromBase64.
  apply (fromBase64_loop_groups bytes Hb _ [] [] _).
  - lia.
  - done.
  - unfold Uint8Array_new. rewrite length_replicate.
    cbn [length Nat.add]. symmetry. apply Nat.div_unique_exact; lia.
  - done.
Qed.

(** C3, at the input where the code departs from it. The single byte 65
    is encoded as [QQ==]; decoding that yields three bytes, the last two
    255, instead of the one byte: [=] is not in the alphabet, so its
    index is -1 and never the 64 the padding tests look for, and the
    buffer is sized from the padded length. *)
Theorem fromBase64_padded_single_byte :
  base64_encode [65] = codes "QQ=="
  ∧ fromBase64 (base64_encode [65]) = [65; 255; 255]
  ∧ length (fromBase64 (base64_encode [65])) ≠ length [65].
Proof. split; [|split]; [reflexivity | reflexivity | vm_compute; lia]. Qed.

End ArraybufferUtilsFacts.

(** ** Font *)

Lemma endsWith_spec (s suffix : string) :
  endsWith s suffix = true ↔ ∃ pre, s = pre +:+ suffix.
Proof.
  induction s as [|c s IH]; cbn [endsWith].
  - destruct (String.eqb_spec "" suffix) as [<-|Hne]; split.
    + by exists "".
    + done.
    + done.
    + intros [[|c pre] Hpre]; [by destruct Hne | done].
  - destruct (String.eqb_spec (String c s) suffix) as [<-|Hne]; split.
    + by exists "".
    + done.
    + intros [pre ->]%IH. by exists (String c pre).
    + intros [[|c' pre] Hpre]; [by destruct Hne|].
      apply IH. exists pre. cbn in Hpre. by injection Hpre.
Qed.

(** C6. [fileIsFont] answers [true] exactly for a defined argument whose
    name, in lower case, ends with ttf, otf, ttc, otc or json, and
    [false] for an undefined argument. *)
Theorem fileIsFont_iff (toLocaleLowerCase : string → string) (file : option File) :
  (Font.fileIsFont toLocaleLowerCase file = true
   ↔ ∃ f, file = Some f
          ∧ ∃ suffix, In suffix Font.font_suffixes
                      ∧ ∃ pre, toLocaleLowerCase (name f) = pre +:+ suffix)
  ∧ Font.fileIsFont toLocaleLowerCase None = false.
Proof.
  split; [|done]. destruct file as [f|]; simpl.
  - rewrite !orb_true_iff, !endsWith_spec. split.
    + intros Hends. exists f. split; [done|].
      destruct Hends as [[[[Hp|Hp]|Hp]|Hp]|Hp]; eexists; (split; [|exact Hp]);
        simpl; tauto.
    + intros (f' & [= <-] & suffix & Hin & Hp). simpl in Hin.
      destruct Hin as [<-|[<-|[<-|[<-|[<-|[]]]]]]; tauto.
  - split; [done|]. by intros (f & ? & _).
Qed.

Section FontFacts.
Context {num : Type} `{JSNumber num}.
Import Font.





End FontFacts.


(** The sample font has no glyph for the letter b and none for the
    question mark: on the text "b" [createPath] returns nothing, reading
    its width throws, and no path comes out. *)
Lemma generateShapes_missing_glyph (Shape : Type)
    (toShapes : Font.ShapePath → list Shape) :
  Font.generateShapes Shape toShapes Sample.font_a [98] None None
  = Throw "TypeError: Cannot read property 'width' of undefined".
Proof. reflexivity. Qed.


(** ** Element *)

Section ElementFacts.
Context {num : Type} `{JSNumber num}.
Import Element.
Local Abbreviation element := (Element.t (num := num)).

Lemma style_declare_eq attribute value (e : element) :
  style (declare attribute value e) !! attribute = Some value.
Proof. apply lookup_insert_eq. Qed.

Lemma style_declare_ne attribute value other (e : element) :
  attribute ≠ other →
  style (declare attribute value e) !! other = style e !! other.
Proof. intros Hne. by apply lookup_insert_ne. Qed.

Lemma set_offset_keeps attribute n (e : element) :
  parent (set_offset attribute n e) = parent e
  ∧ visible (set_offset attribute n e) = visible e
  ∧ size (set_offset attribute n e) = size e
  ∧ position (set_offset attribute n e) = position e
  ∧ _mode (set_offset attribute n e) = _mode e.
Proof. unfold set_offset. by destruct (isFinite n). Qed.

Lemma style_set_offset_eq attribute n (e : element) :
  style (set_offset attribute n e) !! attribute
  = if isFinite n then Some (px n) else style e !! attribute.
Proof. unfold set_offset. destruct (isFinite n); [apply lookup_insert_eq|done]. Qed.

Lemma style_set_offset_ne attribute n other (e : element) :
  attribute ≠ other →
  style (set_offset attribute n e) !! other = style e !! other.
Proof.
  intros Hne. unfold set_offset. destruct (isFinite n); [|done].
  by apply lookup_insert_ne.
Qed.

Lemma set_extent_keeps attribute n (e : element) :
  parent (set_extent attribute n e) = parent e
  ∧ visible (set_extent attribute n e) = visible e
  ∧ size (set_extent attribute n e) = size e
  ∧ position (set_extent attribute n e) = position e
  ∧ _mode (set_extent attribute n e) = _mode e.
Proof. unfold set_extent. by destruct (isFinite n && negb (negative n)). Qed.

Lemma style_set_extent_ne attribute n other (e : element) :
  attribute ≠ other →
  style (set_extent attribute n e) !! other = style e !! other.
Proof.
  intros Hne. unfold set_extent. destruct (isFinite n && negb (negative n)); [|done].
  by apply lookup_insert_ne.
Qed.

Lemma updateSize_keeps (e : element) :
  parent (updateSize e) = parent e
  ∧ visible (updateSize e) = visible e
  ∧ position (updateSize e) = position e
  ∧ _mode (updateSize e) = _mode e.
Proof.
  unfold updateSize.
  destruct (set_extent_keeps "height" (y (size e)) (set_extent "width" (x (size e)) e))
    as (-> & -> & _ & -> & ->).
  by destruct (set_extent_keeps "width" (x (size e)) e) as (-> & -> & _ & -> & ->).
Qed.

Lemma updateSize_style_other (e : element) attribute :
  attribute ∉ ["width"; "height"] →
  style (updateSize e) !! attribute = style e !! attribute.
Proof.
  intros Hnot. unfold updateSize.
  assert (attribute ≠ "width" ∧ attribute ≠ "height") as [? ?].
  { split; intros ->; apply Hnot; by apply (bool_decide_unpack _). }
  by rewrite !style_set_extent_ne by done.
Qed.

Lemma updatePosition_keeps (e : element) (mode : option Z) :
  parent (updatePosition mode e) = parent e
  ∧ visible (updatePosition mode e) = visible e
  ∧ size (updatePosition mode e) = size e.
Proof.
  unfold updatePosition.
  repeat match goal with |- context [decide ?P] => destruct (decide P) end;
    repeat match goal with
    | |- context [set_offset ?a ?n ?e0] =>
        destruct (set_offset_keeps a n e0) as (-> & -> & -> & _ & _)
    end;
    by destruct mode.
Qed.

Lemma updatePosition_style_other (e : element) (mode : option Z) attribute :
  attribute ∉ ["top"; "bottom"; "left"; "right"] →
  style (updatePosition mode e) !! attribute = style e !! attribute.
Proof.
  intros Hnot. unfold updatePosition.
  assert (attribute ≠ "top" ∧ attribute ≠ "bottom" ∧ attribute ≠ "left"
          ∧ attribute ≠ "right") as (? & ? & ? & ?).
  { repeat split; intros ->; apply Hnot; by apply (bool_decide_unpack _). }
  repeat match goal with |- context [decide ?P] => destruct (decide P) end;
    rewrite !style_set_offset_ne by done; by destruct mode.
Qed.

(** [updatePosition] once the mode is settled. *)
Lemma updatePosition_by_mode (e : element) (mode : option Z) (m : Z) :
  m = default (_mode e) mode →
  updatePosition mode e
  = set_offset (if bool_decide (m = TOP_LEFT ∨ m = BOTTOM_LEFT) then "left" else "right")
      (x (position e))
      (set_offset (if bool_decide (m = TOP_LEFT ∨ m = TOP_RIGHT) then "top" else "bottom")
         (y (position e))
         (match mode with Some mode => with_mode mode e | None => e end)).
Proof.
  intros ->. unfold updatePosition.
  set (e1 := match mode with Some mode0 => with_mode mode0 e | None => e end).
  assert (Hm : _mode e1 = default (_mode e) mode) by (by destruct mode).
  assert (Hp : position e1 = position e) by (by destruct mode).
  rewrite <- Hm, <- Hp. clearbody e1. clear Hm Hp.
  repeat match goal with
  | |- context [set_offset ?a ?n e1] =>
      destruct (set_offset_keeps a n e1) as (_ & _ & _ & Hpos & Hmode);
      rewrite ?Hpos, ?Hmode; clear Hpos Hmode
  end.
  destruct (decide (_mode e1 = TOP_LEFT ∨ _mode e1 = TOP_RIGHT)) as [Hv|Hv];
    destruct (decide (_mode e1 = TOP_LEFT ∨ _mode e1 = BOTTOM_LEFT)) as [Hh|Hh];
    repeat first [ rewrite bool_decide_eq_true_2 by done
                 | rewrite bool_decide_eq_false_2 by done ];
    repeat match goal with
    | |- context [set_offset ?a ?n e1] =>
        destruct (set_offset_keeps a n e1) as (_ & _ & _ & Hpos & Hmode);
        rewrite ?Hpos, ?Hmode; clear Hpos Hmode
    end;
    repeat first [ rewrite decide_True by done | rewrite decide_False by done ];
    done.
Qed.

(** C8, as the code has it. [updatePosition] anchors the element by its
    mode, the one passed in if any and the stored one otherwise, which
    is stored first: for a position that is a finite number, top is set
    to the stored y for TOP_LEFT and TOP_RIGHT and bottom for the
    others, left is set to the stored x for TOP_LEFT and BOTTOM_LEFT
    and right for the others, each in px; a coordinate that is NaN or
    infinite is no length to the style, which then keeps what the
    property had; the opposite property is left as it was, and so is
    the position. *)
Theorem updatePosition_anchors (e : element) (mode : option Z) :
  let m := default (_mode e) mode in
  let e' := updatePosition mode e in
  let anchored attribute n :=
    style e' !! attribute = if isFinite n then Some (px n) else style e !! attribute in
  _mode e' = m
  ∧ position e' = position e
  ∧ (m = TOP_LEFT ∨ m = TOP_RIGHT →
       anchored "top" (y (position e))
       ∧ style e' !! "bottom" = style e !! "bottom")
  ∧ (¬ (m = TOP_LEFT ∨ m = TOP_RIGHT) →
       anchored "bottom" (y (position e))
       ∧ style e' !! "top" = style e !! "top")
  ∧ (m = TOP_LEFT ∨ m = BOTTOM_LEFT →
       anchored "left" (x (position e))
       ∧ style e' !! "right" = style e !! "right")
  ∧ (¬ (m = TOP_LEFT ∨ m = BOTTOM_LEFT) →
       anchored "right" (x (position e))
       ∧ style e' !! "left" = style e !! "left").
Proof.
  intros m e' anchored. subst anchored e'. cbn beta.
  rewrite (updatePosition_by_mode e mode m eq_refl).
  set (e1 := match mode with Some mode0 => with_mode mode0 e | None => e end).
  assert (Hm : _mode e1 = m) by (by destruct mode).
  assert (Hp : position e1 = position e) by (by destruct mode).
  assert (Hs : style e1 = style e) by (by destruct mode).
  rewrite <- Hs. clearbody e1.
  split.
  { repeat match goal with
    | |- context [set_offset ?a ?n ?e0] =>
        destruct (set_offset_keeps a n e0) as (_ & _ & _ & _ & ->)
    end. exact Hm. }
  split.
  { repeat match goal with
    | |- context [set_offset ?a ?n ?e0] =>
        destruct (set_offset_keeps a n e0) as (_ & _ & _ & -> & _)
    end. exact Hp. }
  destruct (decide (m = TOP_LEFT ∨ m = TOP_RIGHT)) as [Hv|Hv];
    destruct (decide (m = TOP_LEFT ∨ m = BOTTOM_LEFT)) as [Hh|Hh];
    repeat first [ rewrite bool_decide_eq_true_2 by done
                 | rewrite bool_decide_eq_false_2 by done ];
    repeat split; try (intros; exfalso; tauto); try intros _;
    repeat first [ rewrite style_set_offset_eq
                 | rewrite style_set_offset_ne by done ];
    done.
Qed.
End ElementFacts.

(** C8 as stated, for every element, fails on one whose position is no
    number: [updatePosition] sets top to the stored 10, and hands the
    style "NaNpx" for left, which is no length; left stays unset. *)
Lemma updatePosition_not_every_position :
  Element.style (Element.updatePosition None Sample.lost) !! "top" = Some "10px"
  ∧ Element.px (Element.x (Element.position Sample.lost)) = "NaNpx"
  ∧ Element.style (Element.updatePosition None Sample.lost) !! "left" = None.
Proof. by vm_compute. Qed.

(** The four modes on a sample element at (10, 20). *)
Example updatePosition_four_modes :
  let e := Element.with_style id
             {| Element.style := ∅; Element.parent := Some Sample.body;
                Element.visible := true;
                Element.size := {| Element.x := 0%Q; Element.y := 0%Q |};
                Element.position := {| Element.x := inject_Z 10; Element.y := inject_Z 20 |};
                Element._mode := Element.TOP_LEFT |} in
  let anchors e := (Element.style e !! "top", Element.style e !! "bottom",
                    Element.style e !! "left", Element.style e !! "right") in
  anchors (Element.updatePosition None e) = (Some "20px", None, Some "10px", None)
  ∧ anchors (Element.updatePosition (Some Element.TOP_RIGHT) e)
    = (Some "20px", None, None, Some "10px")
  ∧ anchors (Element.updatePosition (Some Element.BOTTOM_LEFT) e)
    = (None, Some "20px", Some "10px", None)
  ∧ anchors (Element.updatePosition (Some Element.BOTTOM_RIGHT) e)
    = (None, Some "20px", None, Some "10px").
Proof. vm_compute. done. Qed.

(** ** LoadingModal *)

Section LoadingModalFacts.
Context {num : Type} `{JSNumber num}.
Import LoadingModal.
Local Abbreviation modal := (LoadingModal.t (num := num)).

(** [show] on a modal that has a parent. *)
Lemma show_run (m : modal) p :
  Element.parent (element m) = Some p →
  ∃ m', show m = (Normal tt, m')
    ∧ counter m' = counter m + 1
    ∧ Element.parent (element m') = Some p
    ∧ (counter m' = 1 →
         Element.visible (element m') = true ∧ display m' = Some "block"
         ∧ timer m' = true ∧ manager m' = true)
    ∧ (counter m' ≠ 1 → element m' = element m).
Proof.
  intros Hp. unfold show, bind, modify, gets. cbn.
  destruct (decide (counter m + 1 = 1)) as [Hc|Hc].
  - unfold bind, modify, updateInterface, bind, modify, gets. cbn.
    unfold updateSize, bind, gets, modify. cbn. rewrite Hp. cbn.
    eexists. split; [reflexivity|]. cbn.
    repeat split; try done.
    + rewrite (proj1 (updatePosition_keeps _ _)).
      by rewrite (proj1 (updateSize_keeps _)).
    + rewrite (proj1 (proj2 (updatePosition_keeps _ _))).
      by rewrite (proj1 (proj2 (updateSize_keeps _))).
    + unfold display. cbn.
      rewrite updatePosition_style_other by (by apply (bool_decide_unpack _)).
      rewrite updateSize_style_other by (by apply (bool_decide_unpack _)). cbn.
      apply lookup_insert_eq.
  - eexists. split; [reflexivity|]. cbn. repeat split; done.
Qed.

(** [show] on a modal without a parent: the counter and the visibility
    are set before [updateSize] misses the parent and throws. *)
Lemma show_orphan (m : modal) :
  Element.parent (element m) = None →
  ∃ r m', show m = (r, m')
    ∧ counter m' = counter m + 1
    ∧ Element.parent (element m') = None
    ∧ (counter m' = 1 →
         Element.visible (element m') = true ∧ display m' = Some "block").
Proof.
  intros Hp. unfold show, bind, modify, gets. cbn.
  destruct (decide (counter m + 1 = 1)) as [Hc|Hc].
  - unfold bind, modify, updateInterface, bind, modify, gets. cbn.
    unfold updateSize, bind, gets, modify, throw. cbn. rewrite Hp. cbn.
    eexists _, _. split; [reflexivity|]. cbn.
    repeat split; try done.
    unfold display. cbn. apply lookup_insert_eq.
  - eexists _, _. split; [reflexivity|]. cbn. repeat split; done.
Qed.

(** [show], with or without a parent. *)
Lemma show_state (m : modal) :
  counter (show m).2 = counter m + 1
  ∧ Element.parent (element (show m).2) = Element.parent (element m)
  ∧ (counter (show m).2 = 1 →
       Element.visible (element (show m).2) = true
       ∧ display (show m).2 = Some "block")
  ∧ (is_Some (Element.parent (element m)) → (show m).1 = Normal tt).
Proof.
  destruct (Element.parent (element m)) as [p|] eqn:Hp.
  - destruct (show_run m p Hp) as (m' & -> & Hc & Hp' & Hone & _).
    cbn [fst snd]. split; [done|]. split; [done|]. split; [|done].
    intros Hc'. by destruct (Hone Hc') as (? & ? & _).
  - destruct (show_orphan m Hp) as (r & m' & -> & Hc & Hp' & Hone).
    cbn [fst snd]. split; [done|]. split; [done|]. split; [exact Hone|].
    by intros [? ?].
Qed.

(** [hide] never throws. *)
Lemma hide_run (m : modal) force :
  ∃ m', hide force m = (Normal tt, m')
    ∧ Element.parent (element m') = Element.parent (element m)
    ∧ (counter m - 1 < 1 ∨ force = Some true →
         counter m' = 0 ∧ Element.visible (element m') = false
         ∧ display m' = Some "none" ∧ timer m' = false ∧ manager m' = false)
    ∧ (¬ (counter m - 1 < 1 ∨ force = Some true) →
         counter m' = counter m - 1 ∧ element m' = element m).
Proof.
  unfold hide, bind, modify, gets. cbn.
  destruct (decide (counter m - 1 < 1 ∨ force = Some true)) as [Hc|Hc].
  - eexists. split; [reflexivity|]. cbn. repeat split; try done.
    unfold display. cbn. apply lookup_insert_eq.
  - eexists. split; [reflexivity|]. cbn. repeat split; done.
Qed.

(** Calls keep the parent the modal was made with, and keep the counter
    from going below 0. *)
Lemma run_calls_invariant calls (m : modal) :
  0 <= counter m →
  0 <= counter (run_calls calls m)
  ∧ Element.parent (element (run_calls calls m)) = Element.parent (element m).
Proof.
  revert m. induction calls as [|c calls IH]; intros m Hc; [done|].
  cbn [run_calls]. destruct c as [|force]; cbn [run_call].
  - destruct (show_state m) as (Hc1 & Hp1 & _).
    rewrite <- Hp1. apply IH. lia.
  - destruct (hide_run m force) as (m1 & -> & Hp1 & Hyes & Hno).
    cbn [snd]. rewrite <- Hp1. apply IH.
    destruct (decide (counter m - 1 < 1 ∨ force = Some true)) as [Hd|Hd].
    + destruct (Hyes Hd) as [-> _]. lia.
    + destruct (Hno Hd) as [-> _]. lia.
Qed.

(** C9. Take a freshly constructed modal and any sequence of [show] and
    [hide] calls: afterwards the counter is not negative. From there,
    [show] adds one to the counter and, when that makes it 1, makes the
    modal visible; [hide] takes one off, and when that leaves less than
    1, or when [force] is [true], whatever the counter was, the counter
    is 0 and the modal hidden; neither leaves the counter negative. On a
    modal constructed with a parent all these calls end normally. *)
Theorem loadingModal_counter (parent : option Element.Parent) (calls : list call) :
  let m := run_calls calls (new parent) in
  0 <= counter m
  ∧ (counter (show m).2 = counter m + 1
     ∧ (counter (show m).2 = 1 →
          Element.visible (element (show m).2) = true
          ∧ display (show m).2 = Some "block"))
  ∧ (∀ force,
       0 <= counter (hide force m).2
       ∧ (counter m - 1 < 1 ∨ force = Some true →
            counter (hide force m).2 = 0
            ∧ Element.visible (element (hide force m).2) = false
            ∧ display (hide force m).2 = Some "none")
       ∧ (¬ (counter m - 1 < 1 ∨ force = Some true) →
            counter (hide force m).2 = counter m - 1)
       ∧ (hide force m).1 = Normal tt)
  ∧ (is_Some parent → (show m).1 = Normal tt).
Proof.
  intros m.
  destruct (run_calls_invariant calls (new parent)) as [Hc Hp]; [done|].
  fold m in Hc, Hp. cbn in Hp.
  destruct (show_state m) as (Hs1 & _ & Hs2 & Hs3).
  split; [done|]. split; [done|]. split.
  - intros force.
    destruct (hide_run m force) as (m1 & -> & _ & Hyes & Hno).
    cbn [fst snd]. split; [|split; [|split; [|done]]].
    + destruct (decide (counter m - 1 < 1 ∨ force = Some true)) as [Hd|Hd].
      * destruct (Hyes Hd) as [-> _]. lia.
      * destruct (Hno Hd) as [-> _]. lia.
    + intros Hd. destruct (Hyes Hd) as (? & ? & ? & _). done.
    + intros Hd. by destruct (Hno Hd).
  - intros Hparent. apply Hs3. by rewrite Hp.
Qed.
End LoadingModalFacts.

(** Three [show]s, then one forced [hide]: the counter goes 1, 2, 3, 0;
    two [hide]s first leave it at 0, not below. *)
Example loadingModal_forced_hide :
  let after calls := LoadingModal.run_calls calls (LoadingModal.new (Some Sample.body)) in
  LoadingModal.counter (after [LoadingModal.CallShow; LoadingModal.CallShow; LoadingModal.CallShow]) = 3
  ∧ LoadingModal.counter
      (after [LoadingModal.CallShow; LoadingModal.CallShow; LoadingModal.CallShow;
              LoadingModal.CallHide (Some true)]) = 0
  ∧ LoadingModal.shown
      (after [LoadingModal.CallShow; LoadingModal.CallShow; LoadingModal.CallShow;
              LoadingModal.CallHide (Some true)]) = false
  ∧ LoadingModal.counter
      (after [LoadingModal.CallHide None; LoadingModal.CallHide None; LoadingModal.CallShow]) = 1.
Proof. vm_compute. done. Qed.

(** ** CodeEditor *)

Section CodeEditorFacts.
Import CodeEditor.
Variable toString : number → string.

End CodeEditorFacts.

(** ** Editor: the loaders *)

Section DispatchFacts.
Import Editor.

(** The branch taken is one the file has the format of. *)
Lemma dispatch_Some name extension f :
  dispatch name extension = Some f → has_format name extension f.
Proof.
  unfold dispatch.
  repeat match goal with
  | |- context [decide ?P] =>
      destruct (decide P) as [?|?];
      [intros [= <-]; cbn; subst;
       repeat match goal with H : _ ∨ _ |- _ => destruct H; subst end;
       by apply (bool_decide_unpack _) |]
  | |- context [endsWith ?a ?b] =>
      destruct (endsWith a b) eqn:Hends;
      [intros [= <-]; by apply endsWith_spec |]
  end.
  done.
Qed.

(** No branch is taken only for a file that has none of the formats. *)
Lemma dispatch_None name extension :
  dispatch name extension = None → ∀ f, ¬ has_format name extension f.
Proof.
  unfold dispatch.
  repeat match goal with
  | |- context [decide ?P] => destruct (decide P) as [?|?]; [done|]
  | |- context [endsWith ?a ?b] => destruct (endsWith a b) eqn:Hends; [done|]
  end.
  intros _ f Hf.
  destruct f; cbn in Hf;
    try (apply endsWith_spec in Hf; congruence);
    repeat (apply elem_of_cons in Hf as [->|Hf]; [tauto|]);
    by apply elem_of_nil in Hf.
Qed.

(** The supported formats are those of the table, branch by branch. *)
Lemma supported_by_format : supported = concat (extensions <$> all_formats).
Proof. reflexivity. Qed.
End DispatchFacts.

Section EditorFacts.
Context {num : Type} `{JSNumber num}.
Import Editor.
Variable env : Env (num := num).

Lemma destroy_run (m : LoadingModal.t (num := num)) :
  ∃ m', LoadingModal.destroy m = (Normal tt, m')
    ∧ Element.parent (LoadingModal.element m') = None
    ∧ LoadingModal.counter m' = 0
    ∧ LoadingModal.shown m' = false.
Proof.
  unfold LoadingModal.destroy, bind, modify. cbn.
  eexists. split; [reflexivity|]. cbn.
  assert (Hp : Element.parent (Element.destroy (LoadingModal.element m)) = None).
  { unfold Element.destroy.
    destruct (Element.parent (LoadingModal.element m)) eqn:E; [done|exact E]. }
  split; [done|]. split; [done|].
  unfold LoadingModal.shown. cbn. by rewrite Hp.
Qed.

Lemma for_each_addObject (l : list nat) parent
    (md : option (LoadingModal.t (num := num))) n evs :
  for_each l (λ o, addObject o parent) {| modal := md; next := n; events := evs |}
  = (Normal tt,
     {| modal := md; next := n;
        events := evs ++ ((λ o, AddActionEv (AddAction o parent)) <$> l) |}).
Proof.
  revert evs. induction l as [|o l IH]; intros evs; cbn.
  - by rewrite app_nil_r.
  - rewrite IH. by rewrite <- app_assoc.
Qed.

Lemma destroy_eq (m : LoadingModal.t (num := num)) :
  LoadingModal.destroy m = (Normal tt, (LoadingModal.destroy m).2)
  ∧ LoadingModal.shown (LoadingModal.destroy m).2 = false.
Proof. destruct (destroy_run m) as (m' & -> & _ & _ & Hs). by split. Qed.

Lemma model_result_run f parent root children (m : LoadingModal.t (num := num)) n evs :
  model_result f parent root children {| modal := Some m; next := n; events := evs |}
  = (Normal tt,
     {| modal := Some (LoadingModal.destroy m).2; next := n;
        events := evs ++ ((λ o, AddActionEv (AddAction o parent))
                          <$> added f root children) |}).
Proof.
  unfold model_result, bind. rewrite for_each_addObject.
  unfold on_modal. cbn -[LoadingModal.destroy].
  by rewrite (proj1 (destroy_eq m)).
Qed.

(** The handler of a model format, on a world whose modal is up. *)
Lemma loadModel_onload_run f parent decoded outcome m n evs :
  let W md l := {| modal := Some md; next := n; events := evs ++ l |} in
  let json := if parses_json f then [Parse "JSON"] else [] in
  let failed e := [Alert (error_message env e);
                   Console "error" "nunuStudio: Error loading file"] in
  loadModel_onload env f parent decoded outcome
    {| modal := Some m; next := n; events := evs |}
  = match (if parses_json f then decoded else Normal tt) with
    | Throw e => (Normal tt, W m (json ++ failed e))
    | Normal _ =>
        match outcome with
        | Fails e =>
            if guarded f
            then (Normal tt, W m (json ++ Parse (loader_of f) :: failed e))
            else (Throw e, W m (json ++ [Parse (loader_of f)]))
        | Delivers root children =>
            if deferred f
            then (Normal tt,
                  W m (json ++ [Parse (loader_of f);
                                Awaits (ModelCallback f parent root children)]))
            else (Normal tt,
                  W (LoadingModal.destroy m).2
                    (json ++ Parse (loader_of f)
                          :: ((λ o, AddActionEv (AddAction o parent))
                              <$> added f root children)))
        end
    end.
Proof.
  intros W json failed. subst W json failed.
  pose proof (model_result_run f parent) as Hres.
  unfold loadModel_onload, model_body, try_catch, bind, parse, alert, console,
    emit, modify, ret, throw.
  destruct f; cbn [parses_json guarded deferred loader_of];
    destruct decoded as [[]|e0]; destruct outcome as [e|root children];
    cbn -[model_result LoadingModal.destroy added];
    rewrite ?Hres; rewrite <- ?app_assoc; reflexivity.
Qed.

Lemma obj_materials_run file (m : LoadingModal.t (num := num)) n evs :
  ∃ materials noise,
    obj_materials env file {| modal := Some m; next := n; events := evs |}
    = (Normal materials, {| modal := Some m; next := n; events := evs ++ noise |})
    ∧ forallb about_materials noise = true.
Proof.
  unfold obj_materials.
  destruct (runningOnDesktop env); [|by exists None, []; rewrite app_nil_r].
  unfold try_catch, bind, lift, console, alert, emit, modify, ret.
  destruct (getNameWithoutExtension env (path file)) as [base|f]; cbn.
  2:{ exists None. eexists. rewrite <- ?app_assoc. split; [reflexivity|done]. }
  destruct (fileExists env (base +:+ ".mtl")) as [[]|f]; cbn.
  3:{ exists None. eexists. rewrite <- ?app_assoc. split; [reflexivity|done]. }
  2:{ exists None, []. by rewrite app_nil_r. }
  destruct (model_readFile env (base +:+ ".mtl")) as [text|f]; cbn.
  2:{ exists None. eexists. rewrite <- ?app_assoc. split; [reflexivity|done]. }
  destruct (MTLLoader_parse env text) as [materials|f]; cbn.
  - exists (Some materials). eexists. rewrite <- ?app_assoc. split; [reflexivity|done].
  - exists None. eexists. rewrite <- ?app_assoc. split; [reflexivity|done].
Qed.

(** [loadModel] up to its return: the modal is made and shown, then the
    branch either leaves a handler with the reader or, for no format,
    takes the modal down and reports. *)
Lemma loadModel_sync file parent :
  ∃ m evs,
    loadModel env file parent initial
    = (Normal tt, {| modal := Some m; next := 0; events := evs |})
    ∧ match dispatch (name file) (getFileExtension env (name file)) with
      | Some f =>
          LoadingModal.shown m = true
          ∧ ∃ noise materials,
              evs = noise ++ [ReadAs (read_mode f) (ModelOnload f parent materials)]
              ∧ forallb about_materials noise = true
              ∧ (f = OBJ ∨ noise = [])
      | None =>
          LoadingModal.shown m = false
          ∧ evs = [Alert (unknownFileFormat (locale env));
                   Console "warn" "nunuStudio: Unknown file format"]
      end.
Proof.
  unfold loadModel.
  destruct (show_run (LoadingModal.new (Some (DocumentBody env)))
              (DocumentBody env) eq_refl)
    as (m & Hshow & Hc & Hp & Hone & _).
  assert (Hshown : LoadingModal.shown m = true).
  { destruct Hone as (Hv & _); [by rewrite Hc|].
    unfold LoadingModal.shown. by rewrite Hp, Hv. }
  unfold bind at 1. cbn -[LoadingModal.show LoadingModal.new bind try_catch].
  unfold bind at 1, on_modal at 1.
  cbn -[LoadingModal.show LoadingModal.new bind try_catch].
  rewrite Hshow. unfold try_catch.
  destruct (dispatch _ _) as [f|].
  - assert (Hread : ∀ materials evs,
              read (read_mode f) (ModelOnload f parent materials)
                {| modal := Some m; next := 0; events := evs |}
              = (Normal tt,
                 {| modal := Some m; next := 0;
                    events := evs ++ [ReadAs (read_mode f)
                                        (ModelOnload f parent materials)] |}))
      by done.
    destruct (obj_materials_run file m 0%nat []) as (materials & noise & Hmat & Hnoise).
    destruct f;
      try (rewrite Hread; exists m; eexists; split; [reflexivity|];
           split; [done|]; exists [], None; split; [done|]; split; [done|]; by right).
    unfold bind. rewrite Hmat, Hread.
    exists m. eexists. split; [reflexivity|]. split; [done|].
    exists noise, materials. split; [done|]. split; [done|]. by left.
  - destruct (destroy_run m) as (m' & Hd & _ & _ & Hs).
    unfold bind, on_modal. cbn -[LoadingModal.destroy]. rewrite Hd. cbn.
    exists m'. eexists. split; [reflexivity|]. done.
Qed.

(** What is left in the log by the search for materials is no handler,
    no callback, no parser of a format, no resource and no object. *)
Lemma tasks_noise (noise : list Event) :
  forallb about_materials noise = true →
  omap (λ ev, match ev with ReadAs _ t => Some t | _ => None end) noise = [].
Proof.
  induction noise as [|ev noise IH]; [done|]. cbn.
  intros [Hev Hrest]%andb_true_iff. rewrite (IH Hrest). by destruct ev.
Qed.

Lemma callbacks_noise (noise : list Event) :
  forallb about_materials noise = true →
  omap (λ ev, match ev with Awaits t => Some t | _ => None end) noise = [].
Proof.
  induction noise as [|ev noise IH]; [done|]. cbn.
  intros [Hev Hrest]%andb_true_iff. rewrite (IH Hrest). by destruct ev.
Qed.

Lemma objects_noise (noise : list Event) :
  forallb about_materials noise = true →
  omap (λ ev, match ev with
              | AddActionEv (AddAction o parent) => Some (o, parent)
              | _ => None
              end) noise = [].
Proof.
  induction noise as [|ev noise IH]; [done|]. cbn.
  intros [Hev Hrest]%andb_true_iff. rewrite (IH Hrest). by destruct ev.
Qed.

Lemma format_parsers_noise (noise : list Event) :
  forallb about_materials noise = true →
  filter (λ l, l ≠ "JSON" ∧ l ≠ "THREE.MTLLoader")
    (omap (λ ev, match ev with Parse l => Some l | _ => None end) noise) = [].
Proof.
  induction noise as [|ev noise IH]; [done|]. cbn [forallb].
  intros [Hev Hrest]%andb_true_iff.
  destruct ev as [| |l| | | | | |]; try done; cbn -[filter];
    try by apply IH.
  apply bool_decide_eq_true in Hev as ->.
  rewrite filter_cons_False; [by apply IH|]. by intros [_ ?].
Qed.

Lemma json_not_noise (noise : list Event) :
  forallb about_materials noise = true →
  "JSON" ∉ omap (λ ev, match ev with Parse l => Some l | _ => None end) noise.
Proof.
  induction noise as [|ev noise IH]; [intros _; apply not_elem_of_nil|].
  cbn [forallb]. intros [Hev Hrest]%andb_true_iff.
  destruct ev as [| |l| | | | | |]; try done; cbn; try by apply IH.
  apply bool_decide_eq_true in Hev as ->.
  apply not_elem_of_cons. split; [done|by apply IH].
Qed.

(** What adding objects leaves in the log is no parser and no callback. *)
Lemma parsers_added parent (l : list nat) :
  omap (λ ev, match ev with Parse l => Some l | _ => None end)
    ((λ o, AddActionEv (AddAction o parent)) <$> l) = [].
Proof. induction l as [|o l IH]; [done|]. cbn. exact IH. Qed.

Lemma callbacks_added parent (l : list nat) :
  omap (λ ev, match ev with Awaits t => Some t | _ => None end)
    ((λ o, AddActionEv (AddAction o parent)) <$> l) = [].
Proof. induction l as [|o l IH]; [done|]. cbn. exact IH. Qed.

Lemma objects_added_added parent (l : list nat) :
  omap (λ ev, match ev with
              | AddActionEv (AddAction o parent) => Some (o, parent)
              | _ => None
              end)
    ((λ o, AddActionEv (AddAction o parent)) <$> l)
  = (λ o, (o, parent)) <$> l.
Proof. induction l as [|o l IH]; [done|]. cbn. by rewrite IH. Qed.

(** A model load from the call to the end of the handler. *)
Lemma load_model_run file parent i :
  ∃ m evs,
    loadModel env file parent initial
    = (Normal tt, {| modal := Some m; next := 0; events := evs |})
    ∧ match dispatch (name file) (getFileExtension env (name file)) with
      | None =>
          LoadingModal.shown m = false
          ∧ evs = [Alert (unknownFileFormat (locale env));
                   Console "warn" "nunuStudio: Unknown file format"]
          ∧ load env (ReqModel file parent) i initial
            = (Normal tt, {| modal := Some m; next := 0; events := evs |})
      | Some f =>
          LoadingModal.shown m = true
          ∧ ∃ noise materials,
              evs = noise ++ [ReadAs (read_mode f) (ModelOnload f parent materials)]
              ∧ forallb about_materials noise = true
              ∧ (f = OBJ ∨ noise = [])
              ∧ load env (ReqModel file parent) i initial
                = loadModel_onload env f parent (decoded i) (parsed i)
                    {| modal := Some m; next := 0; events := evs |}
      end.
Proof.
  unfold load. cbn [start].
  destruct (loadModel_sync file parent) as (m & evs & -> & Hcase).
  exists m, evs. split; [done|].
  unfold tasks. cbn [events].
  destruct (dispatch _ _) as [f|].
  - destruct Hcase as (Hshown & noise & materials & -> & Hnoise & Hobj).
    split; [done|]. exists noise, materials.
    split; [done|]. split; [done|]. split; [done|].
    rewrite omap_app, (tasks_noise _ Hnoise).
    cbn -[loadModel_onload]. unfold bind.
    by destruct (loadModel_onload _ _ _ _ _ _) as [[[]|e] w].
  - destruct Hcase as (Hs & ->). by cbn.
Qed.
Lemma settle_none (answered : bool) (i : Input) (w : World (num := num)) :
  callbacks w = [] → settle env answered i w = (Normal tt, w).
Proof. intros Hcb. unfold settle. rewrite Hcb. by destruct answered. Qed.

Lemma settle_one (i : Input) f parent root children
    (m : LoadingModal.t (num := num)) n evs :
  callbacks {| modal := Some m; next := n; events := evs |}
  = [ModelCallback f parent root children] →
  settle env true i {| modal := Some m; next := n; events := evs |}
  = (Normal tt,
     {| modal := Some (LoadingModal.destroy m).2; next := n;
        events := evs ++ ((λ o, AddActionEv (AddAction o parent))
                          <$> added f root children) |}).
Proof.
  intros Hcb. unfold settle. rewrite Hcb. cbn [for_each run_task].
  unfold bind. by rewrite model_result_run.
Qed.

(** A model load of a file with a format, through the handler and the
    answer of the parser: the log and the modal in every case. *)
Lemma model_load_cases file parent i (answered : bool) f :
  dispatch (name file) (getFileExtension env (name file)) = Some f →
  ∃ m noise materials,
    LoadingModal.shown m = true
    ∧ LoadingModal.shown (LoadingModal.destroy m).2 = false
    ∧ forallb about_materials noise = true
    ∧ (f = OBJ ∨ noise = [])
    ∧ let read := noise ++ [ReadAs (read_mode f) (ModelOnload f parent materials)] in
      let json := if parses_json f then [Parse "JSON"] else [] in
      let failed e := [Alert (error_message env e);
                       Console "error" "nunuStudio: Error loading file"] in
      let adds root children :=
        (λ o, AddActionEv (AddAction o parent)) <$> added f root children in
      let W md l := {| modal := Some md; next := 0; events := read ++ l |} in
      let m2 := (LoadingModal.destroy m).2 in
      let loaded := load env (ReqModel file parent) i initial in
      let settled := settle env answered i loaded.2 in
      loadModel env file parent initial
      = (Normal tt, {| modal := Some m; next := 0; events := read |})
      ∧ match (if parses_json f then decoded i else Normal tt) with
        | Throw e =>
            loaded = (Normal tt, W m (json ++ failed e))
            ∧ settled = (Normal tt, loaded.2)
        | Normal _ =>
            match parsed i with
            | Fails e =>
                loaded = (if guarded f then Normal tt else Throw e,
                          W m (json ++ [Parse (loader_of f)] ++ (if guarded f then failed e else [])))
                ∧ settled = (Normal tt, loaded.2)
            | Delivers root children =>
                if deferred f
                then loaded
                     = (Normal tt,
                        W m (json ++ [Parse (loader_of f);
                                      Awaits (ModelCallback f parent root children)]))
                     ∧ settled
                       = (Normal tt,
                          if answered
                          then W m2 (json ++ [Parse (loader_of f);
                                              Awaits (ModelCallback f parent root children)]
                                          ++ adds root children)
                          else loaded.2)
                else loaded
                     = (Normal tt,
                        W m2 (json ++ [Parse (loader_of f)] ++ adds root children))
                     ∧ settled = (Normal tt, loaded.2)
            end
        end.
Proof.
  intros Hd.
  destruct (load_model_run file parent i) as (m & evs & Hsync & Hrun).
  rewrite Hd in Hrun.
  destruct Hrun as (Hshown & noise & materials & -> & Hnoise & Hobj & Hload).
  exists m, noise, materials.
  split; [done|]. split; [apply destroy_eq|]. split; [done|]. split; [done|].
  cbn zeta. split; [done|].
  rewrite Hload, loadModel_onload_run. clear Hload Hsync.
  assert (Hcb : ∀ l (md : option (LoadingModal.t (num := num))),
    callbacks {| modal := md; next := 0;
                 events := (noise ++ [ReadAs (read_mode f)
                                        (ModelOnload f parent materials)]) ++ l |}
    = omap (λ ev, match ev with Awaits t => Some t | _ => None end) l).
  { intros l md. unfold callbacks. cbn [events].
    by rewrite !omap_app, (callbacks_noise _ Hnoise). }
  destruct f; cbn [parses_json guarded deferred loader_of added app];
    destruct (decoded i) as [[]|e0]; destruct (parsed i) as [e|root children];
    cbn [fst snd]; (split; [reflexivity|]);
    first
      [ apply settle_none; rewrite Hcb; cbn; by rewrite ?callbacks_added
      | destruct answered;
        [ rewrite (settle_one i _ parent root children) by (by rewrite Hcb);
          by rewrite <- app_assoc
        | reflexivity ] ].
Qed.
(** The parsers a model load calls: the one of the materials at most,
    then [JSON.parse] in the branches that use it, then the parser of
    the format, unless [JSON.parse] threw; the answer of a parser calls
    no other. *)
Lemma parsers_loaded file parent i (answered : bool) f :
  dispatch (name file) (getFileExtension env (name file)) = Some f →
  let loaded := load env (ReqModel file parent) i initial in
  ∃ noise,
    forallb about_materials noise = true
    ∧ parsers loaded.2
      = omap (λ ev, match ev with Parse l => Some l | _ => None end) noise
        ++ (if parses_json f then ["JSON"] else [])
        ++ match (if parses_json f then decoded i else Normal tt) with
           | Throw _ => []
           | Normal _ => [loader_of f]
           end
    ∧ parsers (settle env answered i loaded.2).2 = parsers loaded.2.
Proof.
  intros Hd.
  destruct (model_load_cases file parent i answered f Hd)
    as (m & noise & materials & _ & _ & Hnoise & _ & _ & Hcases).
  cbn zeta in Hcases |- *. exists noise. split; [done|].
  destruct f; cbn [parses_json guarded deferred loader_of added] in Hcases |- *;
    destruct (decoded i) as [[]|e0]; destruct (parsed i) as [e|root children];
    destruct Hcases as [Hl Hs]; rewrite Hs, Hl; cbn [fst snd];
    try destruct answered; unfold parsers; cbn [events];
    rewrite ?omap_app, ?parsers_added, ?app_nil_r; split; reflexivity.
Qed.

End EditorFacts.

Section LoaderTheorems.
Context {num : Type} `{JSNumber num}.
Import Editor.
Variable env : Env (num := num).

(** C1. [loadModel] ends normally, and what it does goes by the
    extension of the file name alone. Each of the supported extensions
    has its own parser; a name ending in ".assimp.json" goes to the
    Assimp JSON parser unless the extension is one of the five tested
    before it. If the extension has a parser, the handler of one format,
    a format the file has, is left with the reader while the modal stays
    up, no parser of a format being called so far; when the handler
    runs it calls that parser, once, and no parser of another format:
    the three parsers that want an object are called after [JSON.parse],
    and not at all if [JSON.parse] throws. If the extension has no
    parser, the file has none of the formats, the modal is taken down,
    an unknown file format is reported, and neither handler nor parser
    ever runs. *)
Theorem loadModel_dispatches (file : File) (parent : option nat) (i : Input)
    (answered : bool) :
  let extension := getFileExtension env (name file) in
  let by_extension : gmap string string :=
    list_to_map
      [("gcode", "THREE.GCodeLoader"); ("obj", "THREE.OBJLoader");
       ("awd", "THREE.AWDLoader"); ("amf", "THREE.AMFLoader");
       ("assimp", "THREE.AssimpLoader"); ("babylon", "THREE.BabylonLoader");
       ("blend", "JSBLEND"); ("3ds", "THREE.TDSLoader");
       ("dae", "THREE.ColladaLoader"); ("drc", "THREE.DRACOLoader");
       ("gltf", "THREE.GLTFLoader"); ("glb", "THREE.GLTFLoader");
       ("ply", "THREE.PLYLoader"); ("vtk", "THREE.VTKLoader");
       ("vtp", "THREE.VTKLoader"); ("prwm", "THREE.PRWMLoader");
       ("wrl", "THREE.VRMLLoader"); ("vrml", "THREE.VRMLLoader");
       ("fbx", "THREE.FBXLoader"); ("x", "THREE.XLoader");
       ("pcd", "THREE.PCDLoader"); ("svg", "THREE.SVGLoader");
       ("stl", "THREE.STLLoader"); ("json", "THREE.JSONLoader")] in
  let expected :=
    if bool_decide (extension ∈ ["gcode"; "obj"; "awd"; "amf"; "assimp"])
    then by_extension !! extension
    else if endsWith (name file) ".assimp.json"
         then Some "THREE.AssimpJSONLoader"
         else by_extension !! extension in
  let json_first parser :=
    bool_decide (parser ∈ ["THREE.AssimpJSONLoader"; "THREE.BabylonLoader";
                           "THREE.JSONLoader"]) in
  let w := (loadModel env file parent initial).2 in
  let w' := (load env (ReqModel file parent) i initial).2 in
  let w'' := (settle env answered i w').2 in
  (loadModel env file parent initial).1 = Normal tt
  ∧ match expected with
    | Some parser =>
        (∃ f materials,
           has_format (name file) extension f
           ∧ (∃ s, s ∈ supported ∧ s ∈ extensions f)
           ∧ tasks w = [ModelOnload f parent materials])
        ∧ modal_shown w = Some true
        ∧ format_parsers w = []
        ∧ ("JSON" ∈ parsers w' ↔ json_first parser = true)
        ∧ format_parsers w'
          = (if json_first parser
             then match decoded i with Normal _ => [parser] | Throw _ => [] end
             else [parser])
        ∧ parsers w'' = parsers w'
    | None =>
        (∀ f, ¬ has_format (name file) extension f)
        ∧ tasks w = []
        ∧ modal_shown w = Some false
        ∧ events w = [Alert (unknownFileFormat (locale env));
                      Console "warn" "nunuStudio: Unknown file format"]
        ∧ events w'' = events w
    end.
Proof.
  intros extension by_extension expected json_first w w' w''.
  assert (Hexp : expected = loader_of <$> dispatch (name file) extension).
  { subst expected by_extension. clearbody extension. clear.
    unfold dispatch.
    destruct (decide (extension = "gcode")) as [->|?]; [by vm_compute|].
    destruct (decide (extension = "obj")) as [->|?]; [by vm_compute|].
    destruct (decide (extension = "awd")) as [->|?]; [by vm_compute|].
    destruct (decide (extension = "amf")) as [->|?]; [by vm_compute|].
    destruct (decide (extension = "assimp")) as [->|?]; [by vm_compute|].
    rewrite bool_decide_eq_false_2
      by (rewrite !elem_of_cons, elem_of_nil; tauto).
    destruct (endsWith (name file) ".assimp.json"); [done|].
    destruct (decide (extension = "babylon")) as [->|?]; [by vm_compute|].
    destruct (decide (extension = "blend")) as [->|?]; [by vm_compute|].
    destruct (decide (extension = "3ds")) as [->|?]; [by vm_compute|].
    destruct (decide (extension = "dae")) as [->|?]; [by vm_compute|].
    destruct (decide (extension = "drc")) as [->|?]; [by vm_compute|].
    destruct (decide (extension = "gltf" ∨ extension = "glb")) as [[->| ->]|?];
      [by vm_compute..|].
    destruct (decide (extension = "ply")) as [->|?]; [by vm_compute|].
    destruct (decide (extension = "vtk" ∨ extension = "vtp")) as [[->| ->]|?];
      [by vm_compute..|].
    destruct (decide (extension = "prwm")) as [->|?]; [by vm_compute|].
    destruct (decide (extension = "wrl" ∨ extension = "vrml")) as [[->| ->]|?];
      [by vm_compute..|].
    destruct (decide (extension = "fbx")) as [->|?]; [by vm_compute|].
    destruct (decide (extension = "x")) as [->|?]; [by vm_compute|].
    destruct (decide (extension = "pcd")) as [->|?]; [by vm_compute|].
    destruct (decide (extension = "svg")) as [->|?]; [by vm_compute|].
    destruct (decide (extension = "stl")) as [->|?]; [by vm_compute|].
    destruct (decide (extension = "json")) as [->|?]; [by vm_compute|].
    cbn [fmap option_fmap option_map].
    apply not_elem_of_list_to_map_1. cbn [fmap list_fmap fst].
    rewrite !elem_of_cons, elem_of_nil. tauto. }
  rewrite Hexp. clear Hexp. subst extension w w' w''.
  destruct (dispatch _ _) as [f|] eqn:Hd; cbn [fmap option_fmap option_map].
  - destruct (model_load_cases env file parent i answered f Hd)
      as (m & noise & materials & Hshown & Hgone & Hnoise & Hobj & Hsync & Hcases).
    cbn zeta in Hsync, Hcases. rewrite Hsync. cbn [fst snd].
    split; [done|].
    split.
    { exists f, materials. split; [by apply dispatch_Some|]. split.
      - exists (default "" (head (extensions f))).
        destruct f; split; by apply (bool_decide_unpack _).
      - unfold tasks. cbn [events]. by rewrite omap_app, (tasks_noise _ Hnoise). }
    split; [unfold modal_shown; cbn; by rewrite Hshown|].
    split.
    { unfold format_parsers, parsers. cbn [events].
      by rewrite omap_app, filter_app, (format_parsers_noise _ Hnoise). }
    destruct (parsers_loaded env file parent i answered f Hd)
      as (noise' & Hnoise' & Hparsers & Hsettled).
    cbn zeta in Hparsers, Hsettled.
    assert (Hjson : json_first (loader_of f) = parses_json f)
      by (by destruct f).
    assert (Hformat : filter (λ l, l ≠ "JSON" ∧ l ≠ "THREE.MTLLoader") [loader_of f]
                      = [loader_of f])
      by (by destruct f).
    rewrite Hjson. split; [|split; [|exact Hsettled]].
    + rewrite Hparsers, !elem_of_app.
      pose proof (json_not_noise _ Hnoise') as Hnot.
      destruct (parses_json f) eqn:Hpj.
      * split; [done|]. intros _. right. left. apply list_elem_of_here.
      * split; [|done]. intros [?|[Hin|Hin]]; [done|by apply elem_of_nil in Hin|].
        apply list_elem_of_singleton in Hin. by destruct f.
    + unfold format_parsers. rewrite Hparsers, !filter_app.
      rewrite (format_parsers_noise _ Hnoise').
      destruct (parses_json f); [destruct (decoded i)|]; by rewrite ?Hformat.
  - destruct (load_model_run env file parent i) as (m & evs & Hsync & Hrun).
    rewrite Hd in Hrun. destruct Hrun as (Hshown & -> & Hload).
    rewrite Hsync, Hload. cbn [fst snd events].
    split; [done|]. split; [by apply dispatch_None|]. split; [done|].
    split; [unfold modal_shown; cbn; by rewrite Hshown|]. split; [done|].
    by rewrite settle_none.
Qed.

(** What [loadModel] does when the parser throws, for any model format:
    the modal is left on screen; the handlers with a [try] alert, the
    G-code one lets the exception go. Where [JSON.parse] comes first
    and throws, the alert is of its exception. *)
Lemma loadModel_parse_failure (file : File) (parent : option nat) decoded e f :
  dispatch (name file) (getFileExtension env (name file)) = Some f →
  let r := load env (ReqModel file parent)
             {| decoded := decoded; parsed := Fails e |} initial in
  let thrown := match (if parses_json f then decoded else Normal tt) with
                | Throw e0 => e0
                | Normal _ => e
                end in
  modal_shown r.2 = Some true
  ∧ (guarded f = true →
       r.1 = Normal tt ∧ Alert (error_message env thrown) ∈ events r.2)
  ∧ (guarded f = false → r.1 = Throw e).
Proof.
  intros Hd r thrown. subst r thrown.
  destruct (model_load_cases env file parent
              {| decoded := decoded; parsed := Fails e |} false f Hd)
    as (m & noise & materials & Hshown & _ & _ & _ & _ & Hcases).
  cbn zeta in Hcases. cbn [Editor.decoded Editor.parsed] in Hcases.
  destruct f; cbn [parses_json guarded deferred loader_of] in Hcases |- *;
    destruct decoded as [[]|e0]; destruct Hcases as [-> _]; cbn [fst snd events];
    (split; [unfold modal_shown; cbn; by rewrite Hshown|]);
    (split; [|done]); try done; intros _; (split; [done|]);
    repeat first [ apply list_elem_of_here | apply list_elem_of_further
                 | (apply elem_of_app; right) ].
Qed.
End LoaderTheorems.

(** C4, at an input where the code departs from it: a file model.stl
    whose contents make the STL parser throw. The handler catches the
    exception and alerts, but nothing takes the modal down: it is still
    on screen, its counter at 1. *)
Theorem loadModel_stl_parse_failure :
  let r := Editor.load Sample.browser
             (Editor.ReqModel {| name := "model.stl"; path := None |} None)
             {| Editor.decoded := Normal tt;
                Editor.parsed := Editor.Fails "Error: bad file" |}
             Editor.initial in
  r.1 = Normal tt
  ∧ Editor.events r.2
    = [Editor.ReadAs Editor.AsArrayBuffer (Editor.ModelOnload Editor.STL None None);
       Editor.Parse "THREE.STLLoader";
       Editor.Alert (Editor.error_message Sample.browser "Error: bad file");
       Editor.Console "error" "nunuStudio: Error loading file"]
  ∧ Editor.modal_shown r.2 = Some true
  ∧ LoadingModal.counter <$> Editor.modal r.2 = Some 1.
Proof. vm_compute. done. Qed.

(** The same for a G-code file, whose handler has no [try]: the
    exception is not caught and nothing is shown to the user. *)
Example loadModel_gcode_parse_failure :
  let r := Editor.load Sample.browser
             (Editor.ReqModel {| name := "part.gcode"; path := None |} None)
             {| Editor.decoded := Normal tt;
                Editor.parsed := Editor.Fails "Error: bad file" |}
             Editor.initial in
  r.1 = Throw "Error: bad file"
  ∧ Editor.events r.2
    = [Editor.ReadAs Editor.AsText (Editor.ModelOnload Editor.GCode None None);
       Editor.Parse "THREE.GCodeLoader"]
  ∧ Editor.modal_shown r.2 = Some true.
Proof. vm_compute. done. Qed.

(** The branch by file name, with the extension taken after the last
    dot and lowered: a glb file goes to the glTF parser, a name ending
    in .assimp.json to the Assimp JSON one ahead of the plain json one,
    and the text file to none. *)
Example dispatch_by_name :
  let branch name := Editor.dispatch name (Sample.extension name) in
  branch "Scene.GLB" = Some Editor.GLTF
  ∧ branch "duck.assimp.json" = Some Editor.AssimpJSON
  ∧ branch "duck.json" = Some Editor.JSON
  ∧ branch "room.wrl" = Some Editor.VRML
  ∧ branch "notes.txt" = None.
Proof. vm_compute. done. Qed.

(** A file of no known format: the modal goes and the format is
    reported as unknown. *)
Example loadModel_unknown_format :
  let r := Editor.load Sample.browser
             (Editor.ReqModel {| name := "notes.txt"; path := None |} None)
             {| Editor.decoded := Normal tt; Editor.parsed := Editor.Delivers 7 [] |}
             Editor.initial in
  r.1 = Normal tt
  ∧ Editor.events r.2
    = [Editor.Alert "Unknown file format";
       Editor.Console "warn" "nunuStudio: Unknown file format"]
  ∧ Editor.modal_shown r.2 = Some false.
Proof. vm_compute. done. Qed.

Section RegisterTheorems.
Context {num : Type} `{JSNumber num}.
Import Editor.
Variable env : Env (num := num).

Ltac listed :=
  repeat first [ apply list_elem_of_here | apply list_elem_of_further ].

Ltac registered Hin :=
  repeat (apply elem_of_cons in Hin as [Hin|Hin];
          [first [ discriminate Hin | injection Hin as -> ->; cbn; listed ] |]);
  by apply elem_of_nil in Hin.

Ltac by_cases :=
  repeat case_decide; cbn;
  (split; [first [done | intros Hcb; exfalso; by eapply Hcb] |]);
  (split; [intros id kind Hin; registered Hin|]);
  (split; [intros _; split; [done|]; eexists _, _; listed |]);
  by intros ? ? ? ? ? [=].

Lemma not_created (l : list Event) id kind :
  forallb (λ ev, match ev with CreateResource _ _ => false | _ => true end) l = true →
  CreateResource id kind ∉ l.
Proof.
  induction l as [|ev l IH]; cbn; [intros _; apply not_elem_of_nil|].
  intros [Hev Hrest]%andb_true_iff.
  apply not_elem_of_cons. split; [|by apply IH].
  intros <-. done.
Qed.

Lemma not_created_noise (noise : list Event) :
  forallb about_materials noise = true →
  forallb (λ ev, match ev with CreateResource _ _ => false | _ => true end) noise = true.
Proof.
  induction noise as [|ev noise IH]; cbn; [done|].
  intros [Hev Hrest]%andb_true_iff. rewrite (IH Hrest). by destruct ev.
Qed.

Lemma not_created_added parent (l : list nat) :
  forallb (λ ev, match ev with CreateResource _ _ => false | _ => true end)
    ((λ o, AddActionEv (AddAction o parent)) <$> l) = true.
Proof. induction l as [|o l IH]; [done|]. cbn. exact IH. Qed.

(** C2, as the code has it. Take a load that goes well: what is decoded
    decodes and the parser has a result. Every resource created on the
    way has been passed to [Editor.addAction] in an [AddResourceAction]
    under the list of its kind, and for [loadTexture],
    [loadVideoTexture], [loadAudio], [loadFont] and [loadText] there is
    such a resource; for [loadAudio] and [loadFont] this needs the
    callback of the caller, which they call first, not to throw. A
    model file has the root of what its parser made added to the parent
    through the action system, or each of the children for a VRML or X
    file, and nothing else, once the parser has answered; the modal is
    then down. *)
Theorem loaders_register (r : Request) (i : Input) :
  decoded i = Normal tt →
  (∃ root children, parsed i = Delivers root children) →
  (∀ file e, r ≠ ReqAudio file (Some (Throw e)) ∧ r ≠ ReqFont file (Some (Throw e))) →
  let res := load env r i initial in
  let w := (settle env true i res.2).2 in
  ((∀ e, callback_of r ≠ Some (Throw e)) → res.1 = Normal tt)
  ∧ registers w
  ∧ (loads_resource r = true →
       w = res.2 ∧ ∃ id kind, CreateResource id kind ∈ events w)
  ∧ (∀ file parent f root children,
       r = ReqModel file parent →
       dispatch (name file) (getFileExtension env (name file)) = Some f →
       parsed i = Delivers root children →
       objects_added w
       = (λ o, (o, parent))
         <$> (if bool_decide (f = VRML ∨ f = X) then children else [root])
       ∧ modal_shown w = Some false).
Proof.
  intros Hdec (root & children & Hparsed) Hfirst.
  destruct r as [file onLoad|file onLoad|file onLoad|file onLoad|file|file parent];
    unfold registers.
  - unfold settle, callbacks, load. cbn -[loadTexture_onload].
    unfold loadTexture_onload. rewrite Hdec.
    destruct onLoad as [[[]|e]|]; by_cases.
  - unfold settle, callbacks, load. cbn.
    destruct onLoad as [[[]|e]|]; by_cases.
  - unfold settle, callbacks, load. cbn.
    destruct onLoad as [[[]|e]|];
      [|by destruct (proj1 (Hfirst file e))|]; by_cases.
  - unfold settle, callbacks, load, start, loadFont.
    destruct (decide (getFileExtension env (name file) = "json")) as [Hj|Hj];
      cbn -[loadFont_onload]; unfold loadFont_onload; rewrite Hdec;
      destruct onLoad as [[[]|e]|];
      try (by destruct (proj2 (Hfirst file e))); by_cases.
  - unfold settle, callbacks, load. cbn. by_cases.
  - cbn zeta. cbn [callback_of loads_resource].
    destruct (dispatch (name file) (getFileExtension env (name file))) as [f|] eqn:Hd.
    + destruct (model_load_cases env file parent i true f Hd)
        as (m & noise & materials & Hshown & Hgone & Hnoise & _ & _ & Hcases).
      cbn zeta in Hcases. rewrite Hdec, Hparsed in Hcases.
      assert (Hnormal : (if parses_json f then Normal tt else Normal tt)
                        = Normal tt :> completion unit) by (by destruct f).
      rewrite Hnormal in Hcases.
      assert (Hw : ∃ l,
        (load env (ReqModel file parent) i initial).1 = Normal tt
        ∧ (settle env true i (load env (ReqModel file parent) i initial).2).2
          = {| modal := Some (LoadingModal.destroy m).2; next := 0;
               events := (noise ++ [ReadAs (read_mode f)
                                      (ModelOnload f parent materials)])
                         ++ l ++ ((λ o, AddActionEv (AddAction o parent))
                                  <$> added f root children) |}
        ∧ forallb (λ ev, match ev with
                         | CreateResource _ _ | AddActionEv _ => false
                         | _ => true
                         end) l = true).
      { destruct (deferred f) eqn:Hdef; destruct Hcases as [Hl Hs];
          rewrite Hs, Hl; cbn [fst snd].
        - exists ((if parses_json f then [Parse "JSON"] else [])
                  ++ [Parse (loader_of f);
                      Awaits (ModelCallback f parent root children)]).
          split; [done|]. split; [by rewrite <- !app_assoc|]. by destruct f.
        - exists ((if parses_json f then [Parse "JSON"] else [])
                  ++ [Parse (loader_of f)]).
          split; [done|]. split; [by rewrite <- !app_assoc|]. by destruct f. }
      destruct Hw as (l & Hres & -> & Hl). clear Hcases.
      split; [done|]. split; [|split; [done|]].
      * intros id kind Hin. exfalso. revert Hin. apply not_created.
        cbn [events]. rewrite !forallb_app, (not_created_noise _ Hnoise), not_created_added.
        cbn. rewrite andb_true_r.
        clear -Hl. induction l as [|ev l IH]; [done|]. cbn in Hl |- *.
        apply andb_true_iff in Hl as [Hev Hl]. rewrite (IH Hl).
        by destruct ev.
      * intros file' parent' f' root' children' [= <- <-] Hd' Hp'.
        rewrite Hd in Hd'. injection Hd' as <-.
        rewrite Hparsed in Hp'. injection Hp' as <- <-.
        split; [|unfold modal_shown; cbn [modal fmap option_fmap option_map];
                  by rewrite Hgone].
        unfold objects_added. cbn [events].
        rewrite !omap_app, (objects_noise _ Hnoise), objects_added_added.
        assert (Hnone : omap (λ ev, match ev with
                                    | AddActionEv (AddAction o parent) => Some (o, parent)
                                    | _ => None
                                    end) l = []).
        { clear -Hl. induction l as [|ev l IH]; [done|]. cbn in Hl |- *.
          apply andb_true_iff in Hl as [Hev Hl]. rewrite (IH Hl).
          by destruct ev. }
        rewrite Hnone. by destruct f.
    + destruct (load_model_run env file parent i) as (m & evs & _ & Hrun).
      rewrite Hd in Hrun. destruct Hrun as (_ & -> & ->).
      rewrite settle_none by done. cbn [fst snd events].
      split; [done|]. split; [|split; [done|]].
      * intros id kind Hin. registered Hin.
      * intros file' parent' f' root' children' [= <- <-] Hd'. congruence.
Qed.
End RegisterTheorems.

(** A texture file in the browser, no callback: the image and the
    texture are both registered. *)
Lemma loaders_register_witness :
  Editor.events
    (Editor.load Sample.browser
       (Editor.ReqTexture {| name := "wood.png"; path := None |} None)
       {| Editor.decoded := Normal tt; Editor.parsed := Editor.Delivers 0 [] |}
       Editor.initial).2
  = [Editor.ReadAs Editor.AsArrayBuffer (Editor.TextureOnload "wood.png" "png" None);
     Editor.CreateResource 0 Editor.Image;
     Editor.CreateResource 1 Editor.Texture;
     Editor.SetName 1 "wood.png";
     Editor.AddActionEv (Editor.AddResourceAction 0 "images");
     Editor.AddActionEv (Editor.AddResourceAction 1 "textures")]
  ∧ Editor.registers
      (Editor.settle Sample.browser true
         {| Editor.decoded := Normal tt; Editor.parsed := Editor.Delivers 0 [] |}
         (Editor.load Sample.browser
            (Editor.ReqTexture {| name := "wood.png"; path := None |} None)
            {| Editor.decoded := Normal tt; Editor.parsed := Editor.Delivers 0 [] |}
            Editor.initial).2).2.
Proof.
  split; [reflexivity|].
  refine (proj1 (proj2 (loaders_register Sample.browser
                          (Editor.ReqTexture {| name := "wood.png"; path := None |} None)
                          {| Editor.decoded := Normal tt;
                             Editor.parsed := Editor.Delivers 0 [] |}
                          eq_refl _ _))).
  - by exists 0%nat, [].
  - intros file e. split; discriminate.
Defined.

(** C2 as stated fails for [loadAudio] (and [loadFont]) when the caller
    hands in a callback that throws: the file song.ogg is read and the
    audio resource made of it, the callback is called with it and
    throws, and the resource is never passed to [Editor.addAction]. *)
Lemma loaders_register_not_every_load :
  Editor.events
    (Editor.load Sample.browser
       (Editor.ReqAudio {| name := "song.ogg"; path := None |}
          (Some (Throw "Error: no player")))
       {| Editor.decoded := Normal tt; Editor.parsed := Editor.Delivers 0 [] |}
       Editor.initial).2
  = [Editor.ReadAs Editor.AsArrayBuffer
       (Editor.AudioOnload "song.ogg" (Some (Throw "Error: no player")));
     Editor.CreateResource 0 Editor.Audio;
     Editor.SetName 0 "song.ogg";
     Editor.OnLoad (Some 0%nat)]
  ∧ ¬ Editor.registers
        (Editor.load Sample.browser
           (Editor.ReqAudio {| name := "song.ogg"; path := None |}
              (Some (Throw "Error: no player")))
           {| Editor.decoded := Normal tt; Editor.parsed := Editor.Delivers 0 [] |}
           Editor.initial).2.
Proof.
  split; [reflexivity|].
  intros Hreg.
  specialize (Hreg 0%nat Editor.Audio
                ltac:(apply list_elem_of_further, list_elem_of_here)).
  cbn in Hreg.
  repeat (apply elem_of_cons in Hreg as [Hreg|Hreg]; [discriminate Hreg|]).
  by apply elem_of_nil in Hreg.
Qed.

(** A VRML file with three children: each is added. *)
Example loadModel_vrml_children :
  Editor.events
    (Editor.load Sample.browser
       (Editor.ReqModel {| name := "room.wrl"; path := None |} (Some 9%nat))
       {| Editor.decoded := Normal tt; Editor.parsed := Editor.Delivers 1 [2; 3; 4]%nat |}
       Editor.initial).2
  = [Editor.ReadAs Editor.AsText (Editor.ModelOnload Editor.VRML (Some 9%nat) None);
     Editor.Parse "THREE.VRMLLoader";
     Editor.AddActionEv (Editor.AddAction 2 (Some 9%nat));
     Editor.AddActionEv (Editor.AddAction 3 (Some 9%nat));
     Editor.AddActionEv (Editor.AddAction 4 (Some 9%nat))].
Proof. reflexivity. Qed.

(** A glTF file: the handler hands the parser a function and returns
    with the modal up; the object is added and the modal taken down
    when the parser calls back, and never if it does not. *)
Example loadModel_gltf_answer :
  let i := {| Editor.decoded := Normal tt; Editor.parsed := Editor.Delivers 5 [] |} in
  let w := (Editor.load Sample.browser
              (Editor.ReqModel {| name := "Scene.GLB"; path := None |} None)
              i Editor.initial).2 in
  Editor.events w
  = [Editor.ReadAs Editor.AsArrayBuffer (Editor.ModelOnload Editor.GLTF None None);
     Editor.Parse "THREE.GLTFLoader";
     Editor.Awaits (Editor.ModelCallback Editor.GLTF None 5 [])]
  ∧ Editor.modal_shown w = Some true
  ∧ Editor.events (Editor.settle Sample.browser true i w).2
    = Editor.events w ++ [Editor.AddActionEv (Editor.AddAction 5 None)]
  ∧ Editor.modal_shown (Editor.settle Sample.browser true i w).2 = Some false
  ∧ (Editor.settle Sample.browser false i w).2 = w.
Proof. by vm_compute. Qed.

(** An Assimp JSON file that is no JSON: [JSON.parse] throws, the
    Assimp parser is never called, and the modal stays up. *)
Example loadModel_assimp_json_failure :
  let w := (Editor.load Sample.browser
              (Editor.ReqModel {| name := "duck.assimp.json"; path := None |} None)
              {| Editor.decoded := Throw "SyntaxError: Unexpected token <";
                 Editor.parsed := Editor.Delivers 5 [] |}
              Editor.initial).2 in
  Editor.events w
  = [Editor.ReadAs Editor.AsText (Editor.ModelOnload Editor.AssimpJSON None None);
     Editor.Parse "JSON";
     Editor.Alert (Editor.error_message Sample.browser
                     "SyntaxError: Unexpected token <");
     Editor.Console "error" "nunuStudio: Error loading file"]
  ∧ Editor.modal_shown w = Some true.
Proof. by vm_compute. Qed.

(** * Further properties *)

(** ** ArraybufferUtils: sizes, padding, copies *)

Section ArraybufferUtilsMore.
Import ArraybufferUtils.

Lemma fromBase64_body_length str i j view :
  length (fromBase64_body str i j view) = length view.
Proof.
  unfold fromBase64_body, view_set.
  repeat match goal with |- context [decide ?P] => destruct (decide P) end;
    by rewrite ?length_insert.
Qed.

Lemma fromBase64_loop_length fuel str i j view :
  length (fromBase64_loop fuel str i j view) = length view.
Proof.
  revert i j view. induction fuel as [|fuel IH]; intros i j view; [done|].
  cbn [fromBase64_loop]. destruct (decide _); [|done].
  by rewrite IH, fromBase64_body_length.
Qed.

(** X1. Whatever the string, padded or not, valid or not, the buffer
    [fromBase64] returns has three quarters of the string's length,
    rounded down. *)
Theorem fromBase64_length (str : list Z) :
  length (fromBase64 str) = (3 * length str / 4)%nat.
Proof.
  unfold fromBase64. rewrite fromBase64_loop_length.
  unfold Uint8Array_new. apply length_replicate.
Qed.

(** Past the last group a turn more or less makes no difference. *)
Lemma fromBase64_loop_enough fuel extra str i j view :
  (3 * length str ≤ 4 * i + 12 * fuel)%nat →
  fromBase64_loop (fuel + extra) str i j view = fromBase64_loop fuel str i j view.
Proof.
  revert i j view. induction fuel as [|fuel IH]; intros i j view Hfuel.
  - cbn [Nat.add fromBase64_loop]. destruct extra; [done|].
    cbn [fromBase64_loop]. destruct (decide _); [lia|done].
  - cbn [Nat.add fromBase64_loop]. destruct (decide _); [|done].
    apply IH. lia.
Qed.

(** The loop of [fromBase64] is over within as many turns as the
    string has characters: letting it run longer changes nothing. *)
Theorem fromBase64_terminates (str : list Z) (extra : nat) :
  fromBase64_loop (length str + extra) str 0 0
    (Uint8Array_new (3 * length str / 4))
  = fromBase64 str.
Proof. unfold fromBase64. apply fromBase64_loop_enough. lia. Qed.

Lemma indexOf_pad : indexOf encoding (Some pad) = -1.
Proof. reflexivity. Qed.

Lemma lor_minus_one a : ToUint8 (Z.lor a (-1)) = 255.
Proof. by rewrite Z.lor_m1_r. Qed.

(** The turn of the loop on a last group of one byte. *)
Lemma fromBase64_body_one pre x (i : nat) view :
  is_byte x →
  fromBase64_body (pre ++ [b64char (sextet0 x); b64char (sextet1 x 0); pad; pad])
    i (length pre) view
  = <[(i + 2)%nat := 255]> (<[(i + 1)%nat := 255]> (<[i := x]> view)).
Proof.
  intros Hx. assert (H0 : is_byte 0) by (unfold is_byte; lia).
  destruct (sextet_ranges x 0 0 Hx H0 H0) as (Hs0 & Hs1 & _ & _).
  unfold fromBase64_body, charAt.
  rewrite (lookup_app_zero pre), !lookup_app_plus.
  cbn [lookup list_lookup].
  rewrite !indexOf_b64char by done. rewrite indexOf_pad.
  destruct (decide (-1 ≠ 64)); [|lia].
  unfold view_set. rewrite decode_first by done.
  change (Z.shiftr (-1) 2) with (-1). by rewrite !lor_minus_one.
Qed.

(** The turn of the loop on a last group of two bytes. *)
Lemma fromBase64_body_two pre x y (i : nat) view :
  is_byte x → is_byte y →
  fromBase64_body
    (pre ++ [b64char (sextet0 x); b64char (sextet1 x y); b64char (sextet2 y 0); pad])
    i (length pre) view
  = <[(i + 2)%nat := 255]> (<[(i + 1)%nat := y]> (<[i := x]> view)).
Proof.
  intros Hx Hy. assert (H0 : is_byte 0) by (unfold is_byte; lia).
  destruct (sextet_ranges x y 0 Hx Hy H0) as (Hs0 & Hs1 & Hs2 & _).
  unfold fromBase64_body, charAt.
  rewrite (lookup_app_zero pre), !lookup_app_plus.
  cbn [lookup list_lookup].
  rewrite !indexOf_b64char by done. rewrite indexOf_pad.
  destruct (decide (sextet2 y 0 ≠ 64)); [|lia].
  destruct (decide (-1 ≠ 64)); [|lia].
  unfold view_set. rewrite decode_first, (decode_second x y 0) by done.
  by rewrite lor_minus_one.
Qed.

Lemma fromBase64_loop_padded groups :
  whole_groups groups →
  ∀ tail fuel pre done view,
    last_group tail →
    (length groups + length (padded tail) ≤ 3 * fuel)%nat →
    (4 * length done = 3 * length pre)%nat →
    length view = (length done + length groups + length (padded tail))%nat →
    take (length done) view = done →
    fromBase64_loop fuel (pre ++ base64_encode (groups ++ tail))
      (length done) (length pre) view
    = done ++ groups ++ padded tail.
Proof.
  induction 1 as [|x y z rest Hx Hy Hz Hrest IH];
    intros tail fuel pre done view Htail Hfuel Hij Hlen Htake.
  - cbn [app].
    destruct Htail as [|x Hx|x y Hx Hy]; cbn [base64_encode padded] in *.
    + rewrite !app_nil_r in *. cbn [length] in Hlen.
      rewrite !Nat.add_0_r in Hlen. rewrite <- Hlen, firstn_all in Htake.
      subst view. destruct fuel as [|fuel]; [done|]. cbn [fromBase64_loop].
      destruct (decide _) as [Hlt|]; [lia|done].
    + destruct fuel as [|fuel]; [cbn [length] in Hfuel; lia|].
      cbn [fromBase64_loop].
      destruct (decide _) as [_|Hge];
        [|rewrite length_app in Hge; cbn [length] in Hge; lia].
      rewrite fromBase64_body_one by done.
      assert (Hview : <[(length done + 2)%nat:=255]>
                        (<[(length done + 1)%nat:=255]> (<[length done:=x]> view))
                      = done ++ [x; 255; 255]).
      { etransitivity;
          [symmetry; apply (take_ge _ (length done + 3));
           rewrite !length_insert; cbn [length] in Hlen; lia|].
        rewrite take_three_inserts by (cbn [length] in Hlen; lia).
        by rewrite Htake. }
      rewrite Hview.
      destruct fuel as [|fuel]; [done|]. cbn [fromBase64_loop].
      destruct (decide _) as [Hlt|]; [|done].
      rewrite length_app in Hlt. cbn [length] in Hlt. lia.
    + destruct fuel as [|fuel]; [cbn [length] in Hfuel; lia|].
      cbn [fromBase64_loop].
      destruct (decide _) as [_|Hge];
        [|rewrite length_app in Hge; cbn [length] in Hge; lia].
      rewrite fromBase64_body_two by done.
      assert (Hview : <[(length done + 2)%nat:=255]>
                        (<[(length done + 1)%nat:=y]> (<[length done:=x]> view))
                      = done ++ [x; y; 255]).
      { etransitivity;
          [symmetry; apply (take_ge _ (length done + 3));
           rewrite !length_insert; cbn [length] in Hlen; lia|].
        rewrite take_three_inserts by (cbn [length] in Hlen; lia).
        by rewrite Htake. }
      rewrite Hview.
      destruct fuel as [|fuel]; [done|]. cbn [fromBase64_loop].
      destruct (decide _) as [Hlt|]; [|done].
      rewrite length_app in Hlt. cbn [length] in Hlt. lia.
  - destruct fuel as [|fuel]; [cbn [length] in Hfuel; lia|].
    cbn [app fromBase64_loop base64_encode].
    destruct (decide _) as [_|Hge];
      [|rewrite length_app in Hge; cbn [length] in Hge; lia].
    rewrite fromBase64_body_group by done.
    replace (pre ++ b64char (sextet0 x) :: b64char (sextet1 x y)
                 :: b64char (sextet2 y z) :: b64char (sextet3 z)
                 :: base64_encode (rest ++ tail))
      with ((pre ++ [b64char (sextet0 x); b64char (sextet1 x y);
                     b64char (sextet2 y z); b64char (sextet3 z)])
            ++ base64_encode (rest ++ tail))
      by (by rewrite <- app_assoc).
    replace (length done + 3)%nat with (length (done ++ [x; y; z]))
      by (rewrite length_app; done).
    replace (length pre + 4)%nat
      with (length (pre ++ [b64char (sextet0 x); b64char (sextet1 x y);
                            b64char (sextet2 y z); b64char (sextet3 z)]))
      by (rewrite length_app; done).
    rewrite (IH tail); try done.
    + by rewrite <- app_assoc.
    + cbn [length] in Hfuel. lia.
    + rewrite !length_app. cbn [length]. lia.
    + rewrite !length_insert, length_app. cbn [length] in *. lia.
    + rewrite length_app. cbn [length].
      rewrite take_three_inserts by (cbn [length] in Hlen; lia).
      by rewrite Htake.
Qed.

(** Any list of bytes is whole groups followed by a last group. *)
Lemma bytes_groups (bytes : list Z) :
  Forall is_byte bytes →
  ∃ groups tail, bytes = groups ++ tail ∧ whole_groups groups ∧ last_group tail.
Proof.
  intros Hall.
  assert (Hgen : ∀ n (l : list Z), (length l < n)%nat → Forall is_byte l →
            ∃ groups tail, l = groups ++ tail ∧ whole_groups groups ∧ last_group tail).
  { clear. induction n as [|n IH]; intros l Hn Hl; [lia|].
    destruct l as [|x [|y [|z l]]].
    - exists [], []. repeat split; constructor.
    - exists [], [x]. inversion Hl; subst. repeat split; by constructor.
    - exists [], [x; y]. inversion Hl as [|? ? ? Hl']; subst.
      inversion Hl'; subst. repeat split; by constructor.
    - inversion Hl as [|? ? ? Hl1]; subst. inversion Hl1 as [|? ? ? Hl2]; subst.
      inversion Hl2 as [|? ? ? Hl3]; subst.
      destruct (IH l) as (groups & tail & -> & Hg & Ht); [cbn in Hn; lia|done|].
      exists (x :: y :: z :: groups), tail. repeat split; [|done]. by constructor. }
  by apply (Hgen (S (length bytes))); [lia|].
Qed.

Lemma base64_encode_length_padded groups tail :
  whole_groups groups → last_group tail →
  (3 * length (base64_encode (groups ++ tail))
   = 4 * (length groups + length (padded tail)))%nat.
Proof.
  induction 1 as [|x y z rest _ _ _ _ IH]; intros Htail.
  - destruct Htail; cbn; lia.
  - cbn [app base64_encode length]. specialize (IH Htail). lia.
Qed.

Lemma fromBase64_encode_groups_tail (groups tail : list Z) :
  whole_groups groups → last_group tail →
  fromBase64 (base64_encode (groups ++ tail)) = groups ++ padded tail.
Proof.
  intros Hg Ht. pose proof (base64_encode_length_padded _ _ Hg Ht) as Henc.
  unfold fromBase64.
  apply (fromBase64_loop_padded groups Hg tail _ [] [] _ Ht).
  - lia.
  - done.
  - unfold Uint8Array_new. rewrite length_replicate.
    cbn [length Nat.add]. symmetry. apply Nat.div_unique_exact; lia.
  - done.
Qed.

(** X2. What [fromBase64] makes of the padded Base64 encoding of any
    bytes: the bytes themselves, whole groups of three first, and the
    last group, when it is one or two bytes short, filled up to three
    with bytes 255. *)
Theorem fromBase64_encode_padded (groups tail : list Z) :
  whole_groups groups → last_group tail →
  fromBase64 (base64_encode (groups ++ tail)) = groups ++ padded tail.
Proof. apply fromBase64_encode_groups_tail. Qed.

Lemma fromBuffer_loop_spec fuel buffer i view :
  length view = length buffer →
  (i + fuel)%nat = length buffer →
  fromBuffer_loop fuel buffer i view = take i view ++ (ToUint8 <$> drop i buffer).
Proof.
  revert i view. induction fuel as [|fuel IH]; intros i view Hlen Hi; simpl.
  - rewrite Nat.add_0_r in Hi. subst i.
    rewrite drop_all, <- Hlen, firstn_all. by rewrite app_nil_r.
  - destruct (decide (i < length buffer)%nat) as [Hlt|]; [|lia].
    destruct (lookup_lt_is_Some_2 buffer i Hlt) as [c Hc].
    rewrite IH; [|unfold view_set; rewrite length_insert; lia|lia].
    unfold view_set. rewrite Hc. simpl.
    rewrite (take_S_r _ i (ToUint8 c)) by (apply list_lookup_insert_eq; lia).
    rewrite take_insert_ge by lia.
    rewrite (drop_S buffer c i Hc), fmap_cons.
    by rewrite <- app_assoc.
Qed.

(** X3. [fromBuffer] copies: for a buffer of bytes the result has the
    same bytes in the same order. *)
Theorem fromBuffer_copy (buffer : list Z) :
  Forall is_byte buffer → fromBuffer buffer = buffer.
Proof.
  intros Hall. unfold fromBuffer.
  rewrite fromBuffer_loop_spec;
    [|unfold Uint8Array_new; by rewrite length_replicate|lia].
  rewrite take_0, drop_0, app_nil_l.
  induction Hall as [|x l Hx _ IH]; [done|].
  rewrite fmap_cons. f_equal; [|exact IH].
  unfold ToUint8, is_byte in *. by apply Z.mod_small.
Qed.
End ArraybufferUtilsMore.

Lemma fromBase64_encode_padded_witness :
  ArraybufferUtils.whole_groups [77; 97; 110]
  ∧ ArraybufferUtils.last_group [65]
  ∧ ArraybufferUtils.fromBase64 (ArraybufferUtils.base64_encode ([77; 97; 110] ++ [65]))
    = [77; 97; 110] ++ ArraybufferUtils.padded [65].
Proof.
  assert (Hg : ArraybufferUtils.whole_groups [77; 97; 110])
    by (constructor; unfold ArraybufferUtils.is_byte; try lia; constructor).
  assert (Ht : ArraybufferUtils.last_group [65])
    by (constructor; unfold ArraybufferUtils.is_byte; lia).
  split; [exact Hg|]. split; [exact Ht|].
  exact (fromBase64_encode_padded [77; 97; 110] [65] Hg Ht).
Defined.

Lemma fromBuffer_copy_witness :
  Forall ArraybufferUtils.is_byte [0; 127; 255]
  ∧ ArraybufferUtils.fromBuffer [0; 127; 255] = [0; 127; 255].
Proof.
  assert (Hb : Forall ArraybufferUtils.is_byte [0; 127; 255])
    by (repeat constructor; unfold ArraybufferUtils.is_byte; lia).
  split; [exact Hb|]. exact (fromBuffer_copy [0; 127; 255] Hb).
Defined.


(** ** Element: anchors and visibility *)

Section ElementMore.
Context {num : Type} `{JSNumber num}.
Import Element.
Local Abbreviation element := (Element.t (num := num)).

Lemma setMode_clears (e : element) (mode : Z) attribute :
  attribute ∈ ["top"; "bottom"; "left"; "right"] →
  style (setMode mode e) !! attribute = None.
Proof.
  intros Hin. unfold setMode. cbn.
  repeat (apply elem_of_cons in Hin as [->|Hin];
          [repeat first [ apply lookup_delete_eq | rewrite lookup_delete_ne by done ]|]).
  by apply elem_of_nil in Hin.
Qed.

(** X4. After [setMode(mode)] and [updatePosition()] the element carries
    the two anchors of the mode and no others: top or bottom, at the
    stored y, and left or right, at the stored x, wherever the
    coordinate is a finite number; the opposite two are unset, whatever
    anchors the element had before. A coordinate that is NaN or
    infinite is no length to the style, and its anchor stays unset as
    [setMode] left it. *)
Theorem setMode_updatePosition_anchors (e : element) (mode : Z) :
  let e' := updatePosition None (setMode mode e) in
  let anchored attribute n :=
    style e' !! attribute = if isFinite n then Some (px n) else None in
  _mode e' = mode
  ∧ (mode = TOP_LEFT ∨ mode = TOP_RIGHT →
       anchored "top" (y (position e)) ∧ style e' !! "bottom" = None)
  ∧ (¬ (mode = TOP_LEFT ∨ mode = TOP_RIGHT) →
       anchored "bottom" (y (position e)) ∧ style e' !! "top" = None)
  ∧ (mode = TOP_LEFT ∨ mode = BOTTOM_LEFT →
       anchored "left" (x (position e)) ∧ style e' !! "right" = None)
  ∧ (¬ (mode = TOP_LEFT ∨ mode = BOTTOM_LEFT) →
       anchored "right" (x (position e)) ∧ style e' !! "left" = None).
Proof.
  intros e' anchored. subst anchored e'. cbn beta.
  rewrite (updatePosition_by_mode (setMode mode e) None mode eq_refl).
  assert (Hm : _mode (setMode mode e) = mode) by done.
  assert (Hp : position (setMode mode e) = position e) by done.
  pose proof (setMode_clears e mode) as Hclear.
  assert (Htop := Hclear "top" ltac:(by apply (bool_decide_unpack _))).
  assert (Hbottom := Hclear "bottom" ltac:(by apply (bool_decide_unpack _))).
  assert (Hleft := Hclear "left" ltac:(by apply (bool_decide_unpack _))).
  assert (Hright := Hclear "right" ltac:(by apply (bool_decide_unpack _))).
  clear Hclear. rewrite Hp.
  revert Hm Htop Hbottom Hleft Hright.
  generalize (setMode mode e). intros e1 Hm Htop Hbottom Hleft Hright.
  split.
  { repeat match goal with
    | |- context [set_offset ?a ?n ?e0] =>
        destruct (set_offset_keeps a n e0) as (_ & _ & _ & _ & ->)
    end. exact Hm. }
  destruct (decide (mode = TOP_LEFT ∨ mode = TOP_RIGHT)) as [Hv|Hv];
    destruct (decide (mode = TOP_LEFT ∨ mode = BOTTOM_LEFT)) as [Hh|Hh];
    repeat first [ rewrite bool_decide_eq_true_2 by done
                 | rewrite bool_decide_eq_false_2 by done ];
    repeat split; try (intros; exfalso; tauto); try intros _;
    repeat first [ rewrite style_set_offset_eq
                 | rewrite style_set_offset_ne by done ];
    rewrite ?Htop, ?Hbottom, ?Hleft, ?Hright; done.
Qed.

(** X5. [updatePosition(mode)] on its own never takes a style property
    away, so it leaves the anchors of the mode before in place: an
    element with a finite position that is laid out top-left and then
    positioned bottom-right through [updatePosition(BOTTOM_RIGHT)] has
    all four of top, bottom, left and right set. *)
Theorem updatePosition_keeps_old_anchors (e : element) :
  let e' := updatePosition (Some BOTTOM_RIGHT) (updatePosition (Some TOP_LEFT) e) in
  (∀ attribute mode (e0 : element),
     is_Some (style e0 !! attribute) →
     is_Some (style (updatePosition mode e0) !! attribute))
  ∧ (isFinite (x (position e)) = true → isFinite (y (position e)) = true →
     style e' !! "top" = Some (px (y (position e)))
     ∧ style e' !! "left" = Some (px (x (position e)))
     ∧ style e' !! "bottom" = Some (px (y (position e)))
     ∧ style e' !! "right" = Some (px (x (position e)))).
Proof.
  split.
  - intros attribute mode e0 Hsome.
    rewrite (updatePosition_by_mode e0 mode _ eq_refl).
    assert (Hstep : ∀ a n (e1 : element),
              is_Some (style e1 !! attribute) →
              is_Some (style (set_offset a n e1) !! attribute)).
    { intros a n e1 He1. destruct (decide (a = attribute)) as [->|Hne].
      - rewrite style_set_offset_eq. destruct (isFinite n); [by eexists|done].
      - by rewrite style_set_offset_ne. }
    do 2 apply Hstep. by destruct mode.
  - intros Hx Hy.
    rewrite (updatePosition_by_mode (updatePosition (Some TOP_LEFT) e)
               (Some BOTTOM_RIGHT) BOTTOM_RIGHT eq_refl).
    rewrite (updatePosition_by_mode e (Some TOP_LEFT) TOP_LEFT eq_refl).
    repeat first
      [ rewrite bool_decide_eq_true_2 by (by left)
      | rewrite bool_decide_eq_false_2
          by (unfold TOP_LEFT, TOP_RIGHT, BOTTOM_LEFT, BOTTOM_RIGHT; lia) ].
    assert (Hpos : ∀ a n (e1 : element), position (set_offset a n e1) = position e1)
      by (intros a n e1; by destruct (set_offset_keeps a n e1) as (_ & _ & _ & -> & _)).
    cbn [position with_mode]. rewrite !Hpos. cbn [position with_mode].
    assert (Hstyle : ∀ m (e1 : element), style (with_mode m e1) = style e1) by done.
    repeat split;
      repeat first [ rewrite Hstyle
                   | rewrite style_set_offset_eq
                   | rewrite style_set_offset_ne by done ];
      rewrite ?Hx, ?Hy; done.
Qed.
End ElementMore.

(** ** LoadingModal: matching shows and hides *)

Section LoadingModalMore.
Context {num : Type} `{JSNumber num}.
Import LoadingModal.
Local Abbreviation modal := (LoadingModal.t (num := num)).

Lemma run_calls_app calls1 calls2 (m : modal) :
  run_calls (calls1 ++ calls2) m = run_calls calls2 (run_calls calls1 m).
Proof. revert m. induction calls1 as [|c calls1 IH]; intros m; [done|]. apply IH. Qed.

Lemma shows_run (n : nat) (m : modal) p :
  Element.parent (element m) = Some p → Element.visible (element m) = true →
  0 <= counter m →
  let m' := run_calls (replicate n CallShow) m in
  counter m' = counter m + Z.of_nat n
  ∧ Element.parent (element m') = Some p
  ∧ Element.visible (element m') = true.
Proof.
  revert m. induction n as [|n IH]; intros m Hp Hv Hc; cbn [replicate run_calls run_call].
  - repeat split; [lia|done..].
  - destruct (show_run m p Hp) as (m1 & -> & Hc1 & Hp1 & Hone & Hother).
    cbn [snd].
    assert (Hv1 : Element.visible (element m1) = true).
    { destruct (decide (counter m1 = 1)) as [H1|H1].
      - by destruct (Hone H1).
      - by rewrite (Hother H1). }
    destruct (IH m1 Hp1 Hv1) as (Hc' & Hp' & Hv'); [lia|].
    repeat split; [lia|done..].
Qed.

Lemma hides_run (k : nat) (m : modal) p :
  Element.parent (element m) = Some p → Element.visible (element m) = true →
  0 <= counter m →
  let m' := run_calls (replicate k (CallHide None)) m in
  counter m' = Z.max 0 (counter m - Z.of_nat k)
  ∧ Element.parent (element m') = Some p
  ∧ (Z.of_nat k < counter m → Element.visible (element m') = true)
  ∧ (counter m <= Z.of_nat k → (0 < k)%nat → Element.visible (element m') = false).
Proof.
  revert m. induction k as [|k IH]; intros m Hp Hv Hc; cbn [replicate run_calls run_call].
  - repeat split; [lia|done|done|lia].
  - destruct (hide_run m None) as (m1 & -> & Hp1 & Hyes & Hno). cbn [snd].
    destruct (decide (counter m - 1 < 1 ∨ @None bool = Some true)) as [Hd|Hd].
    + destruct (Hyes Hd) as (Hc1 & Hv1 & _).
      assert (Hlow : counter m <= 1) by (destruct Hd; [lia|done]).
      assert (Hrest : ∀ j (m2 : modal),
                counter m2 = 0 → Element.visible (element m2) = false →
                Element.parent (element m2) = Some p →
                let m' := run_calls (replicate j (CallHide None)) m2 in
                counter m' = 0 ∧ Element.parent (element m') = Some p
                ∧ Element.visible (element m') = false).
      { clear. induction j as [|j IHj]; intros m2 Hc2 Hv2 Hp2;
          cbn [replicate run_calls run_call]; [done|].
        destruct (hide_run m2 None) as (m3 & -> & Hp3 & Hyes3 & _). cbn [snd].
        destruct Hyes3 as (Hc3 & Hv3 & _); [left; lia|].
        apply IHj; [done|done|congruence]. }
      destruct (Hrest k m1 Hc1 Hv1) as (Hc' & Hp' & Hv'); [congruence|].
      repeat split; [lia|done|lia|done].
    + destruct (Hno Hd) as (Hc1 & He1).
      assert (Hhigh : 2 <= counter m) by lia.
      destruct (IH m1) as (Hc' & Hp' & Hlt & Hge);
        [congruence|by rewrite He1|lia|].
      repeat split; [lia|done|intros; apply Hlt; lia|intros; apply Hge; lia].
Qed.

(** X7. Shows and hides pair up. After [n] calls of [show] and then [k]
    of [hide()] on a new modal with a parent, the counter is [n - k], or
    0 if that is negative; the modal is on screen as long as fewer hides
    than shows were made, and off once the hides have caught up. *)
Theorem shows_then_hides (p : Element.Parent) (n k : nat) :
  let m := run_calls (replicate n CallShow ++ replicate k (CallHide None))
             (new (Some p)) in
  counter m = Z.max 0 (Z.of_nat n - Z.of_nat k)
  ∧ ((k < n)%nat → shown m = true)
  ∧ ((n ≤ k)%nat → (0 < k)%nat → shown m = false).
Proof.
  intros m. subst m. rewrite run_calls_app.
  destruct (shows_run n (new (Some p)) p) as (Hc & Hp & Hv); [done..|].
  cbn [counter new] in Hc.
  destruct (hides_run k (run_calls (replicate n CallShow) (new (Some p))) p)
    as (Hc' & Hp' & Hlt & Hge); [done|done|lia|].
  unfold shown. rewrite Hp'. cbn.
  repeat split.
  - lia.
  - intros Hkn. apply Hlt. lia.
  - intros Hnk Hk. apply Hge; lia.
Qed.

(** X8. A destroyed modal is off screen with its counter at 0, and
    [show] cannot bring it back: the call sets the counter to 1 and then
    throws on the missing parent, the modal staying off screen. *)
Theorem destroy_then_show (m : modal) :
  let m1 := (destroy m).2 in
  (destroy m).1 = Normal tt
  ∧ counter m1 = 0 ∧ shown m1 = false
  ∧ (show m1).1 = Throw "TypeError: Cannot read property 'size' of null"
  ∧ counter (show m1).2 = 1
  ∧ shown (show m1).2 = false.
Proof.
  intros m1. subst m1.
  destruct (destroy_run m) as (m1 & -> & Hp & Hc & Hs). cbn [fst snd].
  split; [done|]. split; [done|]. split; [done|].
  unfold show, bind, modify, gets. cbn. rewrite Hc. cbn.
  unfold bind, modify, updateInterface, bind, modify, gets. cbn.
  unfold updateSize, bind, gets, modify, throw.
  destruct (decide (0 + 1 = 1)) as [_|]; [|lia].
  cbn. rewrite Hp. cbn.
  split; [done|]. split; [done|].
  unfold shown. cbn. by rewrite Hp.
Qed.
End LoadingModalMore.

(** ** CodeEditor: the font size under the wheel *)

Section CodeEditorMore.
Import CodeEditor.
Variable toString : number → string.
Variables minus divide : number → number → number.


End CodeEditorMore.


(** ** Editor: what the loaders leave behind *)

Section LoaderEdges.
Context {num : Type} `{JSNumber num}.
Import Editor.
Variable env : Env (num := num).

Lemma has_format_dispatch name extension f :
  has_format name extension f → is_Some (dispatch name extension).
Proof.
  intros Hf. destruct (dispatch name extension) as [f'|] eqn:Hd; [by eexists|].
  by destruct (dispatch_None name extension Hd f).
Qed.

(** X10. When the handler of [loadModel] has run, the loading modal is
    still on screen exactly when the file has a format and either
    [JSON.parse] threw in a branch that uses it, or the parser threw,
    or the parser is one that answers later (Blender, Draco, glTF, X).
    Once the parsers have answered it is still on screen exactly in
    the first two cases and when such a parser never calls back; in
    this last case nothing was alerted either. Whenever the result of
    the parser is dealt with, and for a file of no known format, the
    modal has been taken down. *)
Theorem loadModel_modal_left_up (file : File) (parent : option nat) (i : Input)
    (answered : bool) :
  let w := (load env (ReqModel file parent) i initial).2 in
  let w' := (settle env answered i w).2 in
  let json_throws f := f ∈ [AssimpJSON; Babylon; JSON] ∧ ∃ e, decoded i = Throw e in
  let parser_throws := ∃ e, parsed i = Fails e in
  let waits f := f ∈ [Blend; Draco; GLTF; X] in
  (modal_shown w = Some true
   ↔ ∃ f, dispatch (name file) (getFileExtension env (name file)) = Some f
          ∧ (json_throws f ∨ parser_throws ∨ waits f))
  ∧ (modal_shown w' = Some true
     ↔ ∃ f, dispatch (name file) (getFileExtension env (name file)) = Some f
            ∧ (json_throws f ∨ parser_throws ∨ (waits f ∧ answered = false)))
  ∧ (∀ f, dispatch (name file) (getFileExtension env (name file)) = Some f →
       waits f → ¬ parser_throws → answered = false →
       ∀ message, Alert message ∉ events w').
Proof.
  intros w w' json_throws parser_throws waits.
  assert (Hj : ∀ f, f ∈ [AssimpJSON; Babylon; JSON] ↔ parses_json f = true).
  { intros f. rewrite <- (bool_decide_eq_true (f ∈ [AssimpJSON; Babylon; JSON])).
    by destruct f. }
  assert (Hw : ∀ f, waits f ↔ deferred f = true).
  { intros f. subst waits. cbn beta.
    rewrite <- (bool_decide_eq_true (f ∈ [Blend; Draco; GLTF; X])).
    by destruct f. }
  assert (Hjw : ∀ f, parses_json f = true → deferred f = true → False)
    by (by intros []).
  subst w w' json_throws parser_throws. cbn beta.
  destruct (dispatch _ _) as [f|] eqn:Hd.
  - destruct (model_load_cases env file parent i answered f Hd)
      as (m & noise & materials & Hshown & Hgone & Hnoise & Hobj & _ & Hcases).
    cbn zeta in Hcases.
    assert (Hup : ∀ n l, modal_shown {| modal := Some m; next := n; events := l |}
                         = Some true)
      by (intros; unfold modal_shown; cbn; by rewrite Hshown).
    assert (Hdown : ∀ n l,
              modal_shown {| modal := Some (LoadingModal.destroy m).2;
                             next := n; events := l |} = Some false).
    { intros. unfold modal_shown. cbn [modal fmap option_fmap option_map].
      by rewrite Hgone. }
    destruct (parses_json f) eqn:Hpj; [destruct (decoded i) as [[]|e0]|];
      destruct (parsed i) as [e|root children]; destruct (deferred f) eqn:Hdef;
      try (exfalso; by eapply Hjw);
      destruct Hcases as [Hl Hs]; rewrite ?Hs, ?Hl; cbn [fst snd];
      destruct answered; rewrite ?Hup, ?Hdown;
      (split; [|split]);
      try (split;
           [ intros Hb; try discriminate Hb; exists f; (split; [done|]);
             rewrite ?Hj, ?Hw;
             first [ by left; split; [done|eauto]
                   | by right; left; eauto
                   | by right; right
                   | by right; right; split ]
           | intros (f0 & Hf0 & Hor); injection Hf0 as <-; try done;
             rewrite ?Hj, ?Hw in Hor; exfalso;
             destruct Hor as [[Hp [e1 He1]]|[[e1 He1]|Hwait]];
             try congruence; destruct Hwait; congruence ]);
      intros f0 Hf0 Hwait Hnot Hans message; injection Hf0 as <-;
      try discriminate Hans; try (destruct Hnot; by eauto);
      apply Hw in Hwait; try congruence.
    destruct Hobj as [->| ->]; [discriminate Hdef|].
    cbn [events app].
    repeat (apply not_elem_of_cons; split; [done|]). apply not_elem_of_nil.
  - destruct (load_model_run env file parent i) as (m & evs & _ & Hrun).
    rewrite Hd in Hrun. destruct Hrun as (Hshown & -> & ->).
    rewrite settle_none by done. cbn [fst snd].
    assert (Hdown : modal_shown
                      {| modal := Some m; next := 0;
                         events := [Alert (unknownFileFormat (locale env));
                                    Console "warn" "nunuStudio: Unknown file format"] |}
                    = Some false)
      by (unfold modal_shown; cbn; by rewrite Hshown).
    rewrite Hdown.
    split; [|split]; [split; [done|by intros (f & ? & _)]..|done].
Qed.

(** X11. In the "basis" branch of [loadTexture] the callback is called
    before the texture exists: it is handed [undefined], never the
    texture, even when the decoding goes well and the texture is then
    created and registered. *)
Theorem loadTexture_basis_callback (file : File) (result : completion unit) (i : Input) :
  getFileExtension env (name file) = "basis" →
  decoded i = Normal tt →
  let w := (load env (ReqTexture file (Some result)) i initial).2 in
  events w
  = [ReadAs AsArrayBuffer
       (TextureOnload (getFileName env (name file)) "basis" (Some result));
     Parse "THREE.BasisTextureLoader";
     OnLoad None;
     CreateResource 0 CompressedTexture;
     SetName 0 (getFileName env (name file));
     AddActionEv (AddResourceAction 0 "textures")].
Proof.
  intros Hext Hdec. unfold load. cbn -[loadTexture_onload].
  rewrite Hext. unfold loadTexture_onload. rewrite Hdec.
  rewrite decide_True by done. by destruct result as [[]|e].
Qed.

(** X12. [loadAudio] and [loadFont] call the callback before they
    register, so a callback that throws keeps the resource out of the
    program: it has been created and named, and no action is ever
    submitted. *)
Theorem callback_throw_unregistered (file : File) (e : string) (i : Input) :
  decoded i = Normal tt →
  let audio := load env (ReqAudio file (Some (Throw e))) i initial in
  let font := load env (ReqFont file (Some (Throw e))) i initial in
  audio.1 = Throw e
  ∧ CreateResource 0 Audio ∈ events audio.2
  ∧ (∀ a, AddActionEv a ∉ events audio.2)
  ∧ font.1 = Throw e
  ∧ CreateResource 0 Font ∈ events font.2
  ∧ (∀ a, AddActionEv a ∉ events font.2).
Proof.
  intros Hdec.
  assert (Hnot : ∀ (l : list Event) a,
            forallb (λ ev, match ev with AddActionEv _ => false | _ => true end) l = true →
            AddActionEv a ∉ l).
  { intros l a. induction l as [|ev l IH]; cbn; [intros _; apply not_elem_of_nil|].
    intros [Hev Hl]%andb_true_iff. apply not_elem_of_cons. split; [|by apply IH].
    intros <-. done. }
  split; [done|]. split; [cbn; do 1 apply list_elem_of_further; apply list_elem_of_here|].
  split; [intros a; by apply Hnot|].
  unfold load, start, loadFont.
  destruct (decide (getFileExtension env (name file) = "json")) as [Hj|Hj];
    cbn -[loadFont_onload]; unfold loadFont_onload; rewrite Hdec;
    repeat case_decide; try done; cbn;
    (split; [done|]);
    (split; [do 2 apply list_elem_of_further; apply list_elem_of_here|]);
    intros a; by apply Hnot.
Qed.

(** X13. [loadTexture], outside its "basis" branch, and
    [loadVideoTexture] register first and call back last: the resources
    are in the program even when the callback throws. *)
Theorem callback_throw_registered (file : File) (e : string) (i : Input) :
  decoded i = Normal tt →
  getFileExtension env (name file) ≠ "basis" →
  let texture := load env (ReqTexture file (Some (Throw e))) i initial in
  let video := load env (ReqVideoTexture file (Some (Throw e))) i initial in
  texture.1 = Throw e ∧ registers texture.2
  ∧ (∃ id, AddActionEv (AddResourceAction id "textures") ∈ events texture.2)
  ∧ video.1 = Throw e ∧ registers video.2
  ∧ AddActionEv (AddResourceAction 0 "videos") ∈ events video.2
  ∧ AddActionEv (AddResourceAction 1 "textures") ∈ events video.2.
Proof.
  intros Hdec Hext.
  assert (Hvideo :
    (load env (ReqVideoTexture file (Some (Throw e))) i initial).1 = Throw e
    ∧ registers (load env (ReqVideoTexture file (Some (Throw e))) i initial).2
    ∧ AddActionEv (AddResourceAction 0 "videos")
        ∈ events (load env (ReqVideoTexture file (Some (Throw e))) i initial).2
    ∧ AddActionEv (AddResourceAction 1 "textures")
        ∈ events (load env (ReqVideoTexture file (Some (Throw e))) i initial).2).
  { unfold load, registers. cbn. split; [done|]. split.
    - intros id kind Hin.
      repeat (apply elem_of_cons in Hin as [Hin|Hin];
              [first [ discriminate Hin
                     | injection Hin as -> ->; cbn;
                       repeat first [ apply list_elem_of_here
                                    | apply list_elem_of_further ] ] |]).
      by apply elem_of_nil in Hin.
    - split; repeat first [ apply list_elem_of_here | apply list_elem_of_further ]. }
  cbn zeta. split; [|split; [|split; [|exact Hvideo]]];
    unfold load, registers; cbn -[loadTexture_onload];
    unfold loadTexture_onload; rewrite Hdec;
    rewrite (decide_False (P := getFileExtension env (name file) = "basis")) by done;
    repeat case_decide; cbn; try done.
  all: try (intros id kind Hin;
      repeat (apply elem_of_cons in Hin as [Hin|Hin];
              [first [ discriminate Hin
                     | injection Hin as -> ->; cbn;
                       repeat first [ apply list_elem_of_here
                                    | apply list_elem_of_further ] ] |]);
      by apply elem_of_nil in Hin).
  all: eexists; repeat first [ apply list_elem_of_here | apply list_elem_of_further ].
Qed.

(** X14. A failure while looking for the materials of an OBJ file on
    the desktop is reported and goes no further, wherever it happens:
    working out the name of the .mtl file, asking whether it exists,
    reading it once it was found, or parsing what was read. Each time
    [loadModel] alerts, logs the error, and still ends normally with the
    modal up and the handler of the OBJ parser set, without materials. *)
Theorem loadModel_obj_materials_failure (file : File) (parent : option nat) (f : string) :
  getFileExtension env (name file) = "obj" →
  runningOnDesktop env = true →
  let r := loadModel env file parent initial in
  let reported seen :=
    r.1 = Normal tt
    ∧ events r.2
      = seen ++ [Alert (error_message env f);
                 Console "error" "nunuStudio: Error loading file";
                 ReadAs AsText (ModelOnload OBJ parent None)]
    ∧ modal_shown r.2 = Some true in
  (getNameWithoutExtension env (path file) = Throw f → reported [])
  ∧ (∀ base,
       getNameWithoutExtension env (path file) = Normal base →
       (fileExists env (base +:+ ".mtl") = Throw f → reported [])
       ∧ (fileExists env (base +:+ ".mtl") = Normal true →
          (model_readFile env (base +:+ ".mtl") = Throw f →
           reported [Console "log" "nunuStudio: MTL file found."])
          ∧ (∀ text,
               model_readFile env (base +:+ ".mtl") = Normal text →
               MTLLoader_parse env text = Throw f →
               reported [Console "log" "nunuStudio: MTL file found.";
                         Parse "THREE.MTLLoader"]))).
Proof.
  intros Hext Hdesk r reported. subst r reported. cbn beta.
  destruct (show_run (LoadingModal.new (Some (DocumentBody env)))
              (DocumentBody env) eq_refl) as (m1 & Hshow & Hc & Hp & Hone & _).
  assert (Hshown : LoadingModal.shown m1 = true).
  { destruct Hone as (Hv & _); [by rewrite Hc|].
    unfold LoadingModal.shown. by rewrite Hp, Hv. }
  assert (Hres : loadModel env file parent initial
                 = (let '(materials, w) :=
                      obj_materials env file
                        {| modal := Some m1; next := 0; events := [] |} in
                    match materials with
                    | Normal materials =>
                        read AsText (ModelOnload OBJ parent materials) w
                    | Throw e => (Throw e, w)
                    end)).
  { unfold loadModel.
    unfold bind at 1. cbn -[LoadingModal.show LoadingModal.new bind try_catch].
    unfold bind at 1, on_modal at 1.
    cbn -[LoadingModal.show LoadingModal.new bind try_catch].
    rewrite Hshow, Hext.
    change (dispatch (name file) "obj") with (Some OBJ).
    unfold try_catch, bind.
    destruct (obj_materials_run env file m1 0%nat []) as (materials & noise & -> & _).
    reflexivity. }
  rewrite Hres. clear Hres.
  unfold obj_materials, try_catch, bind, lift, console, alert, emit, modify, ret.
  rewrite Hdesk.
  assert (Hup : ∀ l, modal_shown {| modal := Some m1; next := 0; events := l |}
                     = Some true)
    by (intros; unfold modal_shown; cbn; by rewrite Hshown).
  split; [intros ->; cbn -[modal_shown]; by rewrite Hup|].
  intros base ->. split; [intros ->; cbn -[modal_shown]; by rewrite Hup|].
  intros ->. split; [intros ->; cbn -[modal_shown]; by rewrite Hup|].
  intros text -> ->. cbn -[modal_shown]. by rewrite Hup.
Qed.
End LoaderEdges.


Lemma loadTexture_basis_callback_witness :
  Sample.extension "stone.basis" = "basis"
  ∧ Editor.events
      (Editor.load Sample.browser
         (Editor.ReqTexture {| name := "stone.basis"; path := None |} (Some (Normal tt)))
         {| Editor.decoded := Normal tt; Editor.parsed := Editor.Delivers 0 [] |}
         Editor.initial).2
    = [Editor.ReadAs Editor.AsArrayBuffer
         (Editor.TextureOnload "stone.basis" "basis" (Some (Normal tt)));
       Editor.Parse "THREE.BasisTextureLoader";
       Editor.OnLoad None;
       Editor.CreateResource 0 Editor.CompressedTexture;
       Editor.SetName 0 "stone.basis";
       Editor.AddActionEv (Editor.AddResourceAction 0 "textures")].
Proof.
  split; [reflexivity|].
  exact (loadTexture_basis_callback Sample.browser
           {| name := "stone.basis"; path := None |} (Normal tt)
           {| Editor.decoded := Normal tt; Editor.parsed := Editor.Delivers 0 [] |}
           eq_refl eq_refl).
Defined.

Lemma callback_throw_unregistered_witness :
  (Editor.load Sample.browser
     (Editor.ReqAudio {| name := "rain.ogg"; path := None |} (Some (Throw "stop")))
     {| Editor.decoded := Normal tt; Editor.parsed := Editor.Delivers 0 [] |}
     Editor.initial).1 = Throw "stop".
Proof.
  exact (proj1 (callback_throw_unregistered Sample.browser
                  {| name := "rain.ogg"; path := None |} "stop"
                  {| Editor.decoded := Normal tt; Editor.parsed := Editor.Delivers 0 [] |}
                  eq_refl)).
Defined.

Lemma callback_throw_registered_witness :
  Sample.extension "wood.png" ≠ "basis"
  ∧ (Editor.load Sample.browser
       (Editor.ReqTexture {| name := "wood.png"; path := None |} (Some (Throw "stop")))
       {| Editor.decoded := Normal tt; Editor.parsed := Editor.Delivers 0 [] |}
       Editor.initial).1 = Throw "stop".
Proof.
  assert (Hext : Sample.extension "wood.png" ≠ "basis") by (by vm_compute).
  split; [exact Hext|].
  exact (proj1 (callback_throw_registered Sample.browser
                  {| name := "wood.png"; path := None |} "stop"
                  {| Editor.decoded := Normal tt; Editor.parsed := Editor.Delivers 0 [] |}
                  eq_refl Hext)).
Defined.

Lemma loadModel_obj_materials_failure_witness :
  Sample.extension "chair.obj" = "obj"
  ∧ Editor.runningOnDesktop Sample.desktop = true
  ∧ Editor.events
      (Editor.loadModel Sample.desktop
         {| name := "chair.obj"; path := Some "/models/chair.obj" |} None
         Editor.initial).2
    = [Editor.Console "log" "nunuStudio: MTL file found.";
       Editor.Alert (Editor.error_message Sample.desktop "EACCES");
       Editor.Console "error" "nunuStudio: Error loading file";
       Editor.ReadAs Editor.AsText (Editor.ModelOnload Editor.OBJ None None)].
Proof.
  split; [reflexivity|]. split; [reflexivity|].
  exact (proj1 (proj2
           (proj1 (proj2
              (proj2 (loadModel_obj_materials_failure Sample.desktop
                        {| name := "chair.obj"; path := Some "/models/chair.obj" |}
                        None "EACCES" eq_refl eq_refl)
                 "/models/chair" eq_refl)
              eq_refl)
           eq_refl))).
Defined.

(** ** Font: outlines *)

Section OutlineFacts.
Context {num : Type} `{JSNumber num}.
Import Font.

Ltac outline_lookups pre :=
  repeat match goal with
  | |- context [(pre ++ ?l) !! ?n] =>
      rewrite (lookup_app_r pre l n) by lia;
      first [ replace (n - length pre)%nat with 0%nat by lia
            | replace (n - length pre)%nat with 1%nat by lia
            | replace (n - length pre)%nat with 2%nat by lia
            | replace (n - length pre)%nat with 3%nat by lia
            | replace (n - length pre)%nat with 4%nat by lia
            | replace (n - length pre)%nat with 5%nat by lia
            | replace (n - length pre)%nat with 6%nat by lia ];
      cbn [lookup list_lookup]
  end.

Lemma outline_step_command (pre : list string) (command : Command) (rest : list string)
    (scale offsetX offsetY : num) (path : ShapePath (num := num)) :
  outline_step (pre ++ tokens command ++ rest) scale offsetX offsetY (length pre) path
  = (length (pre ++ tokens command), path ++ [action_of scale offsetX offsetY command]).
Proof.
  rewrite length_app.
  destruct command; unfold outline_step, coord, action_of; cbn [tokens app length];
    outline_lookups pre;
    repeat first [ rewrite decide_True by done | rewrite decide_False by done ];
    outline_lookups pre; f_equal; lia.
Qed.

Lemma outline_loop_commands (commands : list Command) (scale offsetX offsetY : num) :
  ∀ (pre : list string) (path : ShapePath (num := num)) (fuel : nat),
    (length (concat (tokens <$> commands)) ≤ fuel)%nat →
    outline_loop fuel (pre ++ concat (tokens <$> commands)) scale offsetX offsetY
      (length pre) path
    = path ++ (action_of scale offsetX offsetY <$> commands).
Proof.
  induction commands as [|command commands IH]; intros pre path fuel Hfuel.
  - cbn [fmap list_fmap concat]. rewrite !app_nil_r.
    destruct fuel; cbn [outline_loop]; [done|]. by rewrite decide_False by lia.
  - cbn [fmap list_fmap concat] in *.
    assert (Hpos : (0 < length (tokens command))%nat) by (destruct command; simpl; lia).
    rewrite length_app in Hfuel.
    destruct fuel as [|fuel]; [lia|]. cbn [outline_loop].
    rewrite decide_True by (rewrite !length_app; lia).
    rewrite outline_step_command.
    rewrite (app_assoc pre), IH by lia.
    by rewrite <- app_assoc.
Qed.

(** X15. An outline made of whole commands is read command by command: the
    loop of [createPath] ends within the turns the length of the
    outline allows and leaves one call for every command, in the order
    of the outline, the control points of a curve passed before its end
    point though they are written after it. *)
Theorem outline_loop_reads_commands (commands : list Command)
    (scale offsetX offsetY : num) (extra : nat) :
  let outline := concat (tokens <$> commands) in
  outline_loop (length outline + extra) outline scale offsetX offsetY 0 []
  = action_of scale offsetX offsetY <$> commands.
Proof.
  intros outline. subst outline.
  apply (outline_loop_commands commands scale offsetX offsetY [] [] _). lia.
Qed.

Lemma outline_step_bound (outline : list string) (scale offsetX offsetY : num)
    (i : nat) (path : ShapePath (num := num)) :
  let r := outline_step outline scale offsetX offsetY i path in
  (i < r.1)%nat
  ∧ (length r.2 = length path
     ∨ (length r.2 = S (length path) ∧ i + 3 ≤ r.1)%nat).
Proof.
  unfold outline_step.
  repeat case_decide; cbn [fst snd]; rewrite ?length_app; cbn [length];
    try congruence; (split; [lia|]); first [left; lia | right; lia].
Qed.

Lemma outline_loop_bound (fuel : nat) (outline : list string)
    (scale offsetX offsetY : num) :
  ∀ (i : nat) (path : ShapePath (num := num)),
    (3 * length (outline_loop fuel outline scale offsetX offsetY i path) + i
     ≤ 3 * length path + Nat.max i (length outline + 2))%nat.
Proof.
  induction fuel as [|fuel IH]; intros i path; cbn [outline_loop]; [lia|].
  case_decide as Hi; [|lia].
  pose proof (outline_step_bound outline scale offsetX offsetY i path) as Hstep.
  destruct (outline_step outline scale offsetX offsetY i path) as [i' path'].
  cbn [fst snd] in Hstep. specialize (IH i' path'). lia.
Qed.

Lemma outline_loop_enough (extra : nat) (outline : list string)
    (scale offsetX offsetY : num) :
  ∀ (fuel i : nat) (path : ShapePath (num := num)),
    (length outline ≤ fuel + i)%nat →
    outline_loop (fuel + extra) outline scale offsetX offsetY i path
    = outline_loop fuel outline scale offsetX offsetY i path.
Proof.
  induction fuel as [|fuel IH]; intros i path Hfuel.
  - destruct extra; cbn [outline_loop Nat.add]; [done|]. by rewrite decide_False by lia.
  - cbn [outline_loop Nat.add]. case_decide; [|done].
    pose proof (outline_step_bound outline scale offsetX offsetY i path) as Hstep.
    destruct (outline_step outline scale offsetX offsetY i path) as [i' path'].
    cbn [fst snd] in Hstep. apply IH. lia.
Qed.

(** X16. Whatever the outline holds, the loop of [createPath] has ended
    within the turns its length allows, and each call it leaves has
    used up three tokens at least: an outline of [n] tokens gives no
    more than [(n + 2) / 3] calls. *)
Theorem outline_loop_terminates (outline : list string)
    (scale offsetX offsetY : num) (extra : nat) :
  outline_loop (length outline + extra) outline scale offsetX offsetY 0 []
  = outline_loop (length outline) outline scale offsetX offsetY 0 []
  ∧ (length (outline_loop (length outline) outline scale offsetX offsetY 0 [])
     ≤ (length outline + 2) / 3)%nat.
Proof.
  split; [apply outline_loop_enough; lia|].
  pose proof (outline_loop_bound (length outline) outline scale offsetX offsetY 0 [])
    as Hbound.
  cbn [length] in Hbound. apply Nat.div_le_lower_bound; lia.
Qed.

End OutlineFacts.

Section ToJSONFacts.
Import Font.
Context {ResourceJSON OpenType : Type}.
Local Abbreviation font_t := (Font.t (OpenType := OpenType)).
Local Abbreviation json_t := (FontJSON (ResourceJSON := ResourceJSON) (OpenType := OpenType)).
Variable Resource_toJSON : font_t → ResourceJSON.
Variable fromBase64_other : Data (OpenType := OpenType) → completion (list Z).

(** X17. A font is serialised once for each [meta]: what [toJSON] returns is
    stored under the uuid of the font, the other entries staying as
    they are, and any later call for that uuid returns the stored
    object, whatever has become of the font since. A font serialised
    for the first time never comes out in the "base64" format. *)
Theorem toJSON_once (font : font_t) (fonts fonts' : gmap string json_t) (json : json_t) :
  toJSON Resource_toJSON fromBase64_other font fonts = (Normal json, fonts') →
  fonts' !! uuid font = Some json
  ∧ (∀ k, k ≠ uuid font → fonts' !! k = fonts !! k)
  ∧ (∀ later : font_t, uuid later = uuid font →
       toJSON Resource_toJSON fromBase64_other later fonts' = (Normal json, fonts'))
  ∧ (fonts !! uuid font = None → json_format json ≠ "base64").
Proof.
  intros Hrun.
  assert (Hstored : fonts' !! uuid font = Some json
                    ∧ (∀ k, k ≠ uuid font → fonts' !! k = fonts !! k)
                    ∧ (fonts !! uuid font = None → json_format json ≠ "base64")).
  { unfold toJSON in Hrun.
    destruct (fonts !! uuid font) as [stored|] eqn:Hlook.
    - injection Hrun as <- <-. done.
    - repeat case_decide;
        repeat match type of Hrun with
        | context [match ?d with _ => _ end] => destruct d eqn:?
        end;
        try discriminate Hrun;
        injection Hrun as <- <-; cbn [json_format];
        (split; [apply lookup_insert_eq|]);
        (split; [intros k Hk; by apply lookup_insert_ne|]);
        intros _; congruence. }
  destruct Hstored as (Hlook & Hother & Hformat).
  split; [done|]. split; [done|]. split; [|done].
  intros later Hu. unfold toJSON. by rewrite Hu, Hlook.
Qed.

(** X18. A font kept as a Base64 string is serialised as an array buffer,
    decoded by [ArraybufferUtils.fromBase64]: where the string is the
    padded encoding of the bytes of the font, the serialised font holds
    these bytes, followed by one or two bytes 255 when their number is
    no multiple of three. *)
Theorem toJSON_base64 (font : font_t) (fonts : gmap string json_t) (groups tail : list Z) :
  format font = "base64" →
  data font = Characters (ArraybufferUtils.base64_encode (groups ++ tail)) →
  ArraybufferUtils.whole_groups groups →
  ArraybufferUtils.last_group tail →
  fonts !! uuid font = None →
  ∃ json,
    toJSON Resource_toJSON fromBase64_other font fonts = (Normal json, <[uuid font := json]> fonts)
    ∧ json_format json = "arraybuffer"
    ∧ json_data json = Binary (groups ++ ArraybufferUtils.padded tail).
Proof.
  intros Hf Hd Hg Ht Hnew. unfold toJSON. rewrite Hnew, Hf, Hd.
  rewrite decide_False by done. rewrite decide_True by done.
  rewrite (fromBase64_encode_groups_tail groups tail Hg Ht).
  eexists. split; [reflexivity|]. done.
Qed.

End ToJSONFacts.

(** ** Editor: cube textures, Spine animations, X animations *)

Section CompressedTextureFacts.
Import Editor.
Context {Mipmap PixelFormat Dimension : Type}.
Local Abbreviation data_t :=
  (TextureData (Mipmap := Mipmap) (PixelFormat := PixelFormat) (Dimension := Dimension)).

Lemma faces_condition (len count f : nat) :
  (0 < count)%nat →
  (f * count < len)%nat ↔ (f < (len + count - 1) / count)%nat.
Proof.
  intros Hc.
  pose proof (Nat.div_mod_eq (len + count - 1) count) as Hdm.
  pose proof (Nat.mod_upper_bound (len + count - 1) count ltac:(lia)) as Hmod.
  split; intros Hlt; nia.
Qed.

Lemma faces_loop_spec (data : data_t) fuel f image :
  (0 < mipmapCount data)%nat →
  let n := ((length (data_mipmaps data) + mipmapCount data - 1) / mipmapCount data)%nat in
  (f ≤ n)%nat → (n - f < fuel)%nat →
  faces_loop fuel data f image = Some (image ++ (face data <$> seq f (n - f))).
Proof.
  intros Hc n. revert f image.
  induction fuel as [|fuel IH]; intros f image Hf Hfuel; [lia|].
  cbn [faces_loop].
  destruct (decide (f * mipmapCount data < length (data_mipmaps data))%nat) as [Hlt|Hge].
  - apply faces_condition in Hlt; [|done]. fold n in Hlt.
    rewrite IH by lia.
    replace (n - f)%nat with (S (n - S f)) by lia.
    cbn [seq fmap list_fmap]. by rewrite <- app_assoc.
  - rewrite faces_condition in Hge by done. fold n in Hge.
    replace (n - f)%nat with 0%nat by lia. by rewrite app_nil_r.
Qed.

Lemma faces_concat (data : data_t) (n : nat) :
  concat (face_mipmaps <$> (face data <$> seq 0 n))
  = (λ k, data_mipmaps data !! k) <$> seq 0 (n * mipmapCount data).
Proof.
  induction n as [|n IH]; [done|].
  rewrite seq_S, !fmap_app, concat_app, IH. cbn [fmap list_fmap concat face_mipmaps face].
  rewrite app_nil_r.
  replace (S n * mipmapCount data)%nat with (n * mipmapCount data + mipmapCount data)%nat
    by lia.
  rewrite seq_app, fmap_app. f_equal. cbn [Nat.add].
  apply list_eq. intros i. rewrite !list_lookup_fmap.
  destruct (decide (i < mipmapCount data)%nat) as [Hi|Hi].
  - by rewrite !lookup_seq_lt by done.
  - by rewrite !lookup_seq_ge by lia.
Qed.

(** X19. A cube map whose mipmap count is not 0 is cut into faces in
    finitely many turns: one face for every [mipmapCount] mipmaps, the
    last one filled up with [undefined] when the mipmaps do not divide
    evenly, every face holding [mipmapCount] entries; read face after
    face the entries are the mipmaps of the data in their order, so
    that nothing is lost, repeated or moved when they divide evenly. *)
Theorem loadCompressedTexture_cube_faces (data : data_t) (extra : nat) :
  isCubemap data = true →
  (0 < mipmapCount data)%nat →
  ∃ faces,
    image <$> loadCompressedTexture (S (length (data_mipmaps data)) + extra) data
    = Some (Faces faces)
    ∧ (length faces * mipmapCount data < length (data_mipmaps data) + mipmapCount data)%nat
    ∧ (length (data_mipmaps data) ≤ length faces * mipmapCount data)%nat
    ∧ Forall (λ fc, length (face_mipmaps fc) = mipmapCount data) faces
    ∧ concat (face_mipmaps <$> faces)
      = (λ k, data_mipmaps data !! k) <$> seq 0 (length faces * mipmapCount data)
    ∧ ((length (data_mipmaps data) mod mipmapCount data = 0)%nat →
       concat (face_mipmaps <$> faces) = Some <$> data_mipmaps data).
Proof.
  intros Hcube Hc.
  set (n := ((length (data_mipmaps data) + mipmapCount data - 1) / mipmapCount data)%nat).
  assert (Hn1 : (n * mipmapCount data < length (data_mipmaps data) + mipmapCount data)%nat).
  { pose proof (Nat.div_mod_eq (length (data_mipmaps data) + mipmapCount data - 1)
                  (mipmapCount data)) as Hdm. fold n in Hdm.
    destruct (length (data_mipmaps data)); nia. }
  assert (Hn2 : (length (data_mipmaps data) ≤ n * mipmapCount data)%nat).
  { destruct (decide (n * mipmapCount data < length (data_mipmaps data))%nat) as [Hlt|]; [|lia].
    apply faces_condition in Hlt; [|done]. fold n in Hlt. lia. }
  exists (face data <$> seq 0 n).
  assert (Hlen : length (face data <$> seq 0 n) = n) by (by rewrite length_fmap, length_seq).
  split.
  { unfold loadCompressedTexture. rewrite Hcube.
    rewrite (faces_loop_spec data _ 0 [] Hc); fold n; [|lia|nia].
    by rewrite Nat.sub_0_r. }
  rewrite Hlen. split; [done|]. split; [done|]. split.
  { apply Forall_fmap, Forall_forall. intros f _. cbn.
    by rewrite length_fmap, length_seq. }
  split; [apply faces_concat|].
  intros Hmod. rewrite faces_concat.
  assert (Heq : (n * mipmapCount data = length (data_mipmaps data))%nat).
  { pose proof (Nat.div_mod_eq (length (data_mipmaps data)) (mipmapCount data)) as Hdm.
    rewrite Hmod in Hdm.
    revert Hn1 Hn2 Hdm. generalize (length (data_mipmaps data) / mipmapCount data)%nat.
    intros q Hn1 Hn2 Hdm.
    assert (n = q) as ->; [|lia].
    destruct (Nat.lt_trichotomy n q) as [Hlt|[?|Hgt]]; [|done|].
    - assert (n * mipmapCount data + mipmapCount data ≤ q * mipmapCount data)%nat by nia.
      lia.
    - assert (q * mipmapCount data + mipmapCount data ≤ n * mipmapCount data)%nat by nia.
      lia. }
  rewrite Heq. apply list_eq. intros i.
  rewrite !list_lookup_fmap.
  destruct (decide (i < length (data_mipmaps data))%nat) as [Hi|Hi].
  - rewrite lookup_seq_lt by done. cbn.
    by destruct (lookup_lt_is_Some_2 (data_mipmaps data) i Hi) as [x ->].
  - rewrite lookup_seq_ge by lia. by rewrite lookup_ge_None_2 by lia.
Qed.

Lemma faces_loop_zero (data : data_t) fuel f image :
  mipmapCount data = 0%nat → data_mipmaps data ≠ [] →
  faces_loop fuel data f image = None.
Proof.
  intros Hc Hm. revert f image. induction fuel as [|fuel IH]; intros f image; [done|].
  cbn [faces_loop]. rewrite decide_True; [apply IH|].
  rewrite Hc. destruct (data_mipmaps data); [done|]. cbn. lia.
Qed.

(** X20. A cube map with mipmaps and a mipmap count of 0 is never loaded:
    the number of faces is then [Infinity], and the loop over the faces
    is still running after any number of turns. *)
Theorem loadCompressedTexture_cube_endless (data : data_t) (fuel : nat) :
  isCubemap data = true →
  mipmapCount data = 0%nat →
  data_mipmaps data ≠ [] →
  loadCompressedTexture fuel data = None.
Proof.
  intros Hcube Hc Hm. unfold loadCompressedTexture. rewrite Hcube.
  by rewrite faces_loop_zero.
Qed.

End CompressedTextureFacts.

Section SpineFacts.
Import Editor.

Lemma atlas_loop_first (before : list string) (f : string) (after : list string) :
  Forall (λ g, endsWith g "atlas" = false) before →
  endsWith f "atlas" = true →
  atlas_loop (before ++ f :: after) = Some f.
Proof.
  intros Hb Hf. induction Hb as [|g before Hg _ IH]; cbn [app atlas_loop].
  - by rewrite Hf.
  - by rewrite Hg.
Qed.

Lemma atlas_loop_none (files : list string) :
  Forall (λ g, endsWith g "atlas" = false) files → atlas_loop files = None.
Proof. induction 1 as [|g files Hg _ IH]; cbn [atlas_loop]; [done|by rewrite Hg]. Qed.

(** X21. [loadSpineAnimation] that returns has done one of two things:
    it added the animation and alerted nothing, or showed one alert and
    added nothing. Its [catch] builds the alert by joining the thrown
    value to a string, and that is the only way out of it with an
    exception: then nothing was alerted and nothing added. Where every
    thrown value has a text, [loadSpineAnimation] returns whatever the
    file system and the constructor of the animation do. *)
Theorem loadSpineAnimation_adds_or_alerts (env : SpineEnv) (file : File) :
  let r := loadSpineAnimation env file [] in
  let alerts := length (filter (λ ev, is_alert ev = true) r.2) in
  let added := length (filter (λ ev, is_addObject ev = true) r.2) in
  (r.1 = Normal tt → (alerts + added = 1)%nat)
  ∧ (∀ e, r.1 = Throw e →
       alerts = 0%nat ∧ added = 0%nat ∧ ∃ e0, thrown_text env e0 = Throw e)
  ∧ ((∀ e0, ∃ text, thrown_text env e0 = Normal text) → r.1 = Normal tt).
Proof.
  assert (Hcaught : ∀ e0 (evs : list SpineEvent),
    filter (λ ev, is_alert ev = true) evs = [] →
    filter (λ ev, is_addObject ev = true) evs = [] →
    let r := (do text <- lift (thrown_text env e0);
              spine_log (SpineAlert (failedLoadSpine env +:+ "(" +:+ text +:+ ")")))
               evs in
    (r.1 = Normal tt →
     (length (filter (λ ev, is_alert ev = true) r.2)
      + length (filter (λ ev, is_addObject ev = true) r.2) = 1)%nat)
    ∧ (∀ e, r.1 = Throw e →
         length (filter (λ ev, is_alert ev = true) r.2) = 0%nat
         ∧ length (filter (λ ev, is_addObject ev = true) r.2) = 0%nat
         ∧ ∃ e0, thrown_text env e0 = Throw e)
    ∧ ((∀ e0, ∃ text, thrown_text env e0 = Normal text) → r.1 = Normal tt)).
  { intros e0 evs Halert Hadd. unfold bind, lift, spine_log, modify.
    destruct (thrown_text env e0) as [text|e1] eqn:Htext; cbn [fst snd].
    - rewrite !filter_app, Halert, Hadd. by cbn.
    - rewrite Halert, Hadd. split; [done|]. split.
      + intros e [= <-]. split; [done|]. split; [done|]. by exists e0.
      + intros Hall. destruct (Hall e0) as [text Hn]. congruence. }
  intros r alerts added. subst alerts added r.
  pattern (loadSpineAnimation env file []).
  match goal with |- ?P _ => set (ends := P) end.
  unfold loadSpineAnimation, try_catch, bind, lift, spine_log, modify.
  destruct (getFilePath env (path file)) as [p|e]; [|by apply Hcaught].
  destruct (getFilesDirectory env p) as [files|e]; [|by apply Hcaught].
  destruct (atlas_loop files) as [f|]; [|by subst ends].
  destruct (readFile env (path file)) as [data|e]; [|by apply Hcaught].
  destruct (readFile env (Some (p +:+ f))) as [atlas|e]; [|by apply Hcaught].
  destruct (newSpineAnimation env data atlas p) as [[]|e]; [|by apply Hcaught].
  destruct (spine_getFileName env (path file)) as [n|e]; [|by apply Hcaught].
  by subst ends.
Qed.

(** A thrown Symbol has no text: the [catch] of [loadSpineAnimation]
    throws in its turn, and no alert is shown. *)
Example loadSpineAnimation_symbol_thrown :
  loadSpineAnimation
    {| getFilePath := λ _, Throw "Symbol()";
       getFilesDirectory := λ _, Normal [];
       readFile := λ _, Normal "";
       newSpineAnimation := λ _ _ _, Normal tt;
       spine_getFileName := λ _, Normal "";
       failedLoadSpine := "Failed to load spine animation";
       thrown_text := λ _, Throw "TypeError: Cannot convert a Symbol value to a string" |}
    {| name := "boy.json"; path := Some "/spine/boy.json" |} []
  = (Throw "TypeError: Cannot convert a Symbol value to a string", []).
Proof. reflexivity. Qed.

(** X22. The atlas [loadSpineAnimation] reads is the first file of the
    directory whose name ends in "atlas", later ones are not looked at;
    and with no such file nothing is read: the user is alerted and
    warned, and that is all. *)
Theorem loadSpineAnimation_atlas (env : SpineEnv) (file : File) (p : string)
    (files : list string) :
  getFilePath env (path file) = Normal p →
  getFilesDirectory env p = Normal files →
  (Forall (λ g, endsWith g "atlas" = false) files →
   (loadSpineAnimation env file []).2
   = [SpineAlert (failedLoadSpine env);
      SpineWarn "nunuStudio: No atlas file found in the directory."])
  ∧ (∀ before f after data atlas n,
       files = before ++ f :: after →
       Forall (λ g, endsWith g "atlas" = false) before →
       endsWith f "atlas" = true →
       readFile env (path file) = Normal data →
       readFile env (Some (p +:+ f)) = Normal atlas →
       newSpineAnimation env data atlas p = Normal tt →
       spine_getFileName env (path file) = Normal n →
       (loadSpineAnimation env file []).2
       = [SpineRead (path file); SpineRead (Some (p +:+ f));
          SpineCreate data atlas p; SpineName n; SpineAddObject]).
Proof.
  intros Hp Hfiles. split.
  - intros Hnone.
    unfold loadSpineAnimation, try_catch, bind, lift, spine_log, modify.
    by rewrite Hp, Hfiles, (atlas_loop_none files Hnone).
  - intros before f after data atlas n -> Hb Hf Hdata Hatlas Hnew Hname.
    unfold loadSpineAnimation, try_catch, bind, lift, spine_log, modify.
    rewrite Hp, Hfiles, (atlas_loop_first before f after Hb Hf).
    by rewrite Hdata, Hatlas, Hnew, Hname.
Qed.

End SpineFacts.

Section ConvertAnimationFacts.
Import Editor.
Context {Key Time Label : Type}.
Variable time : Key → Time.
Variable above_zero : Time → bool.
Local Abbreviation track := (Track (Key := Key) (Label := Label)).
Local Abbreviation above k := (above_zero (time k) = true).

Lemma keys_loop_spec (rest : list Key) :
  ∀ (pre : list Key) (before : Key) fuel firstKey frame_keys length',
    (length rest ≤ fuel)%nat →
    keys_loop time above_zero fuel (pre ++ before :: rest) (S (length pre))
      firstKey frame_keys length'
    = (frame_keys
       ++ match firstKey with
          | None => kept time above_zero before rest
          | Some _ => filter (λ k, above k) rest
          end,
       match last rest with Some k => Some (time k) | None => length' end).
Proof.
  induction rest as [|key rest IH]; intros pre before fuel firstKey frame_keys length' Hfuel.
  - assert (Hm : (pre ++ [before]) !! S (length pre) = None).
    { apply lookup_ge_None_2. rewrite length_app. simpl. lia. }
    destruct fuel; cbn [keys_loop]; rewrite ?Hm; destruct firstKey; cbn;
      by rewrite app_nil_r.
  - destruct fuel as [|fuel]; [simpl in Hfuel; lia|].
    cbn [keys_loop].
    assert (Hm : (pre ++ before :: key :: rest) !! S (length pre) = Some key).
    { rewrite lookup_app_r by lia.
      by replace (S (length pre) - length pre)%nat with 1%nat by lia. }
    assert (Hb : (pre ++ before :: key :: rest) !! (S (length pre) - 1)%nat = Some before).
    { rewrite lookup_app_r by lia.
      by replace (S (length pre) - 1 - length pre)%nat with 0%nat by lia. }
    rewrite Hm, Hb.
    assert (Hlast : match last (key :: rest) with
                    | Some k => Some (time k)
                    | None => length'
                    end
                    = match last rest with
                      | Some k => Some (time k)
                      | None => Some (time key)
                      end).
    { destruct rest as [|k rest]; [done|]. rewrite last_cons_cons.
      destruct (proj2 (last_is_Some (k :: rest))) as [k' ->]; done. }
    rewrite Hlast.
    assert (Hstep : ∀ firstKey' frame_keys',
      (if decide (length (pre ++ before :: key :: rest) - 1 ≤ S (length pre))%nat
       then (frame_keys', Some (time key))
       else keys_loop time above_zero fuel (pre ++ before :: key :: rest)
              (S (S (length pre))) firstKey' frame_keys' (Some (time key)))
      = (frame_keys'
         ++ match firstKey' with
            | None => kept time above_zero key rest
            | Some _ => filter (λ k, above k) rest
            end,
         match last rest with Some k => Some (time k) | None => Some (time key) end)).
    { intros firstKey' frame_keys'.
      case_decide as Hend.
      - rewrite length_app in Hend. simpl in Hend.
        destruct rest; [|simpl in Hend; lia].
        destruct firstKey'; cbn; by rewrite app_nil_r.
      - replace (pre ++ before :: key :: rest) with ((pre ++ [before]) ++ key :: rest)
          by (by rewrite <- app_assoc).
        replace (S (S (length pre))) with (S (length (pre ++ [before])))
          by (rewrite length_app; simpl; lia).
        apply IH. simpl in Hfuel. lia. }
    cbn [kept]. destruct (above_zero (time key)) eqn:Hpos.
    + rewrite filter_cons_True by done.
      destruct firstKey as [first|]; rewrite Hstep; cbn [fst snd];
        by rewrite <- ?app_assoc.
    + rewrite filter_cons_False by (by rewrite Hpos).
      destruct firstKey as [first|]; by rewrite Hstep.
Qed.

Lemma kept_sublist (before : Key) (rest : list Key) :
  kept time above_zero before rest `sublist_of` before :: rest.
Proof.
  revert before. induction rest as [|key rest IH]; intros before; cbn [kept].
  - apply sublist_nil_l.
  - destruct (above_zero (time key)).
    + do 2 apply sublist_skip. apply sublist_filter.
    + by apply sublist_cons.
Qed.

Lemma kept_above (before : Key) (rest : list Key) (k : Key) :
  k ∈ rest → above k → k ∈ kept time above_zero before rest.
Proof.
  revert before. induction rest as [|key rest IH]; intros before Hin Hk; cbn [kept].
  - by apply elem_of_nil in Hin.
  - destruct (above_zero (time key)) eqn:Hpos.
    + apply list_elem_of_further.
      apply elem_of_cons in Hin as [->|Hin]; [apply list_elem_of_here|].
      apply list_elem_of_further. by apply list_elem_of_filter.
    + apply elem_of_cons in Hin as [->|Hin]; [congruence|by apply IH].
Qed.

Lemma kept_all (before : Key) (rest : list Key) :
  rest ≠ [] → Forall (λ k, above k) rest →
  kept time above_zero before rest = before :: rest.
Proof.
  intros Hne Hall. destruct Hall as [|key rest Hkey Hall]; [done|].
  cbn [kept]. rewrite Hkey. do 2 f_equal.
  induction Hall as [|k rest Hk _ IH]; [done|].
  by rewrite filter_cons_True, IH.
Qed.

Lemma convert_track_spec (animation : list track * option Time) (t : track) :
  convert_track time above_zero animation t
  = (animation.1
     ++ [{| track_name := track_name t;
            track_parent := track_parent t;
            keys := match keys t with
                    | [] => []
                    | before :: rest => kept time above_zero before rest
                    end |}],
     match last (drop 1 (keys t)) with
     | Some k => Some (time k)
     | None => animation.2
     end).
Proof.
  unfold convert_track. destruct (keys t) as [|before rest] eqn:Hk.
  - done.
  - pose proof (keys_loop_spec rest [] before (length (before :: rest)) None []
                  animation.2) as Hspec.
    cbn [app length] in Hspec. cbn [length]. by rewrite Hspec by (simpl; lia).
Qed.

Lemma convert_fold (tracks : list track) :
  ∀ (animation : list track * option Time),
    (foldl (convert_track time above_zero) animation tracks).1
    = animation.1
      ++ ((λ t, {| track_name := track_name t;
                   track_parent := track_parent t;
                   keys := match keys t with
                           | [] => []
                           | before :: rest => kept time above_zero before rest
                           end |}) <$> tracks).
Proof.
  induction tracks as [|t tracks IH]; intros animation; cbn [foldl fmap list_fmap].
  - by rewrite app_nil_r.
  - rewrite IH, convert_track_spec. cbn [fst]. by rewrite <- app_assoc.
Qed.

(** X23. [convertAnimation] hands back the tracks of the animation in their
    order, with their names and parents. Of the keys of a track it
    keeps some, in their order: every key after the first whose time is
    above 0 is kept; a track whose keys after the first all have a time
    above 0 keeps all of its keys; a track with a single key, or with
    none, comes out empty. *)
Theorem convertAnimation_tracks (baseAnime : Animation) (name : Label) :
  let animation := convertAnimation time above_zero baseAnime name in
  fps animation = fps baseAnime
  ∧ animation_name animation = name
  ∧ Forall2
      (λ (out inp : track),
         track_name out = track_name inp
         ∧ track_parent out = track_parent inp
         ∧ keys out `sublist_of` keys inp
         ∧ (∀ k, k ∈ drop 1 (keys inp) → above k → k ∈ keys out)
         ∧ (Forall (λ k, above k) (drop 1 (keys inp)) → (2 ≤ length (keys inp))%nat →
            keys out = keys inp)
         ∧ ((length (keys inp) ≤ 1)%nat → keys out = []))
      (hierarchy animation) (hierarchy baseAnime).
Proof.
  unfold convertAnimation.
  pose proof (convert_fold (hierarchy baseAnime) ([], None)) as Hfold.
  destruct (foldl _ _ _) as [hierarchy' length']. cbn [fst app] in Hfold. subst hierarchy'.
  cbn. split; [done|]. split; [done|].
  apply Forall2_fmap_l, Forall_Forall2_diag, Forall_forall. intros t _. cbn.
  split; [done|]. split; [done|].
  destruct (keys t) as [|before rest].
  - cbn. split; [done|]. split; [intros k Hk; by apply elem_of_nil in Hk|].
    split; [intros _ ?; simpl in *; lia|done].
  - cbn [drop length]. rewrite drop_0.
    split; [apply kept_sublist|]. split; [apply kept_above|].
    split.
    + intros Hall Hlen. apply kept_all; [|done]. destruct rest; [simpl in Hlen; lia|done].
    + intros Hlen. destruct rest; [done|simpl in Hlen; lia].
Qed.

Lemma convert_fold_length (tracks : list track) :
  ∀ (animation : list track * option Time),
    (foldl (convert_track time above_zero) animation tracks).2
    = foldl (λ length' t, match last (drop 1 (keys t)) with
                          | Some k => Some (time k)
                          | None => length'
                          end) animation.2 tracks.
Proof.
  induction tracks as [|t tracks IH]; intros animation; cbn [foldl]; [done|].
  by rewrite IH, convert_track_spec.
Qed.

(** X24. The length [convertAnimation] gives the animation is the time of
    the last key of the last track with two keys or more, whatever the
    times of the tracks before it. *)
Theorem convertAnimation_length (baseAnime : Animation) (name : Label)
    (earlier : list track) (t : track) (later : list track)
    (first : Key) (middle : list Key) (final : Key) :
  hierarchy baseAnime = earlier ++ t :: later →
  keys t = first :: middle ++ [final] →
  Forall (λ t', (length (keys t') ≤ 1)%nat) later →
  animation_length (convertAnimation time above_zero baseAnime name) = Some (time final).
Proof.
  intros Hh Hk Hlater. unfold convertAnimation.
  pose proof (convert_fold_length (hierarchy baseAnime) ([], None)) as Hfold.
  destruct (foldl _ _ _) as [hierarchy' length']. cbn [snd] in Hfold. subst length'.
  cbn [animation_length]. rewrite Hh, foldl_app. cbn [foldl].
  rewrite Hk. cbn [drop]. rewrite drop_0, last_snoc.
  clear Hh. induction Hlater as [|t' later Ht' _ IH]; [done|].
  cbn [foldl]. destruct (keys t') as [|k [|k' ks]]; [exact IH|exact IH|simpl in Ht'; lia].
Qed.

End ConvertAnimationFacts.

(** ** LeapMotion: what the flags say *)

Section LeapMotionFacts.
Context {num : Type} `{JSNumber num}.
Import LeapMotion.
Variable lt : num → num → bool.
Variables decimal_0_3 decimal_minus_0_5 : num.
Variable distanceTo : num * num * num → num * num * num → num.

Local Abbreviation device := (LeapMotion.t (num := num)).
Local Abbreviation flag a k := (default false (array_get a (Z.of_nat k))).

Lemma array_get_set a i v (j : Z) :
  array_get (array_set a i v) j
  = if decide (j = Z.of_nat i) then Some v else array_get a j.
Proof.
  unfold array_get, array_set.
  destruct (decide (0 <= j)) as [Hj|Hj]; [|by rewrite decide_False by lia].
  destruct (decide (j = Z.of_nat i)) as [->|Hne].
  - rewrite Nat2Z.id. destruct (decide (i < length a)%nat) as [Hi|Hi].
    + by rewrite list_lookup_insert_eq.
    + rewrite lookup_app_r by lia. rewrite lookup_app_r by (rewrite length_replicate; lia).
      rewrite length_replicate. by replace (i - length a - (i - length a))%nat with 0%nat by lia.
  - assert (Z.to_nat j ≠ i) by lia.
    destruct (decide (i < length a)%nat) as [Hi|Hi].
    + by rewrite list_lookup_insert_ne.
    + destruct (decide (Z.to_nat j < length a)%nat) as [Hja|Hja].
      * by rewrite lookup_app_l.
      * rewrite (lookup_ge_None_2 a) by lia.
        rewrite lookup_app_r by lia.
        destruct (decide (Z.to_nat j < i)%nat) as [Hji|Hji].
        -- rewrite lookup_app_l by (rewrite length_replicate; lia).
           by rewrite lookup_replicate_2 by lia.
        -- rewrite lookup_ge_None_2; [done|].
           rewrite length_app, length_replicate. simpl. lia.
Qed.

Lemma array_get_fill v a (j : Z) :
  array_get (fill v a) j
  = if decide (0 <= j < Z.of_nat (length a)) then Some v else None.
Proof.
  unfold array_get, fill.
  destruct (decide (0 <= j)) as [Hj|Hj]; [|by rewrite decide_False by lia].
  rewrite list_lookup_fmap.
  destruct (decide (0 <= j < _)) as [Hlt|Hge].
  - destruct (lookup_lt_is_Some_2 a (Z.to_nat j)) as [x ->]; [lia|done].
  - by rewrite lookup_ge_None_2 by lia.
Qed.


Lemma flag_set a i j :
  flag (array_set a i true) j = true ↔ flag a j = true ∨ j = i.
Proof.
  rewrite array_get_set. destruct (decide (Z.of_nat j = Z.of_nat i)) as [Heq|Hne]; cbn.
  - split; [intros _; right; lia|done].
  - split; [by left|]. intros [?|?]; [done|lia].
Qed.

Lemma gesture_step_flag a (g : Gesture) code :
  flag (gesture_step lt a g) code = true
  ↔ flag a code = true ∨ raises lt g code.
Proof.
  unfold gesture_step, raises.
  repeat case_decide;
    repeat match goal with
    | |- context [if above_zero lt ?x then _ else _] => destruct (above_zero lt x)
    end;
    rewrite ?flag_set; intuition (subst; try congruence; auto 10).
Qed.

Lemma gestures_fold_flag (gs : list Gesture) a code :
  flag (foldl (gesture_step lt) a gs) code = true
  ↔ flag a code = true ∨ ∃ g, g ∈ gs ∧ raises lt g code.
Proof.
  revert a. induction gs as [|g gs IH]; intros a; cbn [foldl].
  - split; [by left|]. intros [?|(g & Hg & _)]; [done|]. by apply elem_of_nil in Hg.
  - rewrite IH, gesture_step_flag. split.
    + intros [[?|?]|(g' & ? & ?)]; [by left| |].
      * right. exists g. split; [apply list_elem_of_here|done].
      * right. exists g'. split; [by apply list_elem_of_further|done].
    + intros [?|(g' & Hin & ?)]; [by left; left|].
      apply elem_of_cons in Hin as [->|Hin]; [by left; right|].
      right. by exists g'.
Qed.

Lemma flag_fill_false a code : flag (fill false a) code = false.
Proof. rewrite array_get_fill. by case_decide. Qed.

(** X25. The gesture flags after [update] are those of the gestures of the
    frame and of nothing else: a flag is up exactly when the frame is
    valid and one of its gestures raises it; what was up before the
    call plays no part. *)
Theorem update_gesture_flags (l : device) (frame : Frame) (code : nat) :
  data l = Some frame →
  gesturesEnabled l = true →
  checkGesture (update lt decimal_0_3 decimal_minus_0_5 distanceTo l) (Z.of_nat code) = true
  ↔ valid frame = true ∧ ∃ g, g ∈ gestures frame ∧ raises lt g code.
Proof.
  intros Hd He. unfold checkGesture, update. rewrite Hd, He. cbn [gesture].
  unfold updateGestures.
  destruct (valid frame); cbn [andb].
  - case_bool_decide as Hlen.
    + rewrite gestures_fold_flag, flag_fill_false.
      split; [intros [?|?]; [done|by split]|intros [_ ?]; by right].
    + rewrite flag_fill_false. split; [done|]. intros (_ & g & Hg & _).
      destruct (gestures frame); [by apply elem_of_nil in Hg|]. cbn in Hlen. lia.
  - rewrite flag_fill_false. split; [done|by intros [? _]].
Qed.





Local Abbreviation hand_step' := (hand_step lt decimal_0_3 decimal_minus_0_5 distanceTo).
Local Abbreviation update' := (update lt decimal_0_3 decimal_minus_0_5 distanceTo).




(** X26. With no hand in the frame every pose is reported: [update] raises
    all the pose flags and, having no hand to test, lowers none. *)
Theorem update_poses_no_hand (l : device) (frame : Frame) (p : Z) :
  data l = Some frame →
  posesEnabled l = true →
  hands frame = [] →
  checkPose (update' l) p = true ↔ 0 <= p < Z.of_nat (length (pose l)).
Proof.
  intros Hd He Hh. unfold checkPose, update. rewrite Hd, He. cbn [pose].
  unfold updatePoses. rewrite Hh. cbn [foldl].
  rewrite array_get_fill. by case_decide.
Qed.


End LeapMotionFacts.

(** ** TabButton: where a dropped tab goes *)

Section TabButtonFacts.
Context {num : Type} `{JSNumber num}.
Import TabButton.
Variable lt : num → num → bool.
Variables decimal_0_8 decimal_0_2 decimal_0_7 decimal_0_3 : num.
Variable parseInt : string → option Z.

Local Abbreviation button := (TabButton.t (num := num)).
Local Abbreviation ondragover' := (ondragover lt decimal_0_8 decimal_0_2 decimal_0_7 decimal_0_3).
Local Abbreviation handle' :=
  (handle lt decimal_0_8 decimal_0_2 decimal_0_7 decimal_0_3 parseInt).

(** X28. A drop takes the four borders away and leaves the drag state as it
    is. It asks the container for a move exactly when the transfer
    carries an index other than the one of the button and the drag
    state is [PREVIOUS] or [NEXT]. For a tab that comes from the same
    container of [n] tabs the place asked for is one of the [n] places,
    and it is the place the tab already has exactly when the tab is
    dropped on the near side of its neighbour. *)
Theorem ondrop_move (b : button) (data : string) :
  let r := ondrop parseInt data b in
  (borderLeft r.1 = None ∧ borderRight r.1 = None
   ∧ borderBottom r.1 = None ∧ borderTop r.1 = None)
  ∧ dragState r.1 = dragState b
  ∧ (is_Some r.2
     ↔ data ≠ "" ∧ parseInt data ≠ Some (tab_index b)
       ∧ (dragState b = PREVIOUS ∨ dragState b = NEXT))
  ∧ (∀ index to, r.2 = Some (index, to) → index = parseInt data)
  ∧ (∀ (from to n : Z),
       r.2 = Some (Some from, to) →
       0 <= from < n → 0 <= tab_index b < n →
       0 <= to < n
       ∧ (to = from
          ↔ (dragState b = PREVIOUS ∧ from = tab_index b - 1)
            ∨ (dragState b = NEXT ∧ from = tab_index b + 1))).
Proof.
  assert (Hnone : ∀ b' : button,
            dragState b' = dragState b →
            borderLeft b' = None → borderRight b' = None →
            borderBottom b' = None → borderTop b' = None →
            ¬ (data ≠ "" ∧ parseInt data ≠ Some (tab_index b)
               ∧ (dragState b = PREVIOUS ∨ dragState b = NEXT)) →
            let r : button * option (option Z * Z) := (b', None) in
            (borderLeft r.1 = None ∧ borderRight r.1 = None
             ∧ borderBottom r.1 = None ∧ borderTop r.1 = None)
            ∧ dragState r.1 = dragState b
            ∧ (is_Some r.2
               ↔ data ≠ "" ∧ parseInt data ≠ Some (tab_index b)
                 ∧ (dragState b = PREVIOUS ∨ dragState b = NEXT))
            ∧ (∀ index to, r.2 = Some (index, to) → index = parseInt data)
            ∧ (∀ (from to n : Z),
                 r.2 = Some (Some from, to) →
                 0 <= from < n → 0 <= tab_index b < n →
                 0 <= to < n
                 ∧ (to = from
                    ↔ (dragState b = PREVIOUS ∧ from = tab_index b - 1)
                      ∨ (dragState b = NEXT ∧ from = tab_index b + 1)))).
  { intros b' Hs Hl Hr Hb Ht Hno. cbn [fst snd].
    split; [done|]. split; [done|].
    split; [split; [by intros [? [=]]|by intros ?]|].
    split; [by intros ? ? [=]|by intros ? ? ? [=]]. }
  unfold ondrop, before. cbn [dragState tab_index with_drag].
  destruct (decide (data ≠ "")) as [Hd|Hd]; [|apply Hnone; try done; tauto].
  destruct (decide (parseInt data ≠ Some (tab_index b))) as [Hi|Hi];
    [|apply Hnone; try done; tauto].
  destruct (decide (dragState b = PREVIOUS)) as [Hp|Hp];
    [|destruct (decide (dragState b = NEXT)) as [Hn|Hn];
      [|apply Hnone; try done; tauto]].
  - cbn [fst snd borderLeft borderRight borderBottom borderTop dragState with_drag].
    split; [done|]. split; [done|].
    split; [split; [intros _; tauto|by eexists]|].
    split; [by intros ? ? [= <- _]|].
    intros from to n [= Hfrom <-] Hf Ht. rewrite Hfrom in Hi |- *.
    assert (from ≠ tab_index b) by congruence.
    rewrite Hp. unfold PREVIOUS, NEXT. case_bool_decide; lia.
  - cbn [fst snd borderLeft borderRight borderBottom borderTop dragState with_drag].
    split; [done|]. split; [done|].
    split; [split; [intros _; tauto|by eexists]|].
    split; [by intros ? ? [= <- _]|].
    intros from to n [= Hfrom <-] Hf Ht. rewrite Hfrom in Hi |- *.
    assert (from ≠ tab_index b) by congruence.
    rewrite Hn. unfold PREVIOUS, NEXT. case_bool_decide; lia.
Qed.

(** X29. As long as no tab is dropped, the borders of the button follow the
    drag state: whatever is dragged over the button, leaves it or ends,
    a border marks the side of [PREVIOUS] or [NEXT] and no other border
    is set. *)
Theorem drag_marked (events : list DragEvent) (index : Z) (placement : bool) (x y : num) :
  Forall (λ event, ∀ data, event ≠ Dropped data) events →
  marked (foldl handle' (new index placement x y) events).
Proof.
  intros Hev.
  assert (Hnew : marked (new index placement x y)).
  { unfold marked, new. destruct placement; cbn; tauto. }
  revert Hnew. generalize (new index placement x y).
  induction Hev as [|event events Hevent _ IH]; intros b Hb; [done|].
  cbn [foldl]. apply IH. clear IH.
  destruct event as [event| | |data]; [| | |by destruct (Hevent data)].
  - unfold handle, ondragover.
    destruct (horizontal b) eqn:Hh;
      repeat match goal with
      | |- context [if ?c then _ else _] =>
          lazymatch c with
          | decide _ => destruct c
          | _ => destruct c eqn:?
          end
      end; try exact Hb;
      unfold marked, marker in *;
      cbn [dragState borderLeft borderRight borderBottom borderTop horizontal with_drag];
      rewrite Hh in *; tauto.
  - unfold handle, ondragleave, marked. destruct (horizontal b) eqn:Hh;
      cbn [dragState borderLeft borderRight borderBottom borderTop horizontal with_drag];
      rewrite Hh; tauto.
  - unfold handle, ondragend, marked. destruct (horizontal b) eqn:Hh;
      cbn [dragState borderLeft borderRight borderBottom borderTop horizontal with_drag];
      rewrite Hh; tauto.
Qed.

(** X30. A drop does not reset the drag state. When the next tab is dragged
    over the same side of the button, the state is the one it had and
    no border is drawn; should this tab be dropped there too, it is
    moved all the same. *)
Theorem drop_keeps_drag_state (b : button) (first second : string) (event : DragOver) :
  dragState b = NEXT →
  horizontal b = true →
  lt (nmul (size_x b) decimal_0_8) (layerX event) = true →
  parseInt second ≠ Some (tab_index b) →
  second ≠ "" →
  let b1 := ondragover' event (ondrop parseInt first b).1 in
  dragState b1 = NEXT
  ∧ borderRight b1 = None
  ∧ ¬ marked b1
  ∧ is_Some (ondrop parseInt second b1).2.
Proof.
  intros Hs Hh Hx Hi Hd b1.
  assert (Hb1 : b1 = with_drag (dragState b) None None None None b).
  { subst b1. unfold ondragover.
    assert (Hdrop : (ondrop parseInt first b).1
                    = with_drag (dragState b) None None None None b).
    { unfold ondrop. repeat case_decide; done. }
    rewrite Hdrop. cbn [horizontal size_x dragState with_drag borderBottom borderTop].
    rewrite Hh, Hx. cbn [orb]. by rewrite decide_False by (rewrite Hs; tauto). }
  rewrite Hb1. cbn [dragState borderRight with_drag]. split; [done|]. split; [done|].
  split.
  - unfold marked, marker. cbn [horizontal with_drag dragState borderLeft borderRight
                                 borderTop borderBottom].
    rewrite Hh, Hs. unfold NEXT, NONE, PREVIOUS. intros (_ & _ & [(? & _)|[(? & _)|(_ & _ & ?)]]); done.
  - unfold ondrop. cbn [dragState tab_index with_drag].
    rewrite decide_True by done. rewrite decide_True by done.
    rewrite Hs. rewrite decide_False by done. rewrite decide_True by done. by eexists.
Qed.

End TabButtonFacts.

(** ** Runs on the sample values *)

Lemma update_gesture_flags_witness :
  LeapMotion.checkGesture
    (LeapMotion.update Sample.less (3 # 10)%Q (-1 # 2)%Q Sample.square_distance
       (LeapMotion.receive Sample.frame LeapMotion.new))
    (Z.of_nat LeapMotion.SWIPE_RIGHT) = true.
Proof.
  apply (update_gesture_flags Sample.less (3 # 10)%Q (-1 # 2)%Q Sample.square_distance
           (LeapMotion.receive Sample.frame LeapMotion.new) Sample.frame
           LeapMotion.SWIPE_RIGHT eq_refl eq_refl).
  split; [reflexivity|]. exists Sample.swipe. split; [apply list_elem_of_here|].
  left. split; [reflexivity|]. right. left. reflexivity.
Defined.

Lemma update_poses_no_hand_witness :
  LeapMotion.checkPose
    (LeapMotion.update Sample.less (3 # 10)%Q (-1 # 2)%Q Sample.square_distance
       (LeapMotion.receive Sample.empty_frame LeapMotion.new))
    (Z.of_nat LeapMotion.CLOSED) = true.
Proof.
  apply (update_poses_no_hand Sample.less (3 # 10)%Q (-1 # 2)%Q Sample.square_distance
           (LeapMotion.receive Sample.empty_frame LeapMotion.new) Sample.empty_frame
           (Z.of_nat LeapMotion.CLOSED) eq_refl eq_refl eq_refl).
  vm_compute. split; [discriminate|reflexivity].
Defined.


Lemma loadCompressedTexture_cube_faces_witness :
  ∃ faces,
    Editor.image <$> Editor.loadCompressedTexture 13 Sample.cube = Some (Editor.Faces faces)
    ∧ concat (Editor.face_mipmaps <$> faces) = Some <$> seq 0 12.
Proof.
  assert (Hc : (0 < Editor.mipmapCount Sample.cube)%nat) by (cbn; lia).
  destruct (loadCompressedTexture_cube_faces Sample.cube 0 eq_refl Hc)
    as (faces & Hfaces & _ & _ & _ & _ & Hwhole).
  exists faces. split; [exact Hfaces|]. apply Hwhole. reflexivity.
Defined.

Lemma loadCompressedTexture_cube_endless_witness :
  Editor.loadCompressedTexture 1000 Sample.cube_without_count = None.
Proof.
  assert (Hm : Editor.data_mipmaps Sample.cube_without_count ≠ []) by done.
  exact (loadCompressedTexture_cube_endless Sample.cube_without_count 1000
           eq_refl eq_refl Hm).
Defined.

Lemma loadSpineAnimation_atlas_witness :
  (Editor.loadSpineAnimation Sample.spine_folder
     {| name := "boy.json"; path := Some "/spine/boy.json" |} []).2
  = [Editor.SpineRead (Some "/spine/boy.json");
     Editor.SpineRead (Some "/spine/boy.atlas");
     Editor.SpineCreate "/spine/boy.json" "/spine/boy.atlas" "/spine/";
     Editor.SpineName "boy";
     Editor.SpineAddObject].
Proof.
  assert (Hb : Forall (λ g, endsWith g "atlas" = false) ["boy.json"])
    by (by repeat constructor).
  exact (proj2 (loadSpineAnimation_atlas Sample.spine_folder
                  {| name := "boy.json"; path := Some "/spine/boy.json" |}
                  "/spine/" ["boy.json"; "boy.atlas"; "old.atlas"] eq_refl eq_refl)
           ["boy.json"] "boy.atlas" ["old.atlas"]
           "/spine/boy.json" "/spine/boy.atlas" "boy"
           eq_refl Hb eq_refl eq_refl eq_refl eq_refl eq_refl).
Defined.

Lemma convertAnimation_length_witness :
  Editor.animation_length (Editor.convertAnimation id (Z.ltb 0) Sample.walk "walk")
  = Some 2.
Proof.
  assert (Hlater : Forall (λ t' : Editor.Track (Key := Z) (Label := string),
                             (length (Editor.keys t') ≤ 1)%nat)
                     [ {| Editor.track_name := "knee"; Editor.track_parent := "hip";
                          Editor.keys := [0] |} ])
    by (repeat constructor).
  exact (convertAnimation_length id (Z.ltb 0) Sample.walk "walk" []
           {| Editor.track_name := "hip"; Editor.track_parent := "";
              Editor.keys := [0; 1; 2] |}
           _ 0 [1] 2 eq_refl eq_refl Hlater).
Defined.

Lemma drag_marked_witness :
  TabButton.marked
    (foldl (TabButton.handle Sample.less (4 # 5)%Q (1 # 5)%Q (7 # 10)%Q (3 # 10)%Q
              Sample.parse_int)
       (TabButton.new 1 true (inject_Z 100) (inject_Z 30))
       [TabButton.Dragover {| TabButton.layerX := inject_Z 90;
                              TabButton.layerY := inject_Z 10;
                              TabButton.on_button := true |};
        TabButton.Dragleave]).
Proof.
  apply (drag_marked Sample.less (4 # 5)%Q (1 # 5)%Q (7 # 10)%Q (3 # 10)%Q
           Sample.parse_int).
  by repeat constructor.
Defined.

Lemma drop_keeps_drag_state_witness :
  let over := {| TabButton.layerX := inject_Z 90;
                 TabButton.layerY := inject_Z 10;
                 TabButton.on_button := true |} in
  let b := TabButton.ondragover Sample.less (4 # 5)%Q (1 # 5)%Q (7 # 10)%Q (3 # 10)%Q over
             (TabButton.new 1 true (inject_Z 100) (inject_Z 30)) in
  TabButton.borderRight b = Some "thick solid #999999"
  ∧ TabButton.borderRight
      (TabButton.ondragover Sample.less (4 # 5)%Q (1 # 5)%Q (7 # 10)%Q (3 # 10)%Q over
         (TabButton.ondrop Sample.parse_int "0" b).1) = None.
Proof.
  intros over b. split; [reflexivity|].
  assert (Hi : Sample.parse_int "2" ≠ Some (TabButton.tab_index b)) by done.
  assert (Hd : "2" ≠ "") by done.
  exact (proj1 (proj2 (drop_keeps_drag_state Sample.less (4 # 5)%Q (1 # 5)%Q (7 # 10)%Q
                         (3 # 10)%Q Sample.parse_int b "0" "2" over
                         eq_refl eq_refl eq_refl Hi Hd))).
Defined.

Lemma toJSON_once_witness :
  ∃ json fonts',
    Font.toJSON (λ _, tt) (λ _, Normal []) Sample.base64_font ∅ = (Normal json, fonts')
    ∧ fonts' !! "F1" = Some json
    ∧ Font.json_format json ≠ "base64".
Proof.
  destruct (Font.toJSON (λ _, tt) (λ _, Normal []) Sample.base64_font ∅)
    as [[json|e] fonts'] eqn:Hrun; [|by vm_compute in Hrun].
  exists json, fonts'. split; [reflexivity|].
  destruct (toJSON_once (λ _, tt) (λ _, Normal []) Sample.base64_font ∅ fonts' json Hrun)
    as (Hstored & _ & _ & Hformat).
  split; [exact Hstored|]. by apply Hformat.
Defined.

Lemma toJSON_base64_witness :
  ∃ json,
    (Font.toJSON (ResourceJSON := unit) (λ _, tt) (λ _, Normal [])
       Sample.base64_font ∅).1 = Normal json
    ∧ Font.json_data json = Font.Binary [77; 97; 110; 65; 255; 255].
Proof.
  assert (Hg : ArraybufferUtils.whole_groups [77; 97; 110])
    by (constructor; unfold ArraybufferUtils.is_byte; try lia; constructor).
  assert (Ht : ArraybufferUtils.last_group [65])
    by (constructor; unfold ArraybufferUtils.is_byte; lia).
  destruct (toJSON_base64 (λ _, tt) (λ _, Normal []) Sample.base64_font ∅
              [77; 97; 110] [65] eq_refl eq_refl Hg Ht (lookup_empty _))
    as (json & Hrun & _ & Hdata).
  exists json. split; [by rewrite Hrun|exact Hdata].
Defined.
